(** * tetris-ssh: a shallow embedding of [tetris-server.js]

    The development follows the source file top to bottom: the leaderboard
    store ([updateHighScore] and friends), the piece catalogue, the board
    operations of [TetrisGame] ([checkCollision], [placePiece],
    [clearLines]), the engine operations built on them and the screen state
    machine driven by key presses and by the gravity timer.

    JavaScript numbers are modelled by [Z] (every number the engine handles
    is an integer far below 2^53), array indices by [nat], [null] by [None].
    An operation of the source that would raise a [TypeError], or that would
    leave the shapes this model represents (a row grown by an out-of-range
    write, a [NaN] score), yields an explicit error value instead of a
    result. *)

From Stdlib Require Import ZArith Lia Sorted Permutation.
From stdpp Require Import base tactics option list gmap strings pretty.

Local Open Scope Z_scope.

(** ** Outcomes of an operation *)

Inductive error : Type :=
| TypeError    (* the script raises: a property of [undefined] or [null] is read *)
| OutOfModel   (* the script goes on with a value this model does not represent *)
| OutOfFuel.   (* a [while]/[for] loop was cut off by the model's step bound *)

Inductive result (A : Type) : Type :=
| Ok (a : A)
| Err (e : error).
Arguments Ok {A} a.
Arguments Err {A} e.

(** ** Configuration *)

Definition MAX_HIGHSCORE_ENTRIES : Z := 100.
Definition MAX_PLAYER_HISTORY : Z := 5.

(** ** Storage *)

Module Player.
Record t : Type := mk { id : string; name : string; fingerprint : string }.
End Player.

Module Entry.
Record t : Type := mk {
  playerId : string;
  playerName : string;
  score : Z;
  level : Z;
  lines : Z;
  date : string
}.
End Entry.

Module PlayerRecord.
(** [scores] is optional: [updateHighScore] tests [!playerData[id].scores]. *)
Record t : Type := mk {
  name : string;
  fingerprint : string;
  firstSeen : string;
  lastSeen : string;
  scores : option (list Entry.t)
}.
Definition with_scores (s : list Entry.t) (r : t) : t :=
  mk (name r) (fingerprint r) (firstSeen r) (lastSeen r) (Some s).
End PlayerRecord.

(** The two module-level variables [highScores] and [playerData]. *)
Record World : Type := mkWorld {
  highScores : list Entry.t;
  playerData : gmap string PlayerRecord.t
}.

(** [Array.prototype.findIndex]: the first index whose element satisfies the
    predicate, [-1] when there is none. *)
Fixpoint findIndexFrom {A : Type} (p : A → bool) (i : Z) (l : list A) : Z :=
  match l with
  | [] => -1
  | x :: l' => if p x then i else findIndexFrom p (i + 1) l'
  end.

Definition findIndex {A : Type} (p : A → bool) (l : list A) : Z :=
  findIndexFrom p 0 l.

Definition isPlayer (pid : string) (e : Entry.t) : bool :=
  bool_decide (Entry.playerId e = pid).

(** [highScores.sort((a, b) => b.score - a.score)].  The engine's sort is
    stable; a stable sort is determined by its comparator, so it is modelled
    by insertion from the right, where an element goes in front of the first
    element that does not beat it. *)
Fixpoint insertByScore (x : Entry.t) (l : list Entry.t) : list Entry.t :=
  match l with
  | [] => [x]
  | y :: l' =>
      if Entry.score y - Entry.score x >? 0 then y :: insertByScore x l'
      else x :: l
  end.

Definition sortByScore (l : list Entry.t) : list Entry.t :=
  foldr insertByScore [] l.

(** [arr.slice(0, n)] for a non-negative [n]. *)
Definition slice0 {A : Type} (n : Z) (l : list A) : list A := take (Z.to_nat n) l.

(** [updateHighScore(player, score, level, lines)]; [now] stands for
    [new Date().toISOString()].  Returns the 1-based rank (0 when the player
    is not on the board) together with the updated storage. *)
Definition updateHighScore (player : Player.t) (score level lines : Z)
    (now : string) (w : World) : result (Z * World) :=
  let existingIndex := findIndex (isPlayer (Player.id player)) (highScores w) in
  let scoreEntry :=
    Entry.mk (Player.id player) (Player.name player) score level lines now in
  match playerData w !! Player.id player with
  | None => Err TypeError
  | Some rec =>
      let scores0 := default [] (PlayerRecord.scores rec) in
      let scores1 := scoreEntry :: scores0 in
      let scores2 :=
        if Z.of_nat (length scores1) >? MAX_PLAYER_HISTORY
        then slice0 MAX_PLAYER_HISTORY scores1 else scores1 in
      let pd := <[Player.id player := PlayerRecord.with_scores scores2 rec]> (playerData w) in
      let hs1 :=
        if existingIndex >=? 0 then
          match highScores w !! Z.to_nat existingIndex with
          | Some old =>
              if score >? Entry.score old
              then Ok (<[Z.to_nat existingIndex := scoreEntry]> (highScores w))
              else Ok (highScores w)
          | None => Err TypeError
          end
        else Ok (highScores w ++ [scoreEntry]) in
      match hs1 with
      | Err e => Err e
      | Ok hs1 =>
          let hs2 := sortByScore hs1 in
          let hs3 := slice0 (Z.min 50 MAX_HIGHSCORE_ENTRIES) hs2 in
          Ok (findIndex (isPlayer (Player.id player)) hs3 + 1, mkWorld hs3 pd)
      end
  end.

(** [getPlayerBestScore(playerId)] *)
Definition getPlayerBestScore (pid : string) (w : World) : Z :=
  match List.find (isPlayer pid) (highScores w) with
  | Some e => Entry.score e
  | None => 0
  end.

(** [deletePlayerAccount(playerId)] *)
Definition deletePlayerAccount (pid : string) (w : World) : World :=
  mkWorld (List.filter (λ e, negb (isPlayer pid e)) (highScores w))
          (delete pid (playerData w)).

(** ** Tetris pieces *)

Inductive PieceType : Type := PI | PO | PT | PS | PZ | PJ | PL.

#[global] Instance PieceType_eq_dec : EqDecision PieceType.
Proof. solve_decision. Defined.

(** A rotation state: the rows of a 0/1 matrix, as in [PIECES]. *)
Abbreviation Shape := (list (list Z)).

(** [PIECES[type].shapes] *)
Definition shapes (t : PieceType) : list Shape :=
  match t with
  | PI => [ [[1;1;1;1]]; [[1];[1];[1];[1]] ]
  | PO => [ [[1;1];[1;1]] ]
  | PT => [ [[0;1;0];[1;1;1]]; [[1;0];[1;1];[1;0]]; [[1;1;1];[0;1;0]]; [[0;1];[1;1];[0;1]] ]
  | PS => [ [[0;1;1];[1;1;0]]; [[1;0];[1;1];[0;1]] ]
  | PZ => [ [[1;1;0];[0;1;1]]; [[0;1];[1;1];[1;0]] ]
  | PJ => [ [[1;0;0];[1;1;1]]; [[1;1];[1;0];[1;0]]; [[1;1;1];[0;0;1]]; [[0;1];[0;1];[1;1]] ]
  | PL => [ [[0;0;1];[1;1;1]]; [[1;0];[1;0];[1;1]]; [[1;1;1];[1;0;0]]; [[1;1];[0;1];[0;1]] ]
  end.

(** [Object.keys(PIECES)] *)
Definition types : list PieceType := [PI; PO; PT; PS; PZ; PJ; PL].

(** ** Game states *)

Inductive STATES : Type :=
| WELCOME | PLAYING | PAUSED | GAME_OVER
| HIGH_SCORES | ACCOUNT_MENU | ACCOUNT_EXPORT | ACCOUNT_DELETE.

#[global] Instance STATES_eq_dec : EqDecision STATES.
Proof. solve_decision. Defined.

(** ** The board *)

(** A cell is [null] or the tag of the piece that settled there. *)
Abbreviation Cell := (option PieceType).
Abbreviation Board := (list (list Cell)).

(** [Array(20).fill().map(() => Array(10).fill(null))] *)
Definition emptyRow : list Cell := replicate 10 None.
Definition emptyBoard : Board := replicate 20 emptyRow.

(** Truthiness of a matrix entry ([if (piece[py][px])]). *)
Definition truthy (v : Z) : bool := negb (v =? 0).

(** The pairs [(py, px)] at which the two nested [for] loops of
    [checkCollision] and [placePiece] find a truthy entry, in loop order. *)
Fixpoint rowCells (py px : nat) (row : list Z) : list (nat * nat) :=
  match row with
  | [] => []
  | v :: row' =>
      (if truthy v then [(py, px)] else []) ++ rowCells py (S px) row'
  end.

Fixpoint occupiedFrom (py : nat) (piece : Shape) : list (nat * nat) :=
  match piece with
  | [] => []
  | row :: rest => rowCells py 0 row ++ occupiedFrom (S py) rest
  end.

Definition occupied (piece : Shape) : list (nat * nat) := occupiedFrom 0 piece.

(** The body of the inner loop of [checkCollision], run over the occupied
    cells in order; the first cell that collides returns [true]. *)
Fixpoint collideCells (board : Board) (x y : Z) (cells : list (nat * nat))
  : result bool :=
  match cells with
  | [] => Ok false
  | (py, px) :: rest =>
      let newX := x + Z.of_nat px in
      let newY := y + Z.of_nat py in
      if (newX <? 0) || (newX >=? 10) || (newY >=? 20) then Ok true
      else if newY >=? 0 then
        match board !! Z.to_nat newY with
        | None => Err TypeError
        | Some row =>
            match row !! Z.to_nat newX with
            | Some (Some _) => Ok true
            | _ => collideCells board x y rest
            end
        end
      else collideCells board x y rest
  end.

(** [checkCollision(x, y, piece)]; a [null] piece has no [length]. *)
Definition checkCollision (board : Board) (x y : Z) (piece : option Shape)
  : result bool :=
  match piece with
  | None => Err TypeError
  | Some p => collideCells board x y (occupied p)
  end.

(** [this.board[boardY][boardX] = type] for [boardY >= 0].  A missing row
    raises; a column outside the row would grow the array (or set a
    non-index property), which the model does not follow. *)
Definition writeCell (board : Board) (boardY boardX : Z) (c : Cell)
  : result Board :=
  match board !! Z.to_nat boardY with
  | None => Err TypeError
  | Some row =>
      if (0 <=? boardX) && (boardX <? Z.of_nat (length row))
      then Ok (<[Z.to_nat boardY := <[Z.to_nat boardX := c]> row]> board)
      else Err OutOfModel
  end.

(** The two nested loops of [placePiece]. *)
Fixpoint placeCells (board : Board) (x y : Z) (c : Cell)
    (cells : list (nat * nat)) : result Board :=
  match cells with
  | [] => Ok board
  | (py, px) :: rest =>
      let boardY := y + Z.of_nat py in
      let boardX := x + Z.of_nat px in
      if boardY >=? 0 then
        match writeCell board boardY boardX c with
        | Ok board' => placeCells board' x y c rest
        | Err e => Err e
        end
      else placeCells board x y c rest
  end.

(** [row.every(cell => cell !== null)] *)
Definition rowFull (row : list Cell) : bool :=
  forallb (λ cell, bool_decide (cell ≠ None)) row.

(** The [for] loop of [clearLines], from row [y] upwards.  After a removal
    the script's [y++] cancels the loop's [y--], so the same index is
    examined again. *)
Fixpoint clearLinesLoop (fuel : nat) (y : Z) (board : Board) (linesCleared : Z)
  : result (Board * Z) :=
  match fuel with
  | O => Err OutOfFuel
  | S fuel' =>
      if y >=? 0 then
        match board !! Z.to_nat y with
        | None => Err TypeError
        | Some row =>
            if rowFull row then
              let board1 := delete (Z.to_nat y) board in   (* splice(y, 1) *)
              let board2 := emptyRow :: board1 in          (* unshift(...) *)
              clearLinesLoop fuel' ((y + 1) - 1) board2 (linesCleared + 1)
            else clearLinesLoop fuel' (y - 1) board linesCleared
        end
      else Ok (board, linesCleared)
  end.

Definition scoreValues : list Z := [0; 100; 300; 500; 800].

(** ** The session object: the fields of [TetrisGame] *)

Record Game : Type := mkGame {
  player : Player.t;
  streamEnded : bool;             (* [this.stream.end()] has been called *)
  state : STATES;
  board : Board;
  currentPiece : option Shape;
  currentType : option PieceType;
  currentRotation : Z;
  currentX : Z;
  currentY : Z;
  nextType : option PieceType;
  score : Z;
  level : Z;
  lines : Z;
  dropTime : Z;
  lastDrop : Z;
  playerBest : Z
}.

Definition set_streamEnded (v : bool) (g : Game) : Game :=
  mkGame (player g) v (state g) (board g) (currentPiece g) (currentType g)
    (currentRotation g) (currentX g) (currentY g) (nextType g) (score g)
    (level g) (lines g) (dropTime g) (lastDrop g) (playerBest g).
Definition set_state (v : STATES) (g : Game) : Game :=
  mkGame (player g) (streamEnded g) v (board g) (currentPiece g) (currentType g)
    (currentRotation g) (currentX g) (currentY g) (nextType g) (score g)
    (level g) (lines g) (dropTime g) (lastDrop g) (playerBest g).
Definition set_board (v : Board) (g : Game) : Game :=
  mkGame (player g) (streamEnded g) (state g) v (currentPiece g) (currentType g)
    (currentRotation g) (currentX g) (currentY g) (nextType g) (score g)
    (level g) (lines g) (dropTime g) (lastDrop g) (playerBest g).
Definition set_currentPiece (v : option Shape) (g : Game) : Game :=
  mkGame (player g) (streamEnded g) (state g) (board g) v (currentType g)
    (currentRotation g) (currentX g) (currentY g) (nextType g) (score g)
    (level g) (lines g) (dropTime g) (lastDrop g) (playerBest g).
Definition set_currentType (v : option PieceType) (g : Game) : Game :=
  mkGame (player g) (streamEnded g) (state g) (board g) (currentPiece g) v
    (currentRotation g) (currentX g) (currentY g) (nextType g) (score g)
    (level g) (lines g) (dropTime g) (lastDrop g) (playerBest g).
Definition set_currentRotation (v : Z) (g : Game) : Game :=
  mkGame (player g) (streamEnded g) (state g) (board g) (currentPiece g) (currentType g)
    v (currentX g) (currentY g) (nextType g) (score g)
    (level g) (lines g) (dropTime g) (lastDrop g) (playerBest g).
Definition set_currentX (v : Z) (g : Game) : Game :=
  mkGame (player g) (streamEnded g) (state g) (board g) (currentPiece g) (currentType g)
    (currentRotation g) v (currentY g) (nextType g) (score g)
    (level g) (lines g) (dropTime g) (lastDrop g) (playerBest g).
Definition set_currentY (v : Z) (g : Game) : Game :=
  mkGame (player g) (streamEnded g) (state g) (board g) (currentPiece g) (currentType g)
    (currentRotation g) (currentX g) v (nextType g) (score g)
    (level g) (lines g) (dropTime g) (lastDrop g) (playerBest g).
Definition set_nextType (v : option PieceType) (g : Game) : Game :=
  mkGame (player g) (streamEnded g) (state g) (board g) (currentPiece g) (currentType g)
    (currentRotation g) (currentX g) (currentY g) v (score g)
    (level g) (lines g) (dropTime g) (lastDrop g) (playerBest g).
Definition set_score (v : Z) (g : Game) : Game :=
  mkGame (player g) (streamEnded g) (state g) (board g) (currentPiece g) (currentType g)
    (currentRotation g) (currentX g) (currentY g) (nextType g) v
    (level g) (lines g) (dropTime g) (lastDrop g) (playerBest g).
Definition set_level (v : Z) (g : Game) : Game :=
  mkGame (player g) (streamEnded g) (state g) (board g) (currentPiece g) (currentType g)
    (currentRotation g) (currentX g) (currentY g) (nextType g) (score g)
    v (lines g) (dropTime g) (lastDrop g) (playerBest g).
Definition set_lines (v : Z) (g : Game) : Game :=
  mkGame (player g) (streamEnded g) (state g) (board g) (currentPiece g) (currentType g)
    (currentRotation g) (currentX g) (currentY g) (nextType g) (score g)
    (level g) v (dropTime g) (lastDrop g) (playerBest g).
Definition set_dropTime (v : Z) (g : Game) : Game :=
  mkGame (player g) (streamEnded g) (state g) (board g) (currentPiece g) (currentType g)
    (currentRotation g) (currentX g) (currentY g) (nextType g) (score g)
    (level g) (lines g) v (lastDrop g) (playerBest g).
Definition set_lastDrop (v : Z) (g : Game) : Game :=
  mkGame (player g) (streamEnded g) (state g) (board g) (currentPiece g) (currentType g)
    (currentRotation g) (currentX g) (currentY g) (nextType g) (score g)
    (level g) (lines g) (dropTime g) v (playerBest g).

(** What a handler reads from outside the session while it runs. *)
Record Env : Type := mkEnv {
  random1 : PieceType;   (* first  [types[Math.floor(Math.random() * types.length)]] *)
  random2 : PieceType;   (* second draw ([startGame] draws twice) *)
  dateNow : Z;           (* [Date.now()] *)
  isoDate : string       (* [new Date().toISOString()] *)
}.

(** ** A state-and-error monad over the storage and the session *)

Record St : Type := mkSt { world : World; game : Game }.

Definition M (A : Type) : Type := St → result (A * St).

Definition ret {A : Type} (a : A) : M A := λ st, Ok (a, st).
Definition bind {A B : Type} (m : M A) (k : A → M B) : M B :=
  λ st, match m st with
        | Ok (a, st') => k a st'
        | Err e => Err e
        end.
Definition raise {A : Type} (e : error) : M A := λ _, Err e.
Definition lift {A : Type} (r : result A) : M A :=
  λ st, match r with Ok a => Ok (a, st) | Err e => Err e end.
Definition this : M Game := λ st, Ok (game st, st).
Definition assign (f : Game → Game) : M unit :=
  λ st, Ok (tt, mkSt (world st) (f (game st))).
Definition getWorld : M World := λ st, Ok (world st, st).
Definition putWorld (w : World) : M unit := λ st, Ok (tt, mkSt w (game st)).

Declare Scope engine_scope.
Delimit Scope engine_scope with engine.
Notation "'let*' x ':=' m 'in' k" := (bind m (λ x, k))
  (at level 10, x name, m at level 100, k at level 200) : engine_scope.
Notation "'let*' ' pat ':=' m 'in' k" :=
  (bind m (λ x, match x with pat => k end))
  (at level 10, pat pattern, m at level 100, k at level 200) : engine_scope.
Notation "m ';;' k" := (bind m (λ _, k))
  (at level 100, k at level 200, right associativity) : engine_scope.
Local Open Scope engine_scope.

(** [setState(newState)]; rendering writes to the stream only. *)
Definition setState (newState : STATES) : M unit := assign (set_state newState).

(** [spawnNextPiece()], the draw being [drawn]. *)
Definition spawnNextPiece (drawn : PieceType) : M unit :=
  assign (set_nextType (Some drawn)).

(** [spawnPiece()] *)
Definition spawnPiece (drawn : PieceType) (iso : string) : M unit :=
  let* g := this in
  assign (set_currentType (nextType g));;
  spawnNextPiece drawn;;
  assign (set_currentRotation 0);;
  let* g := this in
  match currentType g with
  | None => raise TypeError          (* [PIECES[null]] is undefined *)
  | Some t =>
      match shapes t !! 0%nat with
      | None => raise TypeError
      | Some piece =>
          assign (set_currentPiece (Some piece));;
          match piece with
          | [] => raise TypeError    (* [currentPiece[0].length] *)
          | row0 :: _ =>
              assign (set_currentX ((10 - Z.of_nat (length row0)) / 2));;
              assign (set_currentY 0);;
              let* g := this in
              let* hit := lift (checkCollision (board g) (currentX g) (currentY g) (currentPiece g)) in
              if hit : bool then
                let* w := getWorld in
                let* '(rank, w') := lift (updateHighScore (player g) (score g) (level g) (lines g) iso w) in
                putWorld w';;
                setState GAME_OVER
              else ret tt
          end
      end
  end.

(** [movePiece(dx, dy)] *)
Definition movePiece (dx dy : Z) : M bool :=
  let* g := this in
  let* hit := lift (checkCollision (board g) (currentX g + dx) (currentY g + dy) (currentPiece g)) in
  if negb hit then
    assign (λ g, set_currentX (currentX g + dx) g);;
    assign (λ g, set_currentY (currentY g + dy) g);;
    ret true
  else ret false.

(** [rotatePiece()] *)
Definition rotatePiece : M bool :=
  let* g := this in
  match currentType g with
  | None => raise TypeError
  | Some t =>
      let newRotation := Z.rem (currentRotation g + 1) (Z.of_nat (length (shapes t))) in
      let newPiece := shapes t !! Z.to_nat newRotation in
      (* an [undefined] argument falls back to the default [this.currentPiece] *)
      let piece := match newPiece with Some p => Some p | None => currentPiece g end in
      let* hit := lift (checkCollision (board g) (currentX g) (currentY g) piece) in
      if negb hit then
        assign (set_currentRotation newRotation);;
        assign (set_currentPiece newPiece);;
        ret true
      else ret false
  end.

(** [clearLines()] *)
Definition clearLines (fuel : nat) : M unit :=
  let* g := this in
  let* '(board', linesCleared) := lift (clearLinesLoop fuel 19 (board g) 0) in
  assign (set_board board');;
  if linesCleared >? 0 then
    assign (λ g, set_lines (lines g + linesCleared) g);;
    match scoreValues !! Z.to_nat linesCleared with
    | None => raise OutOfModel       (* [undefined * level] is [NaN] *)
    | Some v =>
        assign (λ g, set_score (score g + v * level g) g);;
        assign (λ g, set_level (lines g / 10 + 1) g);;
        assign (λ g, set_dropTime (Z.max 100 (1000 - (level g - 1) * 100)) g)
    end
  else ret tt.

(** [placePiece()] *)
Definition placePiece (fuel : nat) (drawn : PieceType) (iso : string) : M unit :=
  let* g := this in
  match currentPiece g with
  | None => raise TypeError
  | Some piece =>
      let* board' := lift (placeCells (board g) (currentX g) (currentY g) (currentType g) (occupied piece)) in
      assign (set_board board');;
      clearLines fuel;;
      spawnPiece drawn iso
  end.

(** The [while (this.movePiece(0, 1)) dropped++] loop of [hardDrop]. *)
Fixpoint hardDropLoop (fuel : nat) (dropped : Z) : M Z :=
  match fuel with
  | O => raise OutOfFuel
  | S fuel' =>
      let* moved := movePiece 0 1 in
      if moved : bool then hardDropLoop fuel' (dropped + 1) else ret dropped
  end.

(** [hardDrop()] *)
Definition hardDrop (fuel : nat) (drawn : PieceType) (iso : string) : M unit :=
  let* dropped := hardDropLoop fuel 0 in
  assign (λ g, set_score (score g + dropped * 2) g);;
  placePiece fuel drawn iso.

(** [startGame()]; the timer loop it starts is the [Timer] event below. *)
Definition startGame (env : Env) : M unit :=
  assign (set_board emptyBoard);;
  assign (set_score 0);;
  assign (set_level 1);;
  assign (set_lines 0);;
  assign (set_dropTime 1000);;
  assign (set_lastDrop (dateNow env));;
  spawnNextPiece (random1 env);;
  spawnPiece (random2 env) (isoDate env);;
  setState PLAYING.

(** [restart()] *)
Definition restart (env : Env) : M unit := startGame env.

(** The escape character that starts an arrow-key sequence. *)
Definition ESC : string := String (Ascii.ascii_of_nat 27) EmptyString.
Definition ETX : string := String (Ascii.ascii_of_nat 3) EmptyString.

Definition isKey (key : string) (ks : list string) : bool :=
  bool_decide (key ∈ ks).

(** [handleWelcomeInput(key)] *)
Definition handleWelcomeInput (env : Env) (key : string) : M unit :=
  if isKey key ["h"] then setState HIGH_SCORES
  else if isKey key ["a"] then setState ACCOUNT_MENU
  else startGame env.

(** [handleGameInput(key)] *)
Definition handleGameInput (fuel : nat) (env : Env) (key : string) : M unit :=
  if isKey key ["a"; ESC +:+ "[d"] then movePiece (-1) 0;; ret tt
  else if isKey key ["d"; ESC +:+ "[c"] then movePiece 1 0;; ret tt
  else if isKey key ["s"; ESC +:+ "[b"] then
    let* moved := movePiece 0 1 in
    if moved : bool then assign (λ g, set_score (score g + 1) g)
    else placePiece fuel (random1 env) (isoDate env)
  else if isKey key ["w"; ESC +:+ "[a"] then rotatePiece;; ret tt
  else if isKey key [" "] then hardDrop fuel (random1 env) (isoDate env)
  else if isKey key ["p"] then setState PAUSED
  else if isKey key ["r"] then restart env
  else if isKey key ["h"] then setState HIGH_SCORES
  else ret tt.

(** [handlePausedInput(key)] *)
Definition handlePausedInput (key : string) : M unit :=
  if isKey key ["p"] then setState PLAYING else ret tt.

(** [handleGameOverInput(key)] *)
Definition handleGameOverInput (env : Env) (key : string) : M unit :=
  if isKey key ["r"] then restart env
  else if isKey key ["h"] then setState HIGH_SCORES
  else setState WELCOME.

(** [handleHighScoresInput(key)] *)
Definition handleHighScoresInput (key : string) : M unit :=
  let* g := this in
  if bool_decide (state g = PLAYING) || bool_decide (state g = PAUSED)
  then setState PLAYING
  else setState WELCOME.

(** [handleAccountMenuInput(key)] *)
Definition handleAccountMenuInput (key : string) : M unit :=
  if isKey key ["e"] then setState ACCOUNT_EXPORT
  else if isKey key ["d"] then setState ACCOUNT_DELETE
  else setState WELCOME.

(** [handleAccountExportInput(key)] *)
Definition handleAccountExportInput (key : string) : M unit := setState WELCOME.

(** [handleAccountDeleteInput(key)]; the stream is ended by a timer three
    seconds later, which the model leaves out. *)
Definition handleAccountDeleteInput (key : string) : M unit :=
  if isKey key ["y"] then
    let* g := this in
    let* w := getWorld in
    putWorld (deletePlayerAccount (Player.id (player g)) w)
  else setState WELCOME.

(** The ['data'] listener installed by [setupInput]; [key] is the received
    chunk after [toString().toLowerCase()]. *)
Definition onData (fuel : nat) (env : Env) (key : string) : M unit :=
  if isKey key ["q"; ETX] then assign (set_streamEnded true)
  else
    let* g := this in
    match state g with
    | WELCOME => handleWelcomeInput env key
    | PLAYING => handleGameInput fuel env key
    | PAUSED => handlePausedInput key
    | GAME_OVER => handleGameOverInput env key
    | HIGH_SCORES => handleHighScoresInput key
    | ACCOUNT_MENU => handleAccountMenuInput key
    | ACCOUNT_EXPORT => handleAccountExportInput key
    | ACCOUNT_DELETE => handleAccountDeleteInput key
    end.

(** One run of the [loop] closure of [startGameLoop]. *)
Definition loop (fuel : nat) (env : Env) : M unit :=
  let* g := this in
  if bool_decide (state g ≠ PLAYING) then ret tt
  else
    let now := dateNow env in
    (if now - lastDrop g >? dropTime g then
       let* moved := movePiece 0 1 in
       (if negb moved then placePiece fuel (random1 env) (isoDate env) else ret tt);;
       assign (set_lastDrop now)
     else ret tt).

(** [new TetrisGame(stream, player)] *)
Definition newGame (p : Player.t) (w : World) (now : Z) : Game :=
  mkGame p false WELCOME emptyBoard None None 0 0 0 None 0 1 0 1000 now
    (getPlayerBestScore (Player.id p) w).

(** ** Runs of a session *)

Inductive Event : Type :=
| Data (key : string)    (* a chunk arrives on the stream *)
| Timer.                 (* a pending [setTimeout(loop, _)] fires *)

(** No ['data'] event is delivered once the stream has been ended. *)
Definition step (fuel : nat) (env : Env) (ev : Event) : M unit :=
  match ev with
  | Data key =>
      let* g := this in
      if streamEnded g then ret tt else onData fuel env key
  | Timer => loop fuel env
  end.

(** The states a session can be in: it starts from the constructor, runs
    handlers that return normally, and meanwhile other sessions and the
    cleanup timer may change the storage. *)
Inductive reachable : St → Prop :=
| reach_new (w : World) (p : Player.t) (now : Z) :
    reachable (mkSt w (newGame p w now))
| reach_step (st st' : St) (fuel : nat) (env : Env) (ev : Event) :
    reachable st → step fuel env ev st = Ok (tt, st') → reachable st'
| reach_storage (st : St) (w : World) :
    reachable st → reachable (mkSt w (game st)).

(** The leaderboards the server can hold: it starts empty, and changes by
    [updateHighScore] and [deletePlayerAccount]; [playerData] also changes
    when players authenticate. *)
Inductive lb_reachable : World → Prop :=
| lb_empty (pd : gmap string PlayerRecord.t) : lb_reachable (mkWorld [] pd)
| lb_update (w w' : World) (p : Player.t) (score level lines rank : Z) (now : string) :
    lb_reachable w →
    updateHighScore p score level lines now w = Ok (rank, w') →
    lb_reachable w'
| lb_delete (w : World) (pid : string) :
    lb_reachable w → lb_reachable (deletePlayerAccount pid w)
| lb_players (w : World) (pd : gmap string PlayerRecord.t) :
    lb_reachable w → lb_reachable (mkWorld (highScores w) pd).

(** ** Vocabulary of the statements *)

(** Scores never increase along the list. *)
Definition sortedDesc (hs : list Entry.t) : Prop :=
  StronglySorted (λ a b, Entry.score a >= Entry.score b) hs.

(** The entries that carry a given score, in list order. *)
Definition withScore (s : Z) (hs : list Entry.t) : list Entry.t :=
  List.filter (λ e, Entry.score e =? s) hs.

Definition ids (hs : list Entry.t) : list string := Entry.playerId <$> hs.

(** What one call of [updateHighScore] does to the list before it sorts and
    cuts: the first branch of its [if]. *)
Definition upserted (p : Player.t) (e : Entry.t) (hs : list Entry.t) : list Entry.t :=
  let i := findIndex (isPlayer (Player.id p)) hs in
  if i >=? 0 then
    match hs !! Z.to_nat i with
    | Some old => if Entry.score e >? Entry.score old then <[Z.to_nat i := e]> hs else hs
    | None => hs
    end
  else hs ++ [e].

(** Twenty rows of ten cells. *)
Definition board_wf (b : Board) : Prop :=
  length b = 20%nat ∧ Forall (λ row, length row = 10%nat) b.

Definition noFullRow (b : Board) : Prop := Forall (λ row, rowFull row = false) b.

Definition countFull (b : Board) : nat := length (List.filter rowFull b).

(** The content of the cell in row [y], column [x]; [None] outside the board
    as well. *)
Definition boardCell (b : Board) (y x : Z) : Cell :=
  if (0 <=? y) && (0 <=? x) then
    match b !! Z.to_nat y with
    | Some row => default None (row !! Z.to_nat x)
    | None => None
    end
  else None.

(** The matrix has a truthy entry in row [py], column [px]. *)
Definition occupiedAt (piece : Shape) (py px : nat) : Prop :=
  ∃ row v, piece !! py = Some row ∧ row !! px = Some v ∧ v ≠ 0.

(** What one occupied cell, at offset [(py, px)], contributes to the verdict. *)
Definition cellHits (b : Board) (x y : Z) (cell : nat * nat) : Prop :=
  let newX := x + Z.of_nat cell.2 in
  let newY := y + Z.of_nat cell.1 in
  (newX < 0 ∨ newX >= 10) ∨ newY >= 20 ∨ (newY >= 0 ∧ boardCell b newY newX ≠ None).

(** The collision rule in words: some occupied cell leaves the columns, or
    reaches row 20, or lands on a settled cell of a row from 0 on. *)
Definition hits (b : Board) (x y : Z) (piece : Shape) : Prop :=
  ∃ py px, occupiedAt piece py px ∧
    let newX := x + Z.of_nat px in
    let newY := y + Z.of_nat py in
    (newX < 0 ∨ newX >= 10) ∨ newY >= 20 ∨ (newY >= 0 ∧ boardCell b newY newX ≠ None).

Definition leavesColumns (x : Z) (piece : Shape) : Prop :=
  ∃ py px, occupiedAt piece py px ∧ (x + Z.of_nat px < 0 ∨ x + Z.of_nat px >= 10).

(** Full rows strictly above, respectively strictly below, row [i]. *)
Definition fullAbove (b : Board) (i : nat) : nat := countFull (take i b).
Definition fullBelow (b : Board) (i : nat) : nat := countFull (drop (S i) b).

(** The statistics agree with each other. *)
Definition statsInv (g : Game) : Prop :=
  0 <= lines g ∧
  level g = lines g / 10 + 1 ∧
  dropTime g = Z.max 100 (1000 - (level g - 1) * 100).

(** The falling piece is a catalogue shape of its type and is free. *)
Definition pieceInv (g : Game) : Prop :=
  ∃ t sh, currentType g = Some t ∧ currentPiece g = Some sh ∧ sh ∈ shapes t ∧
          checkCollision (board g) (currentX g) (currentY g) (Some sh) = Ok false.

Definition inPlay (g : Game) : Prop := state g = PLAYING ∨ state g = PAUSED.

Definition gameInv (g : Game) : Prop :=
  board_wf (board g) ∧ noFullRow (board g) ∧ statsInv g ∧ (inPlay g → pieceInv g).

(** The result of the whole scan of a twenty-row board. *)
Definition cleared (b : Board) : Board :=
  replicate (countFull b) emptyRow ++ List.filter (λ r, negb (rowFull r)) b.

(** The settled part of a game: what a move of the falling piece leaves
    alone. *)
Definition sameSettled (g g' : Game) : Prop :=
  board g' = board g ∧ lines g' = lines g ∧ level g' = level g ∧
  dropTime g' = dropTime g ∧ player g' = player g.

(** The falling part of a game and its screen. *)
Definition sameFalling (g g' : Game) : Prop :=
  state g' = state g ∧ currentPiece g' = currentPiece g ∧
  currentType g' = currentType g ∧ currentX g' = currentX g ∧
  currentY g' = currentY g ∧ nextType g' = nextType g ∧ player g' = player g.

(** The drop interval as a function of the level. *)
Definition dropInterval (lvl : Z) : Z := Z.max 100 (1000 - (lvl - 1) * 100).

(** ** Sample data *)

(** A run of finished games: each one ends in a call of [updateHighScore]. *)
Fixpoint playAll (games : list (Player.t * Z)) (now : string) (w : World)
  : result World :=
  match games with
  | [] => Ok w
  | (p, sc) :: rest =>
      match updateHighScore p sc 1 0 now w with
      | Ok (_, w') => playAll rest now w'
      | Err e => Err e
      end
  end.

Definition worldOf (r : result World) : World :=
  match r with Ok w => w | Err _ => mkWorld [] ∅ end.

Definition isOk {A : Type} (r : result A) : bool :=
  match r with Ok _ => true | Err _ => false end.

(** Players number 0, 1, 2, ... and their records as [getPlayerIdentity]
    creates them. *)
Definition nthPlayer (n : nat) : Player.t :=
  Player.mk ("key" +:+ pretty n) ("player" +:+ pretty n) ("key" +:+ pretty n).

Definition recordOf (p : Player.t) : PlayerRecord.t :=
  PlayerRecord.mk (Player.name p) (Player.fingerprint p)
    "2024-01-01T00:00:00.000Z" "2024-01-01T00:00:00.000Z" (Some []).

Definition registered (n : nat) : gmap string PlayerRecord.t :=
  list_to_map ((λ i, (Player.id (nthPlayer i), recordOf (nthPlayer i))) <$> seq 0 n).

Definition someDate : string := "2024-01-02T00:00:00.000Z".

(** Player [i] finishes a game with [1000 - 10 i] points, for [i] below 50. *)
Definition fiftyGames : list (Player.t * Z) :=
  (λ i, (nthPlayer i, 1000 - 10 * Z.of_nat i)) <$> seq 0 50.

Definition fiftyWorld : World :=
  worldOf (playAll fiftyGames someDate (mkWorld [] (registered 51))).

(** One player with 500 points on the board. *)
Definition oneWorld : World :=
  worldOf (playAll [(nthPlayer 0, 500)] someDate (mkWorld [] (registered 1))).

(** A run of a session: the events it handles, each with what the handler
    reads from outside, in order. *)
Fixpoint run (fuel : nat) (events : list (Env * Event)) (st : St)
  : result (unit * St) :=
  match events with
  | [] => Ok (tt, st)
  | (env, ev) :: rest =>
      match step fuel env ev st with
      | Ok (_, st') => run fuel rest st'
      | Err e => Err e
      end
  end.

Definition stOf (r : result (unit * St)) (otherwise : St) : St :=
  match r with Ok (_, st) => st | Err _ => otherwise end.

(** Player 0 connects; the draws are a T and then an I. *)
Definition sessionStart : St :=
  let w := mkWorld [] (registered 1) in mkSt w (newGame (nthPlayer 0) w 0).

Definition envAt (now : Z) : Env := mkEnv PT PI now someDate.

(** ... presses a key on the welcome screen: a game is running. *)
Definition playingSt : St :=
  stOf (run 41 [(envAt 0, Data "x")] sessionStart) sessionStart.

(** ... and then asks for the leaderboard. *)
Definition leaderboardSt : St :=
  stOf (step 41 (envAt 50) (Data "h") playingSt) playingSt.

(** A board with a marked row just above a full bottom row. *)
Definition markerRow : list Cell := <[0%nat := Some PT]> emptyRow.
Definition fullRow : list Cell := replicate 10 (Some PI).
Definition markedBoard : Board := replicate 18 emptyRow ++ [markerRow; fullRow].

(** ** Protection tracking *)

Definition MAX_CONNECTIONS_PER_IP : Z := 3.
Definition MAX_AUTH_ATTEMPTS_PER_IP : Z := 5.
Definition AUTH_ATTEMPT_WINDOW : Z := 300000.

(** The two module-level maps [connectionLimits] and [authAttempts]. *)
Record Guard : Type := mkGuard {
  connectionLimits : gmap string Z;
  authAttempts : gmap string (list Z)
}.

(** [attempts.filter(time => now - time < AUTH_ATTEMPT_WINDOW)]; [now] is
    the clock, read as one value for the whole filter. *)
Definition recentAttempts (now : Z) (attempts : list Z) : list Z :=
  List.filter (λ time, now - time <? AUTH_ATTEMPT_WINDOW) attempts.

(** [isIPBlocked(ip)] *)
Definition isIPBlocked (ip : string) (now : Z) (m : gmap string (list Z)) : bool :=
  match m !! ip with
  | None => false
  | Some attempts =>
      Z.of_nat (length (recentAttempts now attempts)) >=? MAX_AUTH_ATTEMPTS_PER_IP
  end.

(** [recordAuthAttempt(ip)] *)
Definition recordAuthAttempt (ip : string) (now : Z) (m : gmap string (list Z))
  : gmap string (list Z) :=
  let m1 := match m !! ip with Some _ => m | None => <[ip := []]> m end in
  match m1 !! ip with
  | Some attempts => <[ip := attempts ++ [now]]> m1      (* [push] *)
  | None => m1
  end.

(** [getActiveConnections(ip)]: [connectionLimits.get(ip) || 0] *)
Definition getActiveConnections (ip : string) (m : gmap string Z) : Z :=
  match m !! ip with
  | Some n => if n =? 0 then 0 else n
  | None => 0
  end.

(** [addConnection(ip)] *)
Definition addConnection (ip : string) (m : gmap string Z) : gmap string Z :=
  <[ip := getActiveConnections ip m + 1]> m.

(** [removeConnection(ip)] *)
Definition removeConnection (ip : string) (m : gmap string Z) : gmap string Z :=
  let current := getActiveConnections ip m in
  if current <=? 1 then delete ip m else <[ip := current - 1]> m.

(** The head of the server's connection callback: the two checks that end
    the client at once, then [addConnection].  Returns whether the client
    was let in. *)
Definition onClient (ip : string) (now : Z) (g : Guard) : bool * Guard :=
  if getActiveConnections ip (connectionLimits g) >=? MAX_CONNECTIONS_PER_IP
  then (false, g)
  else if isIPBlocked ip now (authAttempts g) then (false, g)
  else (true, mkGuard (addConnection ip (connectionLimits g)) (authAttempts g)).

(** The loop over [authAttempts.entries()] in the cleanup timer: every list
    is cut down to its recent attempts, and a key whose list becomes empty is
    deleted. *)
Definition cleanupAuthAttempts (now : Z) (m : gmap string (list Z))
  : gmap string (list Z) :=
  omap (λ attempts,
          let recent := recentAttempts now attempts in
          if (length recent =? 0)%nat then None else Some recent) m.

(** What happens to the two maps: a client connects, an accepted client
    tries to authenticate, an accepted client disconnects, the cleanup timer
    fires. *)
Inductive GuardEvent : Type :=
| ClientConnects (ip : string) (now : Z)
| ClientAuthenticates (ip : string) (now : Z)
| ClientEnds (ip : string)
| CleanupFires (now : Z).

Definition guardStep (ev : GuardEvent) (g : Guard) : Guard :=
  match ev with
  | ClientConnects ip now => (onClient ip now g).2
  | ClientAuthenticates ip now =>
      mkGuard (connectionLimits g) (recordAuthAttempt ip now (authAttempts g))
  | ClientEnds ip => mkGuard (removeConnection ip (connectionLimits g)) (authAttempts g)
  | CleanupFires now => mkGuard (connectionLimits g) (cleanupAuthAttempts now (authAttempts g))
  end.

(** Both maps start empty. *)
Definition guardRun (events : list GuardEvent) : Guard :=
  foldl (λ g ev, guardStep ev g) (mkGuard ∅ ∅) events.

(** The times at which [ip] tried to authenticate, in order. *)
Definition authTimes (ip : string) (events : list GuardEvent) : list Z :=
  flat_map (λ ev, match ev with
                  | ClientAuthenticates ip' now =>
                      if bool_decide (ip' = ip) then [now] else []
                  | _ => []
                  end) events.

(** The times at which the cleanup timer fired. *)
Definition cleanupTimes (events : list GuardEvent) : list Z :=
  flat_map (λ ev, match ev with CleanupFires now => [now] | _ => [] end) events.

(** Every stored count is between 1 and the cap. *)
Definition countsOk (m : gmap string Z) : Prop :=
  ∀ ip n, m !! ip = Some n → 1 <= n <= MAX_CONNECTIONS_PER_IP.

(** The game a spawn leaves behind, before the collision test: the queued
    type [t] becomes current with its first shape [piece], whose first row
    is [row0], and [drawn] is queued. *)
Definition spawned (t drawn : PieceType) (row0 : list Z) (piece : Shape) (g : Game) : Game :=
  set_currentY 0 (set_currentX ((10 - Z.of_nat (length row0)) / 2)
    (set_currentPiece (Some piece) (set_currentRotation 0
      (set_nextType (Some drawn) (set_currentType (Some t) g))))).

(** What [gameInv] leaves out of a game in play: a piece is queued, and the
    falling piece has not risen above the row it spawned in. *)
Definition queueInv (g : Game) : Prop :=
  inPlay g → is_Some (nextType g) ∧ 0 <= currentY g.

(** The falling piece is the rotation state the rotation index names:
    [currentPiece = PIECES[currentType].shapes[currentRotation]]. *)
Definition rotationInv (g : Game) : Prop :=
  inPlay g →
  ∃ t, currentType g = Some t ∧
       0 <= currentRotation g < Z.of_nat (length (shapes t)) ∧
       currentPiece g = shapes t !! Z.to_nat (currentRotation g).

(** The storage after a step of a session: as before, or updated with the
    final score of the session's player, or without the session's player. *)
Definition ownWrite (iso : string) (st st' : St) : Prop :=
  world st' = world st ∨
  (state (game st') = GAME_OVER ∧
   ∃ rank,
     updateHighScore (player (game st)) (score (game st')) (level (game st'))
       (lines (game st')) iso (world st) = Ok (rank, world st')) ∨
  (state (game st) = ACCOUNT_DELETE ∧
   world st' = deletePlayerAccount (Player.id (player (game st))) (world st)).

(** The score after a step: not smaller, or that of a game just started. *)
Definition scoreKept (g g' : Game) : Prop :=
  score g <= score g' ∨
  (score g' = 0 ∧ state g' = PLAYING ∧ board g' = emptyBoard).

Definition harmless (iso : string) (st st' : St) : Prop :=
  player (game st') = player (game st) ∧
  ownWrite iso st st' ∧
  scoreKept (game st) (game st') ∧
  (queueInv (game st) → queueInv (game st')).

(** The cell in row [r], column [col] is covered by the shape at [(x, y)]. *)
Definition covers (x y : Z) (piece : Shape) (r col : Z) : Prop :=
  ∃ py px, occupiedAt piece py px ∧ r = y + Z.of_nat py ∧ col = x + Z.of_nat px.

(** ... after one more key: the game is paused. *)
Definition pausedSt : St :=
  stOf (step 41 (envAt 10) (Data "p") playingSt) playingSt.

(** ** Export and identity *)

Module ExportData.
Record t : Type := mk {
  playerId : string;
  playerInfo : option PlayerRecord.t;     (* [playerData[playerId]], maybe undefined *)
  highScores : list Entry.t;
  exportDate : string;
  note : string
}.
End ExportData.

(** [getPlayerDataExport(playerId)]; [now] stands for
    [new Date().toISOString()]. *)
Definition getPlayerDataExport (pid : string) (now : string) (w : World) : ExportData.t :=
  let player := playerData w !! pid in
  let scores := List.filter (isPlayer pid) (highScores w) in
  ExportData.mk pid player scores now "Complete export of your game data and statistics.".

Section Identity.

(** What [getPlayerIdentity] takes from the libraries: the hexadecimal
    SHA-256 digest, and the first capture group of its two regular
    expressions when they match. *)
Variable sha256hex : string → string.
Variable userIdMatch : string → option string.
Variable emailMatch : string → option string.

(** The body of the [try] block of [getPlayerIdentity(publicKey)], from
    [keyData = publicKey.toString()] on; [now] stands for
    [new Date().toISOString()]. *)
Definition getPlayerIdentity (keyData : string) (now : string) (w : World)
  : Player.t * World :=
  let hash := sha256hex keyData in
  let fingerprint := String.substring 0 16 hash in
  let playerName :=
    match userIdMatch keyData with
    | Some userId => userId
    | None =>
        match emailMatch keyData with
        | Some email => email
        | None => fingerprint
        end
    end in
  let pd1 :=
    match playerData w !! fingerprint with
    | Some _ => playerData w
    | None =>
        <[fingerprint := PlayerRecord.mk playerName fingerprint now now (Some [])]>
          (playerData w)
    end in
  let pd2 :=
    match pd1 !! fingerprint with
    | Some rec =>
        <[fingerprint :=
            PlayerRecord.mk playerName (PlayerRecord.fingerprint rec)
              (PlayerRecord.firstSeen rec) now (PlayerRecord.scores rec)]> pd1
    | None => pd1
    end in
  (Player.mk fingerprint playerName fingerprint, mkWorld (highScores w) pd2).

End Identity.

(** ** The daily cleanup of the storage *)

Section Cleanup.

(** [new Date(s).getTime()]; [None] stands for [NaN], the time of an
    invalid date. *)
Variable getTime : string → option Z.

Definition NINETY_DAYS : Z := 90 * 24 * 60 * 60 * 1000.

(** [now - new Date(data.lastSeen || 0).getTime() > 90 * 24 * 60 * 60 * 1000];
    the empty string is falsy, and a comparison with [NaN] is false. *)
Definition inactive (now : Z) (data : PlayerRecord.t) : bool :=
  let lastActivity :=
    if bool_decide (PlayerRecord.lastSeen data = EmptyString) then Some 0
    else getTime (PlayerRecord.lastSeen data) in
  match lastActivity with
  | Some t => now - t >? NINETY_DAYS
  | None => false
  end.

(** One turn of the loop over [Object.entries(playerData)]. *)
Definition cleanupPlayer (now : Z) (w : World) (entry : string * PlayerRecord.t) : World :=
  let '(playerId, data) := entry in
  if inactive now data then
    mkWorld (List.filter (λ e, negb (isPlayer playerId e)) (highScores w))
            (delete playerId (playerData w))
  else w.

(** The loop; [entries] is the array [Object.entries(playerData)] taken
    before the first turn. *)
Definition cleanupPlayers (now : Z) (entries : list (string * PlayerRecord.t)) (w : World)
  : World :=
  foldl (cleanupPlayer now) w entries.

(** [if (highScores.length > MAX_HIGHSCORE_ENTRIES) highScores = highScores.slice(...)] *)
Definition limitHighScores (w : World) : World :=
  if Z.of_nat (length (highScores w)) >? MAX_HIGHSCORE_ENTRIES
  then mkWorld (slice0 MAX_HIGHSCORE_ENTRIES (highScores w)) (playerData w)
  else w.

(** What the cleanup timer does to the storage. *)
Definition cleanupData (now : Z) (entries : list (string * PlayerRecord.t)) (w : World)
  : World :=
  limitHighScores (cleanupPlayers now entries w).

(** The entries that pass the cleanup at time [now]: those of players
    without a record, and of players whose record is not inactive. *)
Definition survives (now : Z) (w : World) (e : Entry.t) : bool :=
  match playerData w !! Entry.playerId e with
  | Some data => negb (inactive now data)
  | None => true
  end.

(** Some entry of the list is for [pid] and is inactive. *)
Definition expires (now : Z) (entries : list (string * PlayerRecord.t)) (pid : string) : bool :=
  existsb (λ entry, bool_decide (pid = entry.1) && inactive now entry.2) entries.

End Cleanup.

(** A clock for the samples: every date string reads as the same instant. *)
Definition sampleTime (s : string) : option Z := Some 1000.

(* ================================================================== *)
(** * Properties *)

(** ** The leaderboard store *)

Section Leaderboard.

Implicit Types (hs l : list Entry.t) (e x : Entry.t) (pid : string).

Lemma findIndexFrom_spec {A : Type} (p : A → bool) (l : list A) (i : Z) :
  (findIndexFrom p i l = -1 ∧ i >= 0 → Forall (λ a, p a = false) l) ∧
  (0 <= i → findIndexFrom p i l = -1 ∨ i <= findIndexFrom p i l < i + Z.of_nat (length l)).
Proof.
  revert i; induction l as [|a l IH]; intros i; simpl.
  - split; [constructor | intros; left; reflexivity].
  - destruct (p a) eqn:Hp.
    + split; [lia | intros; right; lia].
    + destruct (IH (i + 1)) as [IH1 IH2]. split.
      * intros [H1 H2]. constructor; [assumption | apply IH1; lia].
      * intros Hi. destruct IH2 as [IH2 | IH2]; [lia | now left | right; lia].
Qed.

Lemma findIndex_none {A : Type} (p : A → bool) (l : list A) :
  findIndex p l < 0 → Forall (λ a, p a = false) l.
Proof.
  unfold findIndex. intros H.
  destruct (findIndexFrom_spec p l 0) as [H1 H2].
  destruct H2 as [H2 | H2]; [lia | | lia].
  apply H1. lia.
Qed.

Lemma findIndexFrom_shift {A : Type} (p : A → bool) (l : list A) (i : Z) :
  0 <= findIndexFrom p 0 l →
  findIndexFrom p i l = i + findIndexFrom p 0 l.
Proof.
  revert i. induction l as [|a l IH]; intros i; simpl; [lia|].
  destruct (p a); [lia|].
  intros H.
  destruct (Z.eq_dec (findIndexFrom p 0 l) (-1)) as [E|E].
  - exfalso. destruct (findIndexFrom_spec p l 1) as [_ H2].
    destruct (findIndexFrom_spec p l 0) as [H1 _].
    assert (HF : Forall (λ a, p a = false) l) by (apply H1; lia).
    clear -HF H. revert H. generalize 1. induction HF; simpl; intros z Hz; [lia|].
    rewrite H in Hz. eauto.
  - assert (0 <= findIndexFrom p 0 l).
    { destruct (findIndexFrom_spec p l 0) as [_ H2]. destruct H2; lia. }
    rewrite (IH (i + 1)), (IH (0 + 1)); lia.
Qed.

Lemma findIndex_some {A : Type} (p : A → bool) (l : list A) :
  0 <= findIndex p l →
  ∃ a, l !! Z.to_nat (findIndex p l) = Some a ∧ p a = true ∧
       Forall (λ b, p b = false) (take (Z.to_nat (findIndex p l)) l).
Proof.
  unfold findIndex. induction l as [|a l IH]; simpl; [lia|].
  destruct (p a) eqn:Hp.
  - intros _. exists a. simpl. repeat split; [assumption | constructor].
  - intros H.
    assert (H0 : 0 <= findIndexFrom p 0 l).
    { destruct (Z_lt_le_dec (findIndexFrom p 0 l) 0) as [Hlt|]; [|assumption].
      exfalso. pose proof (findIndex_none p l Hlt) as HF.
      clear -HF H. revert H. generalize (0 + 1). induction HF; simpl; intros z Hz; [lia|].
      rewrite H in Hz. eauto. }
    rewrite (findIndexFrom_shift p l (0 + 1) H0).
    destruct (IH H0) as (b & Hb & Hpb & Hall).
    replace (Z.to_nat (0 + 1 + findIndexFrom p 0 l)) with (S (Z.to_nat (findIndexFrom p 0 l))) by lia.
    exists b. simpl. repeat split; [assumption.. | constructor; assumption].
Qed.

Lemma insertByScore_perm x l : Permutation (insertByScore x l) (x :: l).
Proof.
  induction l as [|y l IH]; simpl; [reflexivity|].
  destruct (Entry.score y - Entry.score x >? 0); [|reflexivity].
  rewrite IH. apply perm_swap.
Qed.

Lemma sortByScore_perm l : Permutation (sortByScore l) l.
Proof.
  induction l as [|x l IH]; simpl; [reflexivity|].
  rewrite insertByScore_perm. now constructor.
Qed.

Lemma insertByScore_sorted x l : sortedDesc l → sortedDesc (insertByScore x l).
Proof.
  unfold sortedDesc. induction 1 as [|y l Hs IH Hall]; simpl.
  - repeat constructor.
  - destruct (Entry.score y - Entry.score x >? 0) eqn:Hc.
    + constructor; [assumption|].
      rewrite (Forall_forall _ (insertByScore x l)). intros z Hz.
      rewrite insertByScore_perm in Hz.
      apply elem_of_cons in Hz as [-> | Hz]; [lia|].
      rewrite Forall_forall in Hall. now apply Hall.
    + constructor; [now constructor|].
      constructor; [lia|].
      eapply Forall_impl; [exact Hall|]. simpl. intros; lia.
Qed.

Lemma sortByScore_sorted l : sortedDesc (sortByScore l).
Proof.
  induction l as [|x l IH]; simpl; [constructor | now apply insertByScore_sorted].
Qed.

(** Sorting never reorders two entries of equal score. *)
Lemma insertByScore_stable s x l :
  withScore s (insertByScore x l) = withScore s (x :: l).
Proof.
  unfold withScore. induction l as [|y l IH]; simpl; [reflexivity|].
  destruct (Entry.score y - Entry.score x >? 0) eqn:Hc; [|reflexivity].
  simpl. rewrite IH. simpl.
  destruct (Entry.score x =? s) eqn:Hx, (Entry.score y =? s) eqn:Hy; try reflexivity.
  lia.
Qed.

Lemma sortByScore_stable s l : withScore s (sortByScore l) = withScore s l.
Proof.
  induction l as [|x l IH]; simpl; [reflexivity|].
  rewrite insertByScore_stable. unfold withScore in *. simpl. now rewrite IH.
Qed.

(** A list that is already in order is left as it is. *)
Lemma sortByScore_id l : sortedDesc l → sortByScore l = l.
Proof.
  induction 1 as [|x l Hs IH Hall]; simpl; [reflexivity|].
  rewrite IH. destruct Hall as [|y l Hy _]; simpl; [reflexivity|].
  destruct (Entry.score y - Entry.score x >? 0) eqn:Hc; [lia | reflexivity].
Qed.

Lemma sortedDesc_take n l : sortedDesc l → sortedDesc (take n l).
Proof.
  unfold sortedDesc. intros H. revert n.
  induction H as [|x l Hs IH Hall]; intros [|n]; simpl; try constructor.
  - apply IH.
  - now apply Forall_take.
Qed.

Lemma ids_filter_sublist (f : Entry.t → bool) l :
  ids (List.filter f l) `sublist_of` ids l.
Proof.
  unfold ids. induction l as [|x l IH]; simpl; [constructor|].
  destruct (f x); simpl; now constructor.
Qed.

Lemma isPlayer_true pid e : isPlayer pid e = true ↔ Entry.playerId e = pid.
Proof. unfold isPlayer. apply bool_decide_eq_true. Qed.

Lemma isPlayer_false pid e : isPlayer pid e = false ↔ Entry.playerId e ≠ pid.
Proof. unfold isPlayer. apply bool_decide_eq_false. Qed.

Lemma updateHighScore_unfold p sc lv ln now w rank w' :
  updateHighScore p sc lv ln now w = Ok (rank, w') →
  highScores w' =
    slice0 (Z.min 50 MAX_HIGHSCORE_ENTRIES)
      (sortByScore (upserted p (Entry.mk (Player.id p) (Player.name p) sc lv ln now) (highScores w))) ∧
  rank = findIndex (isPlayer (Player.id p)) (highScores w') + 1.
Proof.
  unfold updateHighScore, upserted.
  destruct (playerData w !! Player.id p) as [rec|]; [|discriminate].
  simpl.
  destruct (findIndex (isPlayer (Player.id p)) (highScores w) >=? 0) eqn:Hi.
  - destruct (highScores w !! Z.to_nat _) as [old|] eqn:Hold; [|discriminate].
    destruct (sc >? Entry.score old); intros [= <- <-]; simpl; auto.
  - intros [= <- <-]; simpl; auto.
Qed.

Lemma upserted_NoDup p e hs :
  Entry.playerId e = Player.id p →
  NoDup (ids hs) → NoDup (ids (upserted p e hs)).
Proof.
  intros He Hnd. unfold upserted.
  destruct (findIndex (isPlayer (Player.id p)) hs >=? 0) eqn:Hi.
  - destruct (findIndex_some (isPlayer (Player.id p)) hs) as (old & Hold & Hp & _); [lia|].
    rewrite Hold. destruct (Entry.score e >? Entry.score old); [|assumption].
    unfold ids. rewrite list_fmap_insert, list_insert_id; [assumption|].
    rewrite list_lookup_fmap, Hold. simpl. f_equal.
    apply isPlayer_true in Hp. congruence.
  - pose proof (findIndex_none (isPlayer (Player.id p)) hs ltac:(lia)) as Hall.
    unfold ids. rewrite fmap_app. apply NoDup_app. split; [assumption|]. split.
    + intros pid Hin Hin'. simpl in Hin'. apply list_elem_of_singleton in Hin'. subst pid.
      apply list_elem_of_fmap in Hin as (x & Hx & Hxin).
      rewrite Forall_forall in Hall. specialize (Hall x Hxin).
      apply isPlayer_false in Hall. congruence.
    + simpl. apply NoDup_singleton.
Qed.

(** One entry per player, best score first, and no more than fifty: the
    part of the leaderboard's contract that [updateHighScore] keeps. *)
Lemma updateHighScore_keeps p sc lv ln now w rank w' :
  NoDup (ids (highScores w)) →
  updateHighScore p sc lv ln now w = Ok (rank, w') →
  NoDup (ids (highScores w')) ∧ sortedDesc (highScores w') ∧
  (length (highScores w') <= 50)%nat.
Proof.
  intros Hnd Hup. apply updateHighScore_unfold in Hup as [-> _].
  unfold slice0. split; [|split].
  - unfold ids. rewrite fmap_take.
    eapply sublist_NoDup; [|apply sublist_take].
    rewrite sortByScore_perm. now apply upserted_NoDup.
  - apply sortedDesc_take, sortByScore_sorted.
  - rewrite length_take. change (Z.to_nat (Z.min 50 MAX_HIGHSCORE_ENTRIES)) with 50%nat. lia.
Qed.

Lemma lb_reachable_keeps w :
  lb_reachable w →
  NoDup (ids (highScores w)) ∧ sortedDesc (highScores w) ∧
  (length (highScores w) <= 50)%nat.
Proof.
  induction 1 as [pd | w w' p sc lv ln rank now Hr IH Hup | w pid Hr IH | w pd Hr IH]; simpl.
  - repeat split; [constructor | constructor | lia].
  - eapply updateHighScore_keeps; [apply IH | exact Hup].
  - destruct IH as (Hnd & Hs & Hlen). repeat split.
    + eapply sublist_NoDup; [eassumption | apply ids_filter_sublist].
    + clear -Hs. unfold sortedDesc in *. induction Hs as [|x l Hs IH Hall]; simpl; [constructor|].
      destruct (negb (isPlayer pid x)); [|assumption].
      constructor; [assumption|].
      clear -Hall. induction Hall as [|y l Hy Hall IH]; simpl; [constructor|].
      destruct (negb (isPlayer pid y)); [constructor|]; assumption.
    + pose proof (List.filter_length_le (λ e, negb (isPlayer pid e)) (highScores w)). lia.
  - exact IH.
Qed.

Lemma findIndexFrom_all_false {A : Type} (p : A → bool) (l : list A) (i : Z) :
  Forall (λ a, p a = false) l → findIndexFrom p i l = -1.
Proof.
  intros H. revert i. induction H as [|a l Ha _ IH]; intros i; simpl; [reflexivity|].
  rewrite Ha. apply IH.
Qed.

Lemma find_findIndex {A : Type} (p : A → bool) (l : list A) :
  match List.find p l with
  | Some a => 0 <= findIndex p l ∧ l !! Z.to_nat (findIndex p l) = Some a
  | None => findIndex p l = -1
  end.
Proof.
  unfold findIndex. induction l as [|a l IH]; simpl; [reflexivity|].
  destruct (p a) eqn:Hp; [split; [lia | reflexivity]|].
  destruct (List.find p l) as [b|].
  - destruct IH as [H0 Hb]. rewrite (findIndexFrom_shift p l (0 + 1) H0).
    split; [lia|].
    replace (Z.to_nat (0 + 1 + findIndexFrom p 0 l)) with (S (Z.to_nat (findIndexFrom p 0 l))) by lia.
    exact Hb.
  - apply findIndexFrom_all_false.
    destruct (findIndexFrom_spec p l 0) as [H1 _]. apply H1. lia.
Qed.

Lemma find_some_of_id pid l :
  pid ∈ ids l → ∃ old, List.find (isPlayer pid) l = Some old.
Proof.
  unfold ids. induction l as [|x l IH]; simpl; intros Hin.
  - apply elem_of_nil in Hin as [].
  - destruct (isPlayer pid x) eqn:Hx; [eauto|].
    apply elem_of_cons in Hin as [-> | Hin]; [|auto].
    apply isPlayer_false in Hx. congruence.
Qed.

(** C6, the mechanism: with an entry that is not beaten, the list is the
    one that was there. *)
Lemma updateHighScore_not_better p sc lv ln now w :
  sortedDesc (highScores w) → (length (highScores w) <= 50)%nat →
  Player.id p ∈ ids (highScores w) →
  sc <= getPlayerBestScore (Player.id p) w →
  is_Some (playerData w !! Player.id p) →
  ∃ rank w', updateHighScore p sc lv ln now w = Ok (rank, w') ∧
             highScores w' = highScores w.
Proof.
  intros Hs Hlen Hin Hsc [rec Hrec].
  destruct (find_some_of_id _ _ Hin) as [old Hold].
  unfold getPlayerBestScore in Hsc. rewrite Hold in Hsc.
  pose proof (find_findIndex (isPlayer (Player.id p)) (highScores w)) as Hfi.
  rewrite Hold in Hfi. destruct Hfi as [Hi Hlk].
  unfold updateHighScore. rewrite Hrec. simpl.
  destruct (findIndex (isPlayer (Player.id p)) (highScores w) >=? 0) eqn:Hge; [|lia].
  rewrite Hlk. destruct (sc >? Entry.score old) eqn:Hgt; [lia|].
  eexists _, _. split; [reflexivity|]. simpl.
  rewrite (sortByScore_id _ Hs). unfold slice0. apply take_ge.
  change (Z.to_nat (Z.min 50 MAX_HIGHSCORE_ENTRIES)) with 50%nat. lia.
Qed.

End Leaderboard.

(** C6.  Idempotence of the leaderboard upsert: on every leaderboard the
    server can hold, when the finishing player already has an entry and the
    new score does not exceed that player's best, [updateHighScore] returns
    and leaves the entries of the leaderboard and their order as they
    were. *)
Theorem updateHighScore_idempotent (p : Player.t) (sc lv ln : Z) (now : string) (w : World) :
  lb_reachable w →
  Player.id p ∈ ids (highScores w) →
  sc <= getPlayerBestScore (Player.id p) w →
  is_Some (playerData w !! Player.id p) →
  ∃ rank w', updateHighScore p sc lv ln now w = Ok (rank, w') ∧
             highScores w' = highScores w.
Proof.
  intros Hr. destruct (lb_reachable_keeps w Hr) as (_ & Hs & Hlen).
  now apply updateHighScore_not_better.
Qed.

Lemma playAll_reachable (games : list (Player.t * Z)) (now : string) (w : World) :
  lb_reachable w → isOk (playAll games now w) = true →
  lb_reachable (worldOf (playAll games now w)).
Proof.
  revert w. induction games as [|[p sc] rest IH]; simpl; intros w Hr.
  - intros _. exact Hr.
  - destruct (updateHighScore p sc 1 0 now w) as [[rank w1]|e] eqn:Hup; [|discriminate].
    apply IH. eapply lb_update; eassumption.
Qed.

Lemma updateHighScore_returns p sc lv ln now w :
  is_Some (playerData w !! Player.id p) →
  ∃ rank w', updateHighScore p sc lv ln now w = Ok (rank, w').
Proof.
  intros [rec Hrec]. unfold updateHighScore. rewrite Hrec. simpl.
  destruct (findIndex (isPlayer (Player.id p)) (highScores w) >=? 0) eqn:Hi; [|eauto].
  destruct (findIndex_some (isPlayer (Player.id p)) (highScores w)) as (old & Hold & _); [lia|].
  rewrite Hold. destruct (sc >? Entry.score old); eauto.
Qed.

Lemma updateHighScore_idempotent_witness :
  ∃ rank w', updateHighScore (nthPlayer 0) 300 1 0 someDate oneWorld = Ok (rank, w') ∧
             highScores w' = highScores oneWorld.
Proof.
  apply updateHighScore_idempotent.
  - apply playAll_reachable; [apply lb_empty | vm_compute; reflexivity].
  - apply (bool_decide_unpack _). vm_compute. exact I.
  - vm_compute. discriminate.
  - apply (bool_decide_unpack _). vm_compute. exact I.
Defined.

(** C1, evaluated.  Fifty players are on the board (a board the server
    reaches by fifty finished games); a fifty-first player finishes with the
    best score.  [updateHighScore] ranks the newcomer first and cuts the
    list back to fifty entries: the player who was last is dropped although
    only fifty-one entries, far fewer than [MAX_HIGHSCORE_ENTRIES], would
    remain. *)
Theorem updateHighScore_cuts_at_fifty :
  lb_reachable fiftyWorld ∧
  length (highScores fiftyWorld) = 50%nat ∧
  Player.id (nthPlayer 49) ∈ ids (highScores fiftyWorld) ∧
  ∃ w', updateHighScore (nthPlayer 50) 2000 1 0 someDate fiftyWorld = Ok (1, w') ∧
        (length (highScores w') = 50%nat) ∧
        (Player.id (nthPlayer 49) ∉ ids (highScores w')) ∧
        (51 <= MAX_HIGHSCORE_ENTRIES).
Proof.
  split; [|split; [|split]].
  - apply playAll_reachable; [apply lb_empty | vm_compute; reflexivity].
  - vm_compute. reflexivity.
  - apply (bool_decide_unpack _). vm_compute. exact I.
  - destruct (updateHighScore_returns (nthPlayer 50) 2000 1 0 someDate fiftyWorld)
      as (rank & w' & Hup).
    { apply (bool_decide_unpack _). vm_compute. exact I. }
    destruct (updateHighScore_unfold _ _ _ _ _ _ _ _ Hup) as [Hhs Hrank].
    assert (rank = 1) as ->.
    { rewrite Hrank, Hhs. vm_compute. reflexivity. }
    exists w'. split; [exact Hup|]. rewrite Hhs.
    split; [vm_compute; reflexivity|].
    split; [apply (bool_decide_unpack _); vm_compute; exact I|].
    unfold MAX_HIGHSCORE_ENTRIES. lia.
Qed.

(** ** The board: collision *)

Section Collision.

Implicit Types (b : Board) (piece : Shape) (cells : list (nat * nat)).

Lemma rowCells_spec py px0 (row : list Z) (a c : nat) :
  (a, c) ∈ rowCells py px0 row ↔
  a = py ∧ ∃ k v, c = (px0 + k)%nat ∧ row !! k = Some v ∧ v ≠ 0.
Proof.
  revert px0. induction row as [|v row IH]; intros px0; simpl.
  - split; [intros H; apply elem_of_nil in H as [] | intros (_ & k & w & _ & H & _); discriminate].
  - rewrite elem_of_app, IH. unfold truthy. split.
    + intros [H | (-> & k & w & -> & Hk & Hw)].
      * destruct (Z.eqb_spec v 0) as [|Hv]; simpl in H.
        { apply elem_of_nil in H as []. }
        apply list_elem_of_singleton in H. injection H as -> ->.
        split; [reflexivity|]. exists 0%nat, v. repeat split; [lia | assumption].
      * split; [reflexivity|]. exists (S k), w. repeat split; [lia | assumption..].
    + intros (-> & [|k] & w & -> & Hk & Hw); simpl in Hk.
      * injection Hk as ->. left. destruct (Z.eqb_spec w 0); [contradiction|]. simpl.
        apply list_elem_of_singleton. f_equal. lia.
      * right. split; [reflexivity|]. exists k, w. repeat split; [lia | assumption..].
Qed.

Lemma occupiedFrom_spec py0 piece (a c : nat) :
  (a, c) ∈ occupiedFrom py0 piece ↔
  ∃ j, a = (py0 + j)%nat ∧ occupiedAt piece j c.
Proof.
  revert py0. induction piece as [|row rest IH]; intros py0; simpl.
  - split; [intros H; apply elem_of_nil in H as [] | intros (j & _ & r & v & H & _); discriminate].
  - rewrite elem_of_app, rowCells_spec, IH. unfold occupiedAt. split.
    + intros [(-> & k & v & -> & Hk & Hv) | (j & -> & r & v & Hj & Hk & Hv)].
      * exists 0%nat. split; [lia|]. exists row, v. simpl. auto.
      * exists (S j). split; [lia|]. exists r, v. simpl. auto.
    + intros ([|j] & -> & r & v & Hj & Hk & Hv); simpl in Hj.
      * injection Hj as ->. left. split; [lia|]. exists c, v. auto.
      * right. exists j. split; [lia|]. exists r, v. auto.
Qed.

Lemma occupied_spec piece (py px : nat) :
  (py, px) ∈ occupied piece ↔ occupiedAt piece py px.
Proof.
  unfold occupied. rewrite occupiedFrom_spec. split.
  - intros (j & -> & H). exact H.
  - intros H. exists py. auto.
Qed.

(** Reading a cell inside a well-formed board always finds one. *)
Lemma board_wf_lookup b (y x : Z) :
  board_wf b → 0 <= y < 20 → 0 <= x < 10 →
  ∃ row c, b !! Z.to_nat y = Some row ∧ row !! Z.to_nat x = Some c ∧
           boardCell b y x = c ∧ length row = 10%nat.
Proof.
  intros [Hlen Hrows] Hy Hx.
  destruct (lookup_lt_is_Some_2 b (Z.to_nat y)) as [row Hrow]; [lia|].
  assert (Hr : length row = 10%nat).
  { rewrite Forall_forall in Hrows. apply Hrows. eapply list_elem_of_lookup_2, Hrow. }
  destruct (lookup_lt_is_Some_2 row (Z.to_nat x)) as [c Hc]; [lia|].
  exists row, c. unfold boardCell.
  destruct (Z.leb_spec 0 y), (Z.leb_spec 0 x); try lia. simpl.
  rewrite Hrow, Hc. auto.
Qed.

Lemma collideCells_spec b (x y : Z) cells :
  board_wf b →
  ∃ r, collideCells b x y cells = Ok r ∧
       (r = true ↔ ∃ cell, cell ∈ cells ∧ cellHits b x y cell).
Proof.
  intros Hwf. induction cells as [|[py px] rest IH]; simpl.
  - exists false. split; [reflexivity|]. split; [discriminate|].
    intros (cell & H & _). apply elem_of_nil in H as [].
  - destruct IH as (r & Hr & Hiff).
    assert (Hrest : ∀ r', (r' = true ↔ cellHits b x y (py, px) ∨ r = true) →
              (r' = true ↔ ∃ cell, cell ∈ (py, px) :: rest ∧ cellHits b x y cell)).
    { intros r' Hr'. rewrite Hr', Hiff. split.
      - intros [H | (cell & Hin & H)]; [exists (py, px) | exists cell];
          (split; [|exact H]); [left | now right].
      - intros (cell & Hin & H). apply elem_of_cons in Hin as [-> | Hin]; [now left|].
        right. eauto. }
    unfold cellHits in Hrest at 1. simpl in Hrest.
    destruct (Z.ltb_spec (x + Z.of_nat px) 0); simpl.
    { exists true. split; [reflexivity|]. apply Hrest. split; auto. }
    destruct (Z.geb_spec (x + Z.of_nat px) 10); simpl.
    { exists true. split; [reflexivity|]. apply Hrest. split; auto. intros _. left. left. right. lia. }
    destruct (Z.geb_spec (y + Z.of_nat py) 20); simpl.
    { exists true. split; [reflexivity|]. apply Hrest. split; auto. intros _. left. right. left. lia. }
    destruct (Z.geb_spec (y + Z.of_nat py) 0); simpl.
    + destruct (board_wf_lookup b (y + Z.of_nat py) (x + Z.of_nat px) Hwf)
        as (row & c & Hrow & Hc & Hcell & _); [lia..|].
      rewrite Hrow, Hc. destruct c as [t|].
      * exists true. split; [reflexivity|]. apply Hrest. split; auto.
        intros _. left. right. right. split; [lia|]. rewrite Hcell. discriminate.
      * exists r. split; [exact Hr|]. apply Hrest. split; auto.
        intros [[[?|?] | [? | [_ Hne]]] | ?]; try lia; [|assumption].
        rewrite Hcell in Hne. contradiction.
    + exists r. split; [exact Hr|]. apply Hrest. split; auto.
      intros [[[?|?] | [? | [? _]]] | ?]; try lia. assumption.
Qed.

End Collision.

(** C4.  On every board (twenty rows of ten cells), for every origin and
    every shape matrix, [checkCollision] returns, and it returns [true]
    exactly when some occupied cell of the shape maps to a column outside
    [0,10), or to a row of 20 or more, or to a row from 0 on whose board
    cell is not empty.  Cells that map above row 0 are tested against the
    column bounds only: when every occupied cell maps above row 0 the
    verdict is the same on every board, namely whether some cell leaves the
    columns. *)
Theorem checkCollision_iff (b : Board) (x y : Z) (piece : Shape) :
  board_wf b →
  ∃ r, checkCollision b x y (Some piece) = Ok r ∧
       (r = true ↔ hits b x y piece) ∧
       ((∀ py px, occupiedAt piece py px → y + Z.of_nat py < 0) →
        (r = true ↔ leavesColumns x piece) ∧
        ∀ b', board_wf b' → checkCollision b' x y (Some piece) = Ok r).
Proof.
  assert (Hhits : ∀ b0, (∃ cell, cell ∈ occupied piece ∧ cellHits b0 x y cell) ↔ hits b0 x y piece).
  { intros b0. unfold hits, cellHits. split.
    - intros ([py px] & Hin & H). apply occupied_spec in Hin. exists py, px. auto.
    - intros (py & px & Hocc & H). exists (py, px). split; [now apply occupied_spec | exact H]. }
  assert (Habove : (∀ py px, occupiedAt piece py px → y + Z.of_nat py < 0) →
            ∀ b0, hits b0 x y piece ↔ leavesColumns x piece).
  { intros Hab b0. unfold hits, leavesColumns. split.
    - intros (py & px & Hocc & H). exists py, px. split; [assumption|].
      specialize (Hab py px Hocc). simpl in H. destruct H as [H | [H | [H _]]]; [exact H | lia..].
    - intros (py & px & Hocc & H). exists py, px. split; [assumption|]. simpl. now left. }
  intros Hwf. simpl.
  destruct (collideCells_spec b x y (occupied piece) Hwf) as (r & Hr & Hiff).
  exists r. split; [exact Hr|]. rewrite Hhits in Hiff. split; [exact Hiff|].
  intros Hab. split.
  - now rewrite Hiff, (Habove Hab).
  - intros b' Hwf'.
    destruct (collideCells_spec b' x y (occupied piece) Hwf') as (r' & Hr' & Hiff').
    rewrite Hr'. f_equal. rewrite Hhits, (Habove Hab) in Hiff'.
    rewrite (Habove Hab) in Hiff.
    destruct r, r'; try reflexivity.
    + apply (proj2 Hiff'), (proj1 Hiff). reflexivity.
    + symmetry. apply (proj2 Hiff), (proj1 Hiff'). reflexivity.
Qed.

Lemma checkCollision_iff_witness :
  ∃ r, checkCollision emptyBoard 3 0 (Some [[0;1;0];[1;1;1]]) = Ok r ∧
       (r = true ↔ hits emptyBoard 3 0 [[0;1;0];[1;1;1]]) ∧
       ((∀ py px, occupiedAt [[0;1;0];[1;1;1]] py px → 0 + Z.of_nat py < 0) →
        (r = true ↔ leavesColumns 3 [[0;1;0];[1;1;1]]) ∧
        ∀ b', board_wf b' → checkCollision b' 3 0 (Some [[0;1;0];[1;1;1]]) = Ok r).
Proof.
  apply checkCollision_iff.
  split; [reflexivity | repeat constructor].
Defined.

(** ** The board: clearing lines *)

Section ClearLines.

Implicit Types (b pre suf : Board) (row : list Cell).

Lemma emptyRow_not_full : rowFull emptyRow = false.
Proof. reflexivity. Qed.

Lemma countFull_app pre suf : countFull (pre ++ suf) = (countFull pre + countFull suf)%nat.
Proof. unfold countFull. now rewrite List.filter_app, length_app. Qed.

Lemma countFull_cons row b :
  countFull (row :: b) = ((if rowFull row then 1 else 0) + countFull b)%nat.
Proof. unfold countFull. simpl. now destruct (rowFull row). Qed.

(** The loop, started at the last row of [pre] with the rows [suf] below
    already examined: the full rows of [pre] go, as many empty rows arrive on
    top, everything else stays in order.  It takes one step per row and one
    more per full row, and a last one to leave. *)
Lemma clearLinesLoop_exact (fuel : nat) pre suf (c : Z) :
  clearLinesLoop fuel (Z.of_nat (length pre) - 1) (pre ++ suf) c =
    if bool_decide (length pre + countFull pre < fuel)%nat then
      Ok (replicate (countFull pre) emptyRow
            ++ List.filter (λ r, negb (rowFull r)) pre ++ suf,
          c + Z.of_nat (countFull pre))
    else Err OutOfFuel.
Proof.
  revert pre suf c. induction fuel as [|fuel IH]; intros pre suf c.
  { rewrite bool_decide_eq_false_2 by lia. reflexivity. }
  destruct pre as [|row pre' _] using rev_ind.
  - rewrite bool_decide_eq_true_2 by (unfold countFull; simpl; lia).
    unfold countFull. simpl. now rewrite Z.add_0_r.
  - rewrite length_app in *. simpl length in *.
    rewrite countFull_app, countFull_cons in *. change (countFull []) with 0%nat in *.
    cbn [clearLinesLoop].
    destruct (Z.geb_spec (Z.of_nat (length pre' + 1) - 1) 0) as [_|]; [|lia].
    replace (Z.to_nat (Z.of_nat (length pre' + 1) - 1)) with (length pre') by lia.
    rewrite <- app_assoc. simpl.
    rewrite (list_lookup_middle pre' suf row (length pre') eq_refl).
    rewrite List.filter_app. simpl.
    destruct (rowFull row) eqn:Hfull; simpl.
    + rewrite (delete_middle pre' suf row).
      replace (Z.of_nat (length pre' + 1) - 1 + 1 - 1)
        with (Z.of_nat (length (emptyRow :: pre')) - 1) by (simpl; lia).
      rewrite (app_comm_cons pre' suf emptyRow).
      rewrite IH. rewrite countFull_cons, emptyRow_not_full. simpl.
      repeat case_bool_decide; try lia; [|reflexivity].
      rewrite app_nil_r.
      replace (countFull pre' + 1)%nat with (S (countFull pre')) by lia.
      rewrite replicate_S_end, <- app_assoc. simpl.
      f_equal. f_equal. lia.
    + replace (Z.of_nat (length pre' + 1) - 1 - 1) with (Z.of_nat (length pre') - 1) by lia.
      rewrite IH.
      repeat case_bool_decide; try lia; [|reflexivity].
      rewrite <- !app_assoc. simpl. rewrite Nat.add_0_r. reflexivity.
Qed.

Lemma countFull_le_length b : (countFull b <= length b)%nat.
Proof. unfold countFull. apply List.filter_length_le. Qed.

Lemma length_filter_notFull b :
  (length (List.filter (λ r, negb (rowFull r)) b) + countFull b = length b)%nat.
Proof.
  unfold countFull. induction b as [|r b IH]; simpl; [reflexivity|].
  destruct (rowFull r); simpl; lia.
Qed.

Lemma clearLinesLoop_board (fuel : nat) b :
  length b = 20%nat →
  clearLinesLoop fuel 19 b 0 =
    if bool_decide (20 + countFull b < fuel)%nat
    then Ok (cleared b, Z.of_nat (countFull b)) else Err OutOfFuel.
Proof.
  intros Hlen. pose proof (clearLinesLoop_exact fuel b [] 0) as H.
  rewrite Hlen, !app_nil_r in H. exact H.
Qed.

Lemma cleared_wf b : board_wf b → board_wf (cleared b).
Proof.
  intros [Hlen Hrows]. unfold cleared. split.
  - rewrite length_app, length_replicate.
    pose proof (length_filter_notFull b). lia.
  - apply Forall_app. split.
    + apply Forall_replicate. reflexivity.
    + rewrite Forall_forall in *. intros r Hr. apply Hrows.
      apply list_elem_of_In in Hr. apply List.filter_In in Hr as [Hr _].
      now apply list_elem_of_In.
Qed.

Lemma cleared_noFullRow b : noFullRow (cleared b).
Proof.
  unfold noFullRow, cleared. apply Forall_app. split.
  - apply Forall_replicate. reflexivity.
  - rewrite Forall_forall. intros r Hr.
    apply list_elem_of_In in Hr. apply List.filter_In in Hr as [_ Hr].
    now destruct (rowFull r).
Qed.

End ClearLines.

(** ** The board: placing a piece *)

Section Placement.

Implicit Types (b : Board) (row : list Cell) (cells : list (nat * nat)).

Lemma countFull_insert b (i : nat) row :
  (countFull (<[i := row]> b) <= countFull b + 1)%nat.
Proof.
  revert i. induction b as [|r b IH]; intros i; [destruct i; unfold countFull; simpl; lia|].
  destruct i as [|i]; simpl.
  - rewrite !countFull_cons. destruct (rowFull row), (rowFull r); lia.
  - rewrite !countFull_cons. specialize (IH i). lia.
Qed.

Lemma writeCell_wf b (y x : Z) (c : Cell) b' :
  writeCell b y x c = Ok b' → board_wf b → board_wf b'.
Proof.
  unfold writeCell. destruct (b !! Z.to_nat y) as [row|] eqn:Hrow; [|discriminate].
  destruct ((0 <=? x) && (x <? Z.of_nat (length row))); [|discriminate].
  intros [= <-] [Hlen Hrows]. split.
  - now rewrite length_insert.
  - apply Forall_insert; [assumption|]. rewrite length_insert.
    rewrite Forall_forall in Hrows. apply Hrows. eapply list_elem_of_lookup_2, Hrow.
Qed.

Lemma writeCell_countFull b (y x : Z) (c : Cell) b' :
  writeCell b y x c = Ok b' → (countFull b' <= countFull b + 1)%nat.
Proof.
  unfold writeCell. destruct (b !! Z.to_nat y) as [row|]; [|discriminate].
  destruct ((0 <=? x) && (x <? Z.of_nat (length row))); [|discriminate].
  intros [= <-]. apply countFull_insert.
Qed.

Lemma writeCell_returns b (y x : Z) (c : Cell) :
  board_wf b → 0 <= y < 20 → 0 <= x < 10 → ∃ b', writeCell b y x c = Ok b'.
Proof.
  intros Hwf Hy Hx.
  destruct (board_wf_lookup b y x Hwf Hy Hx) as (row & c0 & Hrow & _ & _ & Hlen).
  unfold writeCell. rewrite Hrow, Hlen.
  destruct (Z.leb_spec 0 x), (Z.ltb_spec x (Z.of_nat 10)); try lia. simpl. eauto.
Qed.

Lemma placeCells_wf cells b (x y : Z) (c : Cell) b' :
  placeCells b x y c cells = Ok b' → board_wf b → board_wf b'.
Proof.
  revert b. induction cells as [|[py px] rest IH]; intros b; simpl.
  - now intros [= <-].
  - destruct (y + Z.of_nat py >=? 0); [|apply IH].
    destruct (writeCell b (y + Z.of_nat py) (x + Z.of_nat px) c) as [b1|] eqn:Hw; [|discriminate].
    intros H Hwf. eapply IH; [exact H|]. eapply writeCell_wf; eassumption.
Qed.

Lemma placeCells_countFull cells b (x y : Z) (c : Cell) b' :
  placeCells b x y c cells = Ok b' →
  (countFull b' <= countFull b + length cells)%nat.
Proof.
  revert b. induction cells as [|[py px] rest IH]; intros b; simpl.
  - intros [= <-]. lia.
  - destruct (y + Z.of_nat py >=? 0).
    + destruct (writeCell b (y + Z.of_nat py) (x + Z.of_nat px) c) as [b1|] eqn:Hw; [|discriminate].
      intros H. apply IH in H. apply writeCell_countFull in Hw. lia.
    + intros H. apply IH in H. lia.
Qed.

(** A piece that is free can be written: its cells are inside the board. *)
Lemma placeCells_returns cells b (x y : Z) (c : Cell) :
  board_wf b →
  (∀ cell, cell ∈ cells → ¬ cellHits b x y cell) →
  ∃ b', placeCells b x y c cells = Ok b'.
Proof.
  revert b. induction cells as [|[py px] rest IH]; intros b Hwf Hfree; simpl; [eauto|].
  assert (Hin : 0 <= x + Z.of_nat px < 10 ∧ y + Z.of_nat py < 20).
  { specialize (Hfree (py, px) ltac:(left)). unfold cellHits in Hfree. simpl in Hfree. lia. }
  assert (Hrest : ∀ b1, board_wf b1 →
            (∀ cell, cell ∈ rest → 0 <= x + Z.of_nat cell.2 < 10 ∧ y + Z.of_nat cell.1 < 20) → 
            ∃ b', placeCells b1 x y c rest = Ok b').
  { clear. induction rest as [|[qy qx] rest IHr]; intros b1 Hwf1 Hr; simpl; [eauto|].
    pose proof (Hr (qy, qx) ltac:(left)) as Hq. simpl in Hq.
    assert (Hr' : ∀ cell, cell ∈ rest → 0 <= x + Z.of_nat cell.2 < 10 ∧ y + Z.of_nat cell.1 < 20)
      by (intros cell Hc; apply Hr; now right).
    destruct (Z.geb_spec (y + Z.of_nat qy) 0); [|now apply IHr].
    destruct (writeCell_returns b1 (y + Z.of_nat qy) (x + Z.of_nat qx) c Hwf1) as [b2 Hb2]; [lia..|].
    rewrite Hb2. apply IHr; [|assumption]. eapply writeCell_wf; eassumption. }
  assert (Hrange : ∀ cell, cell ∈ rest → 0 <= x + Z.of_nat cell.2 < 10 ∧ y + Z.of_nat cell.1 < 20).
  { intros cell Hc. specialize (Hfree cell ltac:(now right)). unfold cellHits in Hfree. lia. }
  destruct (Z.geb_spec (y + Z.of_nat py) 0); [|now apply Hrest].
  destruct (writeCell_returns b (y + Z.of_nat py) (x + Z.of_nat px) c Hwf) as [b1 Hb1]; [lia..|].
  rewrite Hb1. apply Hrest; [|assumption]. eapply writeCell_wf; eassumption.
Qed.

(** Every shape of the catalogue has four cells, in at most four rows, and
    a first row. *)
Lemma catalogue_four (t : PieceType) (sh : Shape) :
  sh ∈ shapes t → length (occupied sh) = 4%nat.
Proof.
  intros H. destruct t; simpl in H;
    repeat (apply elem_of_cons in H as [-> | H]; [reflexivity|]);
    apply elem_of_nil in H as [].
Qed.

Lemma catalogue_first (t : PieceType) : ∃ sh, shapes t !! 0%nat = Some sh ∧ sh ∈ shapes t.
Proof. destruct t; simpl; eexists; (split; [reflexivity | left]). Qed.

Lemma catalogue_lookup (t : PieceType) (i : nat) (sh : Shape) :
  shapes t !! i = Some sh → sh ∈ shapes t.
Proof. apply list_elem_of_lookup_2. Qed.

End Placement.

(** ** The engine: what the operations keep *)

Arguments checkCollision : simpl never.
Arguments spawnPiece : simpl never.
Arguments movePiece : simpl never.
Arguments rotatePiece : simpl never.
Arguments clearLines : simpl never.
Arguments placePiece : simpl never.
Arguments hardDropLoop : simpl never.
Arguments hardDrop : simpl never.
Arguments startGame : simpl never.
Arguments isKey : simpl never.
Arguments updateHighScore : simpl never.
Arguments placeCells : simpl never.
Arguments clearLinesLoop : simpl never.
Arguments Z.div : simpl never.
Arguments Z.mul : simpl never.
Arguments Z.rem : simpl never.

Lemma bind_Ok {A B : Type} (m : M A) (k : A → M B) (st : St) (r : B * St) :
  bind m k st = Ok r → ∃ a st1, m st = Ok (a, st1) ∧ k a st1 = Ok r.
Proof.
  unfold bind. destruct (m st) as [[a st1]|e]; [eauto | discriminate].
Qed.

Ltac unmonad H :=
  unfold bind, this, assign, lift, getWorld, putWorld, raise, ret,
    setState, spawnNextPiece in H; simpl in H.

(** Unfold a definition in a hypothesis by way of the goal. *)
Ltac open_in H f := revert H; unfold f; intros H.

Ltac unmonad_goal :=
  unfold bind, this, assign, lift, getWorld, putWorld, raise, ret,
    setState, spawnNextPiece; simpl.

Section Engine.

Implicit Types (st : St) (g : Game).

Lemma spawnPiece_keeps drawn iso st st' :
  spawnPiece drawn iso st = Ok (tt, st') →
  sameSettled (game st) (game st') ∧ score (game st') = score (game st) ∧
  ((state (game st') = state (game st) ∧ world st' = world st ∧ pieceInv (game st'))
   ∨ state (game st') = GAME_OVER).
Proof.
  intros H. unfold spawnPiece in H. unmonad H.
  destruct (nextType (game st)) as [t|]; [|discriminate].
  destruct t; simpl in H;
    match type of H with
    | match match checkCollision ?b ?x ?y ?p with _ => _ end with _ => _ end = _ =>
        destruct (checkCollision b x y p) as [[|]|e] eqn:Hc; simpl in H; try discriminate
    end;
    try (destruct (updateHighScore _ _ _ _ _ _) as [[rank w']|e] eqn:Hup; simpl in H; try discriminate);
    injection H as <-; simpl; unfold sameSettled; simpl;
    (split; [auto|]); (split; [reflexivity|]);
    try (right; reflexivity);
    left; (split; [reflexivity|]); (split; [reflexivity|]);
    unfold pieceInv; simpl; eexists _, _; (split; [reflexivity|]); (split; [reflexivity|]);
    (split; [left | exact Hc]).
Qed.

Lemma gameInv_set_state (s : STATES) g :
  gameInv g → (s = PLAYING ∨ s = PAUSED → inPlay g) → gameInv (set_state s g).
Proof.
  intros (Hwf & Hnf & Hst & Hpi) Hs. unfold gameInv.
  repeat (split; [assumption|]). intros Hin. apply Hpi, Hs, Hin.
Qed.

Lemma movePiece_keeps dx dy st (moved : bool) st' :
  movePiece dx dy st = Ok (moved, st') →
  sameSettled (game st) (game st') ∧ state (game st') = state (game st) ∧
  world st' = world st ∧ score (game st') = score (game st) ∧
  (gameInv (game st) → gameInv (game st')).
Proof.
  intros H. unfold movePiece in H. unmonad H.
  destruct (checkCollision _ _ _ _) as [[|]|e] eqn:Hc; simpl in H; try discriminate;
    injection H as <- <-; unfold sameSettled; simpl;
    (split; [repeat split|]); repeat (split; [reflexivity|]); [auto|].
  intros (Hwf & Hnf & Hst & Hpi). unfold gameInv, statsInv, inPlay, pieceInv in *. simpl.
  repeat (split; [assumption|]). intros Hin.
  destruct (Hpi Hin) as (t & sh & Ht & Hp & Hsh & _).
  exists t, sh. rewrite Hp in Hc. auto.
Qed.

Lemma rotation_in_range (t : PieceType) (z : Z) :
  ∃ p, shapes t !! Z.to_nat (Z.rem z (Z.of_nat (length (shapes t)))) = Some p.
Proof.
  apply lookup_lt_is_Some_2.
  assert (0 < Z.of_nat (length (shapes t))) by (destruct t; reflexivity).
  destruct (Z_lt_le_dec z 0).
  - pose proof (Z.rem_bound_pos_neg z (Z.of_nat (length (shapes t))) ltac:(lia) ltac:(lia)). lia.
  - pose proof (Z.rem_bound_pos z (Z.of_nat (length (shapes t))) ltac:(lia) ltac:(lia)). lia.
Qed.

Lemma rotatePiece_keeps st (turned : bool) st' :
  rotatePiece st = Ok (turned, st') →
  sameSettled (game st) (game st') ∧ state (game st') = state (game st) ∧
  world st' = world st ∧ score (game st') = score (game st) ∧
  (gameInv (game st) → gameInv (game st')).
Proof.
  intros H. unfold rotatePiece in H. unmonad H.
  destruct (currentType (game st)) as [t|] eqn:Ht; [|discriminate].
  destruct (rotation_in_range t (currentRotation (game st) + 1)) as [p Hp].
  rewrite Hp in H.
  destruct (checkCollision _ _ _ _) as [[|]|e] eqn:Hc; simpl in H; try discriminate;
    injection H as <- <-; unfold sameSettled; simpl;
    (split; [repeat split|]); repeat (split; [reflexivity|]); [auto|].
  intros (Hwf & Hnf & Hst & Hpi). unfold gameInv, statsInv, inPlay, pieceInv in *. simpl.
  repeat (split; [assumption|]). intros Hin.
  exists t, p. split; [exact Ht|]. split; [reflexivity|].
  split; [eapply catalogue_lookup, Hp | exact Hc].
Qed.

Lemma clearLines_keeps fuel st st' :
  clearLines fuel st = Ok (tt, st') →
  length (board (game st)) = 20%nat →
  board (game st') = cleared (board (game st)) ∧
  sameFalling (game st) (game st') ∧ world st' = world st ∧
  (statsInv (game st) → statsInv (game st')) ∧
  lines (game st) <= lines (game st') ∧
  (Z.of_nat (countFull (board (game st))) = 0 →
     lines (game st') = lines (game st) ∧ level (game st') = level (game st) ∧
     dropTime (game st') = dropTime (game st) ∧ score (game st') = score (game st)).
Proof.
  intros H Hlen. unfold clearLines in H. unmonad H.
  rewrite (clearLinesLoop_board fuel _ Hlen) in H.
  case_bool_decide; simpl in H; [|discriminate].
  destruct (Z.of_nat (countFull (board (game st))) >? 0) eqn:Hpos; simpl in H.
  - destruct (scoreValues !! _) as [v|]; simpl in H; [|discriminate].
    injection H as <-. unfold sameFalling, statsInv. simpl.
    split; [reflexivity|]. split; [repeat split|]. split; [reflexivity|].
    split; [|split; lia]. intros (Hl & _ & _). repeat split; lia.
  - injection H as <-. unfold sameFalling, statsInv. simpl.
    split; [reflexivity|]. split; [repeat split|]. split; [reflexivity|].
    split; [auto|]. split; [lia|]. intros _. repeat split.
Qed.

Lemma placePiece_keeps fuel drawn iso st st' :
  placePiece fuel drawn iso st = Ok (tt, st') →
  board_wf (board (game st)) → statsInv (game st) →
  gameInv (game st') ∧ player (game st') = player (game st) ∧
  (state (game st') = state (game st) ∨ state (game st') = GAME_OVER) ∧
  lines (game st) <= lines (game st').
Proof.
  intros H Hwf Hst. open_in H placePiece.
  apply bind_Ok in H as (g & st0 & Hg & H). unmonad Hg. injection Hg as <- <-.
  destruct (currentPiece (game st)) as [piece|]; [|discriminate].
  apply bind_Ok in H as (b1 & st1 & Hb1 & H). unmonad Hb1.
  destruct (placeCells _ _ _ _ _) as [b1'|e] eqn:Hplace; [|discriminate].
  injection Hb1 as <- <-.
  apply bind_Ok in H as ([] & st2 & H2 & H). unmonad H2. injection H2 as <-.
  apply bind_Ok in H as ([] & st3 & H3 & H).
  apply clearLines_keeps in H3 as (Hb3 & Hf3 & Hw3 & Hst3 & Hmono & _);
    [|simpl; eapply placeCells_wf; eassumption].
  simpl in *.
  apply spawnPiece_keeps in H as ((Hb & Hl & Hv & Hd & Hpl) & _ & Hcase).
  destruct Hf3 as (Hs3 & _ & _ & _ & _ & _ & Hp3). simpl in *.
  split; [|split; [congruence|split; [|lia]]].
  - unfold gameInv. rewrite Hb, Hb3. split; [|split; [|split]].
    + apply cleared_wf. eapply placeCells_wf; eassumption.
    + apply cleared_noFullRow.
    + specialize (Hst3 Hst). unfold statsInv in *. rewrite Hl, Hv, Hd. exact Hst3.
    + intros Hin. destruct Hcase as [(_ & _ & Hpi) | Hover]; [exact Hpi|].
      unfold inPlay in Hin. rewrite Hover in Hin. destruct Hin; discriminate.
  - destruct Hcase as [(Hs & _) | Hover]; [left; congruence | now right].
Qed.

Lemma hardDropLoop_keeps fuel (dropped : Z) st (n : Z) st' :
  hardDropLoop fuel dropped st = Ok (n, st') →
  sameSettled (game st) (game st') ∧ state (game st') = state (game st) ∧
  world st' = world st ∧ score (game st') = score (game st) ∧
  (gameInv (game st) → gameInv (game st')).
Proof.
  revert dropped st. induction fuel as [|fuel IH]; intros dropped st H; [discriminate|].
  cbn [hardDropLoop] in H.
  apply bind_Ok in H as (moved & st1 & Hm & H).
  apply movePiece_keeps in Hm as (Hs1 & Hst1 & Hw1 & Hsc1 & Hinv1).
  destruct moved.
  - apply IH in H as (Hs2 & Hst2 & Hw2 & Hsc2 & Hinv2).
    destruct Hs1 as (? & ? & ? & ? & ?), Hs2 as (? & ? & ? & ? & ?).
    unfold sameSettled. split; [repeat split; congruence|].
    do 3 (split; [congruence|]). auto.
  - unmonad H. injection H as <- <-. auto.
Qed.

Lemma hardDrop_keeps fuel drawn iso st st' :
  hardDrop fuel drawn iso st = Ok (tt, st') →
  gameInv (game st) →
  gameInv (game st') ∧ player (game st') = player (game st) ∧
  (state (game st') = state (game st) ∨ state (game st') = GAME_OVER).
Proof.
  intros H Hinv. open_in H hardDrop.
  apply bind_Ok in H as (n & st1 & Hloop & H).
  apply hardDropLoop_keeps in Hloop as ((Hb & Hl & Hv & Hd & Hp) & Hs & _ & _ & Hinv1).
  apply bind_Ok in H as ([] & st2 & H2 & H). unmonad H2. injection H2 as <-.
  specialize (Hinv1 Hinv). destruct Hinv1 as (Hwf & _ & Hst & _).
  apply placePiece_keeps in H as (Hinv' & Hp' & Hs' & _); simpl in *; [|assumption..].
  split; [exact Hinv'|]. split; [congruence|]. rewrite <- Hs. exact Hs'.
Qed.

Lemma emptyBoard_wf : board_wf emptyBoard.
Proof. split; [reflexivity | apply Forall_replicate; reflexivity]. Qed.

Lemma emptyBoard_noFullRow : noFullRow emptyBoard.
Proof. apply Forall_replicate. reflexivity. Qed.

(** On an empty board no freshly spawned piece collides. *)
Lemma spawn_free_on_empty (t : PieceType) :
  ∃ row0 rest,
    shapes t !! 0%nat = Some (row0 :: rest) ∧
    checkCollision emptyBoard ((10 - Z.of_nat (length row0)) / 2) 0 (Some (row0 :: rest)) = Ok false.
Proof. destruct t; eexists _, _; (split; [reflexivity | vm_compute; reflexivity]). Qed.

(** [spawnPiece] as one case distinction on the collision test. *)
Lemma spawnPiece_unfold drawn iso st (t : PieceType) (row0 : list Z) (rest : Shape) :
  nextType (game st) = Some t →
  shapes t !! 0%nat = Some (row0 :: rest) →
  spawnPiece drawn iso st =
    let x := (10 - Z.of_nat (length row0)) / 2 in
    let g1 :=
      set_currentY 0 (set_currentX x (set_currentPiece (Some (row0 :: rest))
        (set_currentRotation 0 (set_nextType (Some drawn)
          (set_currentType (Some t) (game st)))))) in
    match checkCollision (board (game st)) x 0 (Some (row0 :: rest)) with
    | Ok true =>
        match updateHighScore (player (game st)) (score (game st)) (level (game st))
                (lines (game st)) iso (world st) with
        | Ok (rank, w') => Ok (tt, mkSt w' (set_state GAME_OVER g1))
        | Err e => Err e
        end
    | Ok false => Ok (tt, mkSt (world st) g1)
    | Err e => Err e
    end.
Proof.
  intros Hn Hsh. unfold spawnPiece. unmonad_goal. rewrite Hn. simpl. rewrite Hsh. simpl.
  destruct (checkCollision _ _ _ _) as [[|]|e]; simpl; try reflexivity.
  destruct (updateHighScore _ _ _ _ _ _) as [[rank w']|e]; reflexivity.
Qed.

Lemma startGame_keeps env st st' :
  startGame env st = Ok (tt, st') →
  gameInv (game st') ∧ state (game st') = PLAYING ∧
  player (game st') = player (game st) ∧ world st' = world st.
Proof.
  intros H. open_in H startGame.
  do 7 (apply bind_Ok in H as ([] & ? & H0 & H); unmonad H0; injection H0 as <-).
  apply bind_Ok in H as ([] & st1 & Hsp & H). unmonad H. injection H as <-.
  destruct (spawn_free_on_empty (random1 env)) as (row0 & rest & Hsh & Hfree).
  match type of Hsp with spawnPiece _ _ ?s = _ =>
    rewrite (spawnPiece_unfold (random2 env) (isoDate env) s (random1 env) row0 rest eq_refl Hsh) in Hsp
  end.
  simpl in Hsp. rewrite Hfree in Hsp. injection Hsp as <-. simpl.
  split; [|auto]. unfold gameInv, statsInv, inPlay, pieceInv. simpl.
  split; [apply emptyBoard_wf|].
  split; [apply emptyBoard_noFullRow|].
  split; [repeat split; reflexivity || lia|].
  intros _. exists (random1 env), (row0 :: rest).
  repeat (split; [reflexivity|]). split; [eapply catalogue_lookup, Hsh | exact Hfree].
Qed.

Lemma handleGameInput_keeps fuel env key st st' :
  handleGameInput fuel env key st = Ok (tt, st') →
  state (game st) = PLAYING →
  gameInv (game st) → gameInv (game st').
Proof.
  intros H Hs Hinv. open_in H handleGameInput. open_in H restart.
  repeat match type of H with (if ?c then _ else _) _ = _ => destruct c end.
  - apply bind_Ok in H as (m & st1 & Hm & H). unmonad H. injection H as <-.
    apply movePiece_keeps in Hm as (_ & _ & _ & _ & Hk). exact (Hk Hinv).
  - apply bind_Ok in H as (m & st1 & Hm & H). unmonad H. injection H as <-.
    apply movePiece_keeps in Hm as (_ & _ & _ & _ & Hk). exact (Hk Hinv).
  - apply bind_Ok in H as (m & st1 & Hm & H).
    apply movePiece_keeps in Hm as (_ & _ & _ & _ & Hk). specialize (Hk Hinv).
    destruct m.
    + unmonad H. injection H as <-. exact Hk.
    + destruct Hk as (Hwf & _ & Hst & _).
      apply placePiece_keeps in H as (Hinv' & _); assumption.
  - apply bind_Ok in H as (m & st1 & Hm & H). unmonad H. injection H as <-.
    apply rotatePiece_keeps in Hm as (_ & _ & _ & _ & Hk). exact (Hk Hinv).
  - apply hardDrop_keeps in H as (Hinv' & _); assumption.
  - unmonad H. injection H as <-. apply gameInv_set_state; [assumption|].
    intros _. now left.
  - apply startGame_keeps in H as (Hinv' & _). exact Hinv'.
  - unmonad H. injection H as <-. apply gameInv_set_state; [assumption|].
    intros [?|?]; discriminate.
  - unmonad H. injection H as <-. exact Hinv.
Qed.

Lemma onData_keeps fuel env key st st' :
  onData fuel env key st = Ok (tt, st') →
  gameInv (game st) → gameInv (game st').
Proof.
  intros H Hinv. open_in H onData.
  destruct (isKey key ["q"; ETX]).
  { unmonad H. injection H as <-. exact Hinv. }
  apply bind_Ok in H as (g & st0 & Hg & H). unmonad Hg. injection Hg as <- <-.
  destruct (state (game st)) eqn:Hs.
  - open_in H handleWelcomeInput.
    repeat match type of H with (if ?c then _ else _) _ = _ => destruct c end.
    + unmonad H. injection H as <-. apply gameInv_set_state; [assumption|].
      intros [?|?]; discriminate.
    + unmonad H. injection H as <-. apply gameInv_set_state; [assumption|].
      intros [?|?]; discriminate.
    + apply startGame_keeps in H as (Hinv' & _). exact Hinv'.
  - eapply handleGameInput_keeps; eassumption.
  - open_in H handlePausedInput. destruct (isKey key ["p"]).
    + unmonad H. injection H as <-. apply gameInv_set_state; [assumption|].
      intros _. right. exact Hs.
    + unmonad H. injection H as <-. exact Hinv.
  - open_in H handleGameOverInput. open_in H restart.
    repeat match type of H with (if ?c then _ else _) _ = _ => destruct c end.
    + apply startGame_keeps in H as (Hinv' & _). exact Hinv'.
    + unmonad H. injection H as <-. apply gameInv_set_state; [assumption|].
      intros [?|?]; discriminate.
    + unmonad H. injection H as <-. apply gameInv_set_state; [assumption|].
      intros [?|?]; discriminate.
  - open_in H handleHighScoresInput. unmonad H. rewrite Hs in H. simpl in H.
    injection H as <-. apply gameInv_set_state; [assumption|].
    intros [?|?]; discriminate.
  - open_in H handleAccountMenuInput.
    repeat match type of H with (if ?c then _ else _) _ = _ => destruct c end;
      unmonad H; injection H as <-; (apply gameInv_set_state; [assumption|]);
      intros [?|?]; discriminate.
  - open_in H handleAccountExportInput. unmonad H. injection H as <-.
    apply gameInv_set_state; [assumption|]. intros [?|?]; discriminate.
  - open_in H handleAccountDeleteInput. destruct (isKey key ["y"]).
    + unmonad H. injection H as <-. exact Hinv.
    + unmonad H. injection H as <-. apply gameInv_set_state; [assumption|].
      intros [?|?]; discriminate.
Qed.

Lemma loop_keeps fuel env st st' :
  loop fuel env st = Ok (tt, st') →
  gameInv (game st) → gameInv (game st').
Proof.
  intros H Hinv. open_in H loop.
  apply bind_Ok in H as (g & st0 & Hg & H). unmonad Hg. injection Hg as <- <-.
  destruct (bool_decide (state (game st) ≠ PLAYING)).
  { unmonad H. injection H as <-. exact Hinv. }
  destruct (dateNow env - lastDrop (game st) >? dropTime (game st)).
  - apply bind_Ok in H as (m & st1 & Hm & H).
    apply movePiece_keeps in Hm as (_ & _ & _ & _ & Hk). specialize (Hk Hinv).
    apply bind_Ok in H as ([] & st2 & H2 & H). unmonad H. injection H as <-.
    destruct m; simpl in H2.
    + unmonad H2. injection H2 as <-. exact Hk.
    + destruct Hk as (Hwf & _ & Hst & _).
      apply placePiece_keeps in H2 as (Hinv' & _); assumption.
  - unmonad H. injection H as <-. exact Hinv.
Qed.

Lemma step_keeps fuel env ev st st' :
  step fuel env ev st = Ok (tt, st') →
  gameInv (game st) → gameInv (game st').
Proof.
  destruct ev as [key|]; simpl; intros H Hinv.
  - apply bind_Ok in H as (g & st0 & Hg & H). unmonad Hg. injection Hg as <- <-.
    destruct (streamEnded (game st)).
    + unmonad H. injection H as <-. exact Hinv.
    + eapply onData_keeps; eassumption.
  - eapply loop_keeps; eassumption.
Qed.

Lemma newGame_inv (p : Player.t) (w : World) (now : Z) : gameInv (newGame p w now).
Proof.
  unfold gameInv, statsInv, inPlay. simpl.
  split; [apply emptyBoard_wf|].
  split; [apply emptyBoard_noFullRow|].
  split; [repeat split; reflexivity || lia|].
  intros [?|?]; discriminate.
Qed.

(** Every state of a session satisfies the invariant. *)
Lemma reachable_inv st : reachable st → gameInv (game st).
Proof.
  induction 1 as [w p now | st st' fuel env ev _ IH Hstep | st w _ IH].
  - apply newGame_inv.
  - eapply step_keeps; eassumption.
  - exact IH.
Qed.

End Engine.

(** ** Runs *)

Lemma ok_stOf (r : result (unit * St)) (d : St) :
  isOk r = true → r = Ok (tt, stOf r d).
Proof. destruct r as [[[] st]|e]; [reflexivity | discriminate]. Qed.

Lemma run_reachable (fuel : nat) (events : list (Env * Event)) (st d : St) :
  reachable st → isOk (run fuel events st) = true →
  reachable (stOf (run fuel events st) d).
Proof.
  revert st. induction events as [|[env ev] rest IH]; simpl; intros st Hr.
  - intros _. exact Hr.
  - destruct (step fuel env ev st) as [[[] st1]|e] eqn:Hstep; [|discriminate].
    apply IH. eapply reach_step; eassumption.
Qed.

Lemma playingSt_reachable : reachable playingSt.
Proof. apply run_reachable; [apply reach_new | vm_compute; reflexivity]. Qed.

Lemma leaderboardSt_reachable : reachable leaderboardSt.
Proof.
  eapply reach_step; [apply playingSt_reachable|].
  apply ok_stOf. vm_compute. reflexivity.
Qed.

(** ** Statistics *)

(** C7.  After every lock ([placePiece]: placement, line clearing and the
    update of the statistics), in every state a session can reach and
    whatever the number of lines the lock clears, also none,
    [level = floor(lines / 10) + 1]. *)
Theorem level_after_lock (st st' : St) (fuel : nat) (drawn : PieceType) (iso : string) :
  reachable st →
  placePiece fuel drawn iso st = Ok (tt, st') →
  level (game st') = lines (game st') / 10 + 1.
Proof.
  intros Hr H. apply reachable_inv in Hr as (Hwf & _ & Hst & _).
  apply placePiece_keeps in H as ((_ & _ & (_ & Hlevel & _) & _) & _); assumption.
Qed.

Lemma level_after_lock_witness :
  level (game (stOf (placePiece 41 PO someDate playingSt) playingSt)) =
  lines (game (stOf (placePiece 41 PO someDate playingSt) playingSt)) / 10 + 1.
Proof.
  apply (level_after_lock playingSt _ 41 PO someDate).
  - apply playingSt_reachable.
  - apply ok_stOf. vm_compute. reflexivity.
Defined.

Lemma dropInterval_range (lvl : Z) : 1 <= lvl → 100 <= dropInterval lvl <= 1000.
Proof. unfold dropInterval. lia. Qed.

Lemma dropInterval_mono (l1 l2 : Z) : l1 <= l2 → dropInterval l2 <= dropInterval l1.
Proof. unfold dropInterval. lia. Qed.

Lemma statsInv_level g : statsInv g → 1 <= level g.
Proof.
  intros (Hl & Hv & _). rewrite Hv.
  pose proof (Z.div_pos (lines g) 10 Hl ltac:(lia)). lia.
Qed.

(** C8.  In every state a session can reach, and so after every lock that
    changes the level, the drop interval is
    [max(100, 1000 - (level - 1) * 100)] milliseconds; it lies in
    [100, 1000]; and across a lock the level does not go down and the drop
    interval does not go up, the interval being a non-increasing function of
    the level. *)
Theorem dropTime_formula (st : St) :
  reachable st →
  dropTime (game st) = Z.max 100 (1000 - (level (game st) - 1) * 100) ∧
  100 <= dropTime (game st) <= 1000 ∧
  (∀ l1 l2, l1 <= l2 → dropInterval l2 <= dropInterval l1) ∧
  (∀ fuel drawn iso st',
     placePiece fuel drawn iso st = Ok (tt, st') →
     dropTime (game st') = Z.max 100 (1000 - (level (game st') - 1) * 100) ∧
     100 <= dropTime (game st') <= 1000 ∧
     level (game st) <= level (game st') ∧
     dropTime (game st') <= dropTime (game st)).
Proof.
  intros Hr. apply reachable_inv in Hr as (Hwf & _ & Hst & _).
  pose proof (statsInv_level _ Hst) as Hlv.
  pose proof Hst as (Hl & Hv & Hd).
  split; [exact Hd|]. split; [rewrite Hd; apply (dropInterval_range _ Hlv)|].
  split; [apply dropInterval_mono|].
  intros fuel drawn iso st' H.
  apply placePiece_keeps in H as ((_ & _ & Hst' & _) & _ & _ & Hmono); [|assumption..].
  pose proof (statsInv_level _ Hst') as Hlv'.
  destruct Hst' as (Hl' & Hv' & Hd').
  split; [exact Hd'|]. split; [rewrite Hd'; apply (dropInterval_range _ Hlv')|].
  assert (level (game st) <= level (game st')).
  { rewrite Hv, Hv'. pose proof (Z.div_le_mono _ _ 10 ltac:(lia) Hmono). lia. }
  split; [assumption|]. rewrite Hd, Hd'. now apply dropInterval_mono.
Qed.

Lemma dropTime_formula_witness :
  dropTime (game playingSt) = Z.max 100 (1000 - (level (game playingSt) - 1) * 100) ∧
  100 <= dropTime (game playingSt) <= 1000 ∧
  (∀ l1 l2, l1 <= l2 → dropInterval l2 <= dropInterval l1) ∧
  (∀ fuel drawn iso st',
     placePiece fuel drawn iso playingSt = Ok (tt, st') →
     dropTime (game st') = Z.max 100 (1000 - (level (game st') - 1) * 100) ∧
     100 <= dropTime (game st') <= 1000 ∧
     level (game playingSt) <= level (game st') ∧
     dropTime (game st') <= dropTime (game playingSt)).
Proof.
  apply dropTime_formula. apply playingSt_reachable.
Defined.

(** ** The shape of the board *)

(** C9.  In every state a session can reach the board is twenty rows of
    ten cells, each cell empty or one of the seven tags; starting or
    restarting a game, placing a piece and clearing lines all return a board
    of that shape. *)
Theorem board_shape_invariant (st : St) :
  reachable st →
  board_wf (board (game st)) ∧
  (∀ y x, boardCell (board (game st)) y x = None ∨
          ∃ t, t ∈ types ∧ boardCell (board (game st)) y x = Some t) ∧
  (∀ env st', startGame env st = Ok (tt, st') → board_wf (board (game st'))) ∧
  (∀ fuel drawn iso st',
     placePiece fuel drawn iso st = Ok (tt, st') → board_wf (board (game st'))) ∧
  (∀ fuel st', clearLines fuel st = Ok (tt, st') → board_wf (board (game st'))).
Proof.
  intros Hr. apply reachable_inv in Hr as (Hwf & _ & Hst & _).
  split; [exact Hwf|]. split; [|split; [|split]].
  - intros y x. destruct (boardCell (board (game st)) y x) as [t|]; [right | now left].
    exists t. split; [|reflexivity]. unfold types. destruct t; set_solver.
  - intros env st' H. now apply startGame_keeps in H as ((Hwf' & _) & _).
  - intros fuel drawn iso st' H.
    now apply placePiece_keeps in H as ((Hwf' & _) & _).
  - intros fuel st' H. apply clearLines_keeps in H as (Hb & _); [|apply Hwf].
    rewrite Hb. now apply cleared_wf.
Qed.

Lemma board_shape_invariant_witness :
  board_wf (board (game playingSt)) ∧
  (∀ y x, boardCell (board (game playingSt)) y x = None ∨
          ∃ t, t ∈ types ∧ boardCell (board (game playingSt)) y x = Some t) ∧
  (∀ env st', startGame env playingSt = Ok (tt, st') → board_wf (board (game st'))) ∧
  (∀ fuel drawn iso st',
     placePiece fuel drawn iso playingSt = Ok (tt, st') → board_wf (board (game st'))) ∧
  (∀ fuel st', clearLines fuel playingSt = Ok (tt, st') → board_wf (board (game st'))).
Proof.
  apply board_shape_invariant. apply playingSt_reachable.
Defined.

(** ** Clearing lines *)

Lemma cleared_lookup (b : Board) (i : nat) (row : list Cell) :
  b !! i = Some row → rowFull row = false →
  cleared b !! (i + fullBelow b i)%nat = Some row.
Proof.
  intros Hi Hrow. unfold cleared, fullBelow.
  pose proof (take_drop_middle b i row Hi) as Hsplit.
  pose proof (lookup_lt_Some _ _ _ Hi) as Hlt.
  replace (countFull b) with (countFull (take i b ++ row :: drop (S i) b))
    by now rewrite Hsplit.
  replace (List.filter (λ r, negb (rowFull r)) b)
    with (List.filter (λ r, negb (rowFull r)) (take i b ++ row :: drop (S i) b))
    by now rewrite Hsplit.
  rewrite countFull_app, countFull_cons, Hrow, List.filter_app. simpl. rewrite Hrow. simpl.
  pose proof (length_filter_notFull (take i b)) as Hlen.
  rewrite length_take in Hlen.
  rewrite lookup_app_r by (rewrite length_replicate; lia).
  rewrite length_replicate.
  replace (i + countFull (drop (S i) b) - (countFull (take i b) + countFull (drop (S i) b)))%nat
    with (length (List.filter (λ r, negb (rowFull r)) (take i b))) by lia.
  apply list_lookup_middle. reflexivity.
Qed.

(** C5, as amended.  On every twenty-row board the scan returns; it removes
    exactly the full rows, puts one empty row on top for each, keeps the
    other rows in their order — each ends below where it was by the number
    of full rows that were below it — and counts the rows removed; after
    the placement of a piece in a running game that count is between 0 and
    4. *)
Theorem clearLines_correct (b : Board) (fuel : nat) :
  length b = 20%nat → (40 < fuel)%nat →
  ∃ b' n,
    clearLinesLoop fuel 19 b 0 = Ok (b', n) ∧
    n = Z.of_nat (countFull b) ∧
    b' = replicate (countFull b) emptyRow ++ List.filter (λ r, negb (rowFull r)) b ∧
    length b' = 20%nat ∧
    (∀ i row, b !! i = Some row → rowFull row = false →
              b' !! (i + fullBelow b i)%nat = Some row) ∧
    (∀ st sh, reachable st → state (game st) = PLAYING →
              currentPiece (game st) = Some sh →
              placeCells (board (game st)) (currentX (game st)) (currentY (game st))
                (currentType (game st)) (occupied sh) = Ok b →
              0 <= n <= 4).
Proof.
  intros Hlen Hfuel. exists (cleared b), (Z.of_nat (countFull b)).
  pose proof (countFull_le_length b) as Hle.
  split; [|split; [reflexivity|split; [reflexivity|split; [|split]]]].
  - rewrite (clearLinesLoop_board fuel b Hlen).
    rewrite bool_decide_eq_true_2 by lia. reflexivity.
  - unfold cleared. rewrite length_app, length_replicate.
    pose proof (length_filter_notFull b). lia.
  - apply cleared_lookup.
  - intros st sh Hr Hs Hp Hplace.
    apply reachable_inv in Hr as (_ & Hnf & _ & Hpi).
    destruct (Hpi (or_introl Hs)) as (t & sh' & _ & Hp' & Hsh & _).
    rewrite Hp in Hp'. injection Hp' as <-.
    apply placeCells_countFull in Hplace.
    rewrite (catalogue_four t sh Hsh) in Hplace.
    assert (countFull (board (game st)) = 0%nat).
    { clear -Hnf. unfold noFullRow, countFull in *.
      induction Hnf as [|r l Hr _ IH]; simpl; [reflexivity|]. now rewrite Hr. }
    lia.
Qed.

Lemma clearLines_correct_witness :
  ∃ b' n,
    clearLinesLoop 41 19 markedBoard 0 = Ok (b', n) ∧
    n = Z.of_nat (countFull markedBoard) ∧
    b' = replicate (countFull markedBoard) emptyRow
           ++ List.filter (λ r, negb (rowFull r)) markedBoard ∧
    length b' = 20%nat ∧
    (∀ i row, markedBoard !! i = Some row → rowFull row = false →
              b' !! (i + fullBelow markedBoard i)%nat = Some row) ∧
    (∀ st sh, reachable st → state (game st) = PLAYING →
              currentPiece (game st) = Some sh →
              placeCells (board (game st)) (currentX (game st)) (currentY (game st))
                (currentType (game st)) (occupied sh) = Ok markedBoard →
              0 <= n <= 4).
Proof.
  apply clearLines_correct; [reflexivity | lia].
Defined.

(** C5 as stated fails: a row is not moved down by the number of full rows
    above it.  With the bottom row full and a marked row right above it, no
    full row is above the marked row, yet it moves down by one. *)
Lemma clearLines_shift_not_above :
  ¬ (∀ (b b' : Board) (fuel : nat) (n : Z) (i : nat) (row : list Cell),
       length b = 20%nat → (40 < fuel)%nat →
       clearLinesLoop fuel 19 b 0 = Ok (b', n) →
       b !! i = Some row → rowFull row = false →
       b' !! (i + fullAbove b i)%nat = Some row).
Proof.
  intros H.
  specialize (H markedBoard (cleared markedBoard) 41%nat 1 18%nat markerRow
                eq_refl ltac:(lia) eq_refl eq_refl eq_refl).
  assert (H0 : cleared markedBoard !! (18 + fullAbove markedBoard 18)%nat = Some emptyRow)
    by (vm_compute; reflexivity).
  rewrite H0 in H. discriminate H.
Qed.

(** ** Hard drop *)

Lemma movePiece_unfold (dx dy : Z) (st : St) :
  movePiece dx dy st =
    match checkCollision (board (game st)) (currentX (game st) + dx)
            (currentY (game st) + dy) (currentPiece (game st)) with
    | Ok true => Ok (false, st)
    | Ok false =>
        Ok (true, mkSt (world st)
                    (set_currentY (currentY (game st) + dy)
                       (set_currentX (currentX (game st) + dx) (game st))))
    | Err e => Err e
    end.
Proof.
  unfold movePiece. unmonad_goal.
  destruct (checkCollision _ _ _ _) as [[|]|e]; reflexivity.
Qed.

Lemma hardDropLoop_S (fuel : nat) (dropped : Z) (st : St) :
  hardDropLoop (S fuel) dropped st =
    match movePiece 0 1 st with
    | Ok (true, st1) => hardDropLoop fuel (dropped + 1) st1
    | Ok (false, st1) => Ok (dropped, st1)
    | Err e => Err e
    end.
Proof.
  change (hardDropLoop (S fuel) dropped st)
    with (bind (movePiece 0 1)
            (λ moved : bool, if moved then hardDropLoop fuel (dropped + 1) else ret dropped) st).
  unfold bind. destruct (movePiece 0 1 st) as [[[|] st1]|e]; reflexivity.
Qed.

(** The loop stops: a piece with a cell cannot move down from row 19 on. *)
Lemma hardDropLoop_stops (fuel : nat) (st : St) (dropped : Z) (sh : Shape) :
  board_wf (board (game st)) →
  currentPiece (game st) = Some sh →
  occupied sh ≠ [] →
  (Z.to_nat (19 - currentY (game st)) < fuel)%nat →
  ∃ n st',
    hardDropLoop fuel dropped st = Ok (n, st') ∧
    dropped <= n <= dropped + Z.max 0 (19 - currentY (game st)) ∧
    currentY (game st') = currentY (game st) + (n - dropped) ∧
    movePiece 0 1 st' = Ok (false, st').
Proof.
  revert st dropped. induction fuel as [|fuel IH]; intros st dropped Hwf Hp Hocc Hfuel; [lia|].
  rewrite hardDropLoop_S.
  pose proof (movePiece_unfold 0 1 st) as Hmv. rewrite Hp in Hmv.
  unfold checkCollision in Hmv.
  destruct (collideCells_spec (board (game st)) (currentX (game st) + 0)
              (currentY (game st) + 1) (occupied sh) Hwf) as (r & Hr & Hiff).
  rewrite Hr in Hmv. rewrite Hmv. destruct r.
  - exists dropped, st. split; [reflexivity|].
    split; [lia|]. split; [lia|]. exact Hmv.
  - assert (Hy : currentY (game st) + 1 <= 19).
    { destruct (occupied sh) as [|[py px] rest] eqn:Hcells; [contradiction|].
      destruct (Z_le_gt_dec (currentY (game st) + 1) 19) as [|Hgt]; [assumption|].
      exfalso. assert (false = true); [|discriminate].
      apply Hiff. exists (py, px). split; [left|].
      unfold cellHits. simpl. right. left. lia. }
    destruct (IH (mkSt (world st)
                    (set_currentY (currentY (game st) + 1)
                       (set_currentX (currentX (game st) + 0) (game st))))
                (dropped + 1)) as (n & st' & Hloop & Hn & Hy' & Hstop);
      simpl; [assumption.. | lia |].
    simpl in *. exists n, st'. split; [exact Hloop|].
    split; [lia|]. split; [lia | exact Hstop].
Qed.

(** C10.  On every board, for every shape of the catalogue at every
    origin, the loop of [hardDrop] returns as soon as it is given more steps
    than there are rows between the origin and row 19; it makes at most that
    many moves, each of which takes the piece one row down, and stops
    because the next move down collides. *)
Theorem hardDrop_terminates (st : St) (t : PieceType) (sh : Shape) (fuel : nat) :
  board_wf (board (game st)) →
  currentPiece (game st) = Some sh →
  sh ∈ shapes t →
  (Z.to_nat (19 - currentY (game st)) < fuel)%nat →
  ∃ n st',
    hardDropLoop fuel 0 st = Ok (n, st') ∧
    0 <= n <= Z.max 0 (19 - currentY (game st)) ∧
    currentY (game st') = currentY (game st) + n ∧
    movePiece 0 1 st' = Ok (false, st').
Proof.
  intros Hwf Hp Hsh Hfuel.
  assert (Hocc : occupied sh ≠ []).
  { intros E. pose proof (catalogue_four t sh Hsh) as H4. rewrite E in H4. discriminate. }
  destruct (hardDropLoop_stops fuel st 0 sh Hwf Hp Hocc Hfuel) as (n & st' & H1 & H2 & H3 & H4).
  exists n, st'. split; [exact H1|]. split; [lia|]. split; [lia | exact H4].
Qed.

Lemma hardDrop_terminates_witness :
  ∃ n st',
    hardDropLoop 20 0 playingSt = Ok (n, st') ∧
    0 <= n <= Z.max 0 (19 - currentY (game playingSt)) ∧
    currentY (game st') = currentY (game playingSt) + n ∧
    movePiece 0 1 st' = Ok (false, st').
Proof.
  apply (hardDrop_terminates playingSt PT [[0;1;0];[1;1;1]] 20).
  - apply (reachable_inv playingSt playingSt_reachable).
  - vm_compute. reflexivity.
  - left.
  - vm_compute. lia.
Defined.

(** ** Soft drop and gravity *)

Ltac eval_keys :=
  repeat match goal with
  | |- context [isKey ?k ?l] =>
      let b := eval vm_compute in (isKey k l) in change (isKey k l) with b
  end.

(** C3, as amended.  While playing, the soft-drop key and a due gravity
    tick both try [movePiece(0, 1)] and both call [placePiece] when it
    fails; when it succeeds the key adds exactly 1 to the score, whereas the
    tick leaves the score as it is and only records the time of the drop. *)
Theorem soft_drop_and_gravity (fuel : nat) (env : Env) (st : St) :
  state (game st) = PLAYING →
  dateNow env - lastDrop (game st) > dropTime (game st) →
  match movePiece 0 1 st with
  | Ok (true, st1) =>
      handleGameInput fuel env "s" st =
        Ok (tt, mkSt (world st1) (set_score (score (game st1) + 1) (game st1))) ∧
      loop fuel env st =
        Ok (tt, mkSt (world st1) (set_lastDrop (dateNow env) (game st1))) ∧
      score (game st1) = score (game st) ∧
      currentY (game st1) = currentY (game st) + 1
  | Ok (false, st1) =>
      st1 = st ∧
      handleGameInput fuel env "s" st = placePiece fuel (random1 env) (isoDate env) st ∧
      loop fuel env st =
        (placePiece fuel (random1 env) (isoDate env);;
         assign (set_lastDrop (dateNow env))) st
  | Err e =>
      handleGameInput fuel env "s" st = Err e ∧ loop fuel env st = Err e
  end.
Proof.
  intros Hs Hdue.
  assert (Hloop : loop fuel env st =
            match movePiece 0 1 st with
            | Ok (moved, st1) =>
                ((if negb moved then placePiece fuel (random1 env) (isoDate env) else ret tt);;
                 assign (set_lastDrop (dateNow env))) st1
            | Err e => Err e
            end).
  { unfold loop. unfold bind at 1, this at 1. simpl. rewrite Hs. simpl.
    destruct (Z.gtb_spec (dateNow env - lastDrop (game st)) (dropTime (game st))); [|lia].
    unfold bind at 1. destruct (movePiece 0 1 st) as [[moved st1]|e]; reflexivity. }
  assert (Hkey : handleGameInput fuel env "s" st =
            match movePiece 0 1 st with
            | Ok (moved, st1) =>
                (if moved then assign (λ g, set_score (score g + 1) g)
                 else placePiece fuel (random1 env) (isoDate env)) st1
            | Err e => Err e
            end).
  { unfold handleGameInput. eval_keys. cbv iota.
    unfold bind at 1. destruct (movePiece 0 1 st) as [[[|] st1]|e]; reflexivity. }
  rewrite Hloop, Hkey. rewrite (movePiece_unfold 0 1 st).
  destruct (checkCollision _ _ _ _) as [[|]|e]; simpl.
  - split; [reflexivity|]. split; reflexivity.
  - unfold assign, bind, ret. simpl. repeat split; reflexivity.
  - split; reflexivity.
Qed.

Lemma soft_drop_and_gravity_witness :
  match movePiece 0 1 playingSt with
  | Ok (true, st1) =>
      handleGameInput 41 (envAt 5000) "s" playingSt =
        Ok (tt, mkSt (world st1) (set_score (score (game st1) + 1) (game st1))) ∧
      loop 41 (envAt 5000) playingSt =
        Ok (tt, mkSt (world st1) (set_lastDrop (dateNow (envAt 5000)) (game st1))) ∧
      score (game st1) = score (game playingSt) ∧
      currentY (game st1) = currentY (game playingSt) + 1
  | Ok (false, st1) =>
      st1 = playingSt ∧
      handleGameInput 41 (envAt 5000) "s" playingSt =
        placePiece 41 (random1 (envAt 5000)) (isoDate (envAt 5000)) playingSt ∧
      loop 41 (envAt 5000) playingSt =
        (placePiece 41 (random1 (envAt 5000)) (isoDate (envAt 5000));;
         assign (set_lastDrop (dateNow (envAt 5000)))) playingSt
  | Err e =>
      handleGameInput 41 (envAt 5000) "s" playingSt = Err e ∧
      loop 41 (envAt 5000) playingSt = Err e
  end.
Proof.
  apply (soft_drop_and_gravity 41 (envAt 5000) playingSt).
  - vm_compute. reflexivity.
  - vm_compute. reflexivity.
Defined.

(** C3 as stated fails: a descent of one row driven by the timer does not
    add 1 to the score. *)
Lemma gravity_descent_leaves_score :
  ¬ (∀ (fuel : nat) (env : Env) (st st' : St),
       state (game st) = PLAYING →
       loop fuel env st = Ok (tt, st') →
       currentY (game st') = currentY (game st) + 1 →
       score (game st') = score (game st) + 1).
Proof.
  intros H.
  specialize (H 41%nat (envAt 5000) playingSt
                (stOf (loop 41 (envAt 5000) playingSt) playingSt)).
  assert (Hs : state (game playingSt) = PLAYING) by (vm_compute; reflexivity).
  assert (Hl : loop 41 (envAt 5000) playingSt =
               Ok (tt, stOf (loop 41 (envAt 5000) playingSt) playingSt))
    by (apply ok_stOf; vm_compute; reflexivity).
  assert (Hy : currentY (game (stOf (loop 41 (envAt 5000) playingSt) playingSt)) =
               currentY (game playingSt) + 1) by (vm_compute; reflexivity).
  specialize (H Hs Hl Hy).
  assert (H0 : score (game (stOf (loop 41 (envAt 5000) playingSt) playingSt)) = 0)
    by (vm_compute; reflexivity).
  assert (H1 : score (game playingSt) = 0) by (vm_compute; reflexivity).
  rewrite H0, H1 in H. discriminate H.
Qed.

(** ** The leaderboard screen *)

Lemma handleHighScoresInput_welcome (key : string) (st : St) :
  state (game st) = HIGH_SCORES →
  handleHighScoresInput key st = Ok (tt, mkSt (world st) (set_state WELCOME (game st))).
Proof.
  intros Hs. unfold handleHighScoresInput. unmonad_goal. rewrite Hs. reflexivity.
Qed.

(** On the leaderboard screen every key but the quit keys leads to the
    welcome screen, whatever game the session holds. *)
Lemma onData_highScores (fuel : nat) (env : Env) (key : string) (st : St) :
  state (game st) = HIGH_SCORES →
  isKey key ["q"; ETX] = false →
  onData fuel env key st = Ok (tt, mkSt (world st) (set_state WELCOME (game st))).
Proof.
  intros Hs Hq. unfold onData. rewrite Hq. unfold bind, this. simpl. rewrite Hs.
  now apply handleHighScoresInput_welcome.
Qed.

(** C2, evaluated.  A game is running ([PLAYING], a piece is falling); the
    player opens the leaderboard with [h] and then presses a key: the
    session is on the welcome screen, not back in the game, and so it is for
    every key that is not a quit key. *)
Theorem leaderboard_key_leaves_game :
  reachable leaderboardSt ∧
  state (game playingSt) = PLAYING ∧
  step 41 (envAt 50) (Data "h") playingSt = Ok (tt, leaderboardSt) ∧
  state (game leaderboardSt) = HIGH_SCORES ∧
  currentPiece (game leaderboardSt) = Some [[0;1;0];[1;1;1]] ∧
  state (game (stOf (step 41 (envAt 60) (Data "x") leaderboardSt) leaderboardSt)) = WELCOME ∧
  ∀ fuel env key,
    isKey key ["q"; ETX] = false →
    step fuel env (Data key) leaderboardSt =
      Ok (tt, mkSt (world leaderboardSt) (set_state WELCOME (game leaderboardSt))).
Proof.
  split; [apply leaderboardSt_reachable|].
  split; [vm_compute; reflexivity|].
  split; [apply ok_stOf; vm_compute; reflexivity|].
  assert (Hs : state (game leaderboardSt) = HIGH_SCORES) by (vm_compute; reflexivity).
  split; [exact Hs|].
  split; [vm_compute; reflexivity|].
  split; [vm_compute; reflexivity|].
  intros fuel env key Hq.
  assert (He : streamEnded (game leaderboardSt) = false) by (vm_compute; reflexivity).
  unfold step, bind at 1, this at 1. rewrite He.
  apply onData_highScores; assumption.
Qed.

(* ================================================================== *)
(** * Further properties of the store *)

Section Store.

Implicit Types (hs l : list Entry.t) (e x : Entry.t) (pid : string).

Lemma find_unique pid l e :
  NoDup (ids l) → e ∈ l → Entry.playerId e = pid →
  List.find (isPlayer pid) l = Some e.
Proof.
  unfold ids. induction l as [|x l IH]; simpl; intros Hnd Hin He.
  - apply elem_of_nil in Hin as [].
  - apply NoDup_cons in Hnd as [Hx Hnd].
    destruct (isPlayer pid x) eqn:Hp.
    + apply isPlayer_true in Hp.
      apply elem_of_cons in Hin as [-> | Hin]; [reflexivity|].
      exfalso. apply Hx. rewrite Hp, <- He. now apply list_elem_of_fmap_2.
    + apply isPlayer_false in Hp.
      apply elem_of_cons in Hin as [-> | Hin]; [contradiction | auto].
Qed.

Lemma findIndex_absent pid l : pid ∉ ids l → findIndex (isPlayer pid) l = -1.
Proof.
  intros Hn. apply findIndexFrom_all_false. rewrite Forall_forall. intros x Hx.
  apply isPlayer_false. intros E. apply Hn. rewrite <- E.
  now apply list_elem_of_fmap_2.
Qed.

Lemma findIndex_range {A : Type} (p : A → bool) (l : list A) :
  -1 <= findIndex p l < Z.of_nat (length l) ∨ (l = [] ∧ findIndex p l = -1).
Proof.
  unfold findIndex. destruct (findIndexFrom_spec p l 0) as [_ H].
  destruct H as [H | H]; [lia | | left; lia].
  destruct l; [right; auto | left; simpl length; lia].
Qed.

Lemma findIndex_app_first {A : Type} (p : A → bool) (l1 l2 : list A) (a : A) :
  Forall (λ b, p b = false) l1 → p a = true →
  findIndex p (l1 ++ a :: l2) = Z.of_nat (length l1).
Proof.
  unfold findIndex. intros H Ha.
  assert (G : ∀ i, findIndexFrom p i (l1 ++ a :: l2) = i + Z.of_nat (length l1)).
  { induction H as [|b l1 Hb _ IH]; intros i; simpl.
    - rewrite Ha. lia.
    - rewrite Hb, IH. lia. }
  rewrite G. lia.
Qed.

Lemma insertByScore_front x l :
  (∀ y l', l = y :: l' → Entry.score y <= Entry.score x) →
  insertByScore x l = x :: l.
Proof.
  destruct l as [|y l']; simpl; [reflexivity|]. intros H.
  specialize (H y l' eq_refl).
  destruct (Entry.score y - Entry.score x >? 0) eqn:E; [lia | reflexivity].
Qed.

(** Where a new entry lands in a list that is in order: behind everything
    that scores at least as much, in front of everything that scores less. *)
Lemma foldr_insert_sorted e hs :
  sortedDesc hs →
  foldr insertByScore [e] hs =
    List.filter (λ x, Entry.score e <=? Entry.score x) hs
      ++ e :: List.filter (λ x, Entry.score x <? Entry.score e) hs.
Proof.
  induction 1 as [|x l Hs IH Hall]; simpl; [reflexivity|].
  rewrite IH. destruct (Z.leb_spec (Entry.score e) (Entry.score x)) as [Hle|Hlt].
  - destruct (Z.ltb_spec (Entry.score x) (Entry.score e)); [lia|].
    simpl. apply insertByScore_front. intros y l' Heq.
    destruct (List.filter _ l) as [|z A] eqn:HA; simpl in Heq; injection Heq as <- _; [lia|].
    assert (Hz : In z (List.filter (λ x0, Entry.score e <=? Entry.score x0) l))
      by (rewrite HA; now left).
    apply List.filter_In in Hz as [Hz _]. apply list_elem_of_In in Hz.
    rewrite Forall_forall in Hall. specialize (Hall z Hz). lia.
  - destruct (Z.ltb_spec (Entry.score x) (Entry.score e)); [|lia].
    assert (HA : List.filter (λ x0, Entry.score e <=? Entry.score x0) l = []).
    { clear -Hall Hlt. induction Hall as [|y l Hy _ IHl]; simpl; [reflexivity|].
      destruct (Z.leb_spec (Entry.score e) (Entry.score y)); [lia | exact IHl]. }
    assert (HB : List.filter (λ x0, Entry.score x0 <? Entry.score e) l = l).
    { clear -Hall Hlt. induction Hall as [|y l Hy _ IHl]; simpl; [reflexivity|].
      destruct (Z.ltb_spec (Entry.score y) (Entry.score e)); [now rewrite IHl | lia]. }
    rewrite HA, HB. simpl.
    destruct (Entry.score e - Entry.score x >? 0) eqn:E; [|lia].
    f_equal. apply insertByScore_front. intros y l' ->.
    apply Forall_cons in Hall as [Hy _]. lia.
Qed.

Lemma length_sortByScore l : length (sortByScore l) = length l.
Proof. apply Permutation_length, sortByScore_perm. Qed.

Lemma upserted_present p e hs old :
  List.find (isPlayer (Player.id p)) hs = Some old →
  upserted p e hs =
    if Entry.score e >? Entry.score old
    then <[Z.to_nat (findIndex (isPlayer (Player.id p)) hs) := e]> hs else hs.
Proof.
  intros Hold. pose proof (find_findIndex (isPlayer (Player.id p)) hs) as Hfi.
  rewrite Hold in Hfi. destruct Hfi as [Hi Hlk].
  unfold upserted. destruct (Z.geb_spec (findIndex (isPlayer (Player.id p)) hs) 0); [|lia].
  now rewrite Hlk.
Qed.

Lemma updateHighScore_playerData p sc lv ln now w rank w' (rec : PlayerRecord.t) :
  playerData w !! Player.id p = Some rec →
  updateHighScore p sc lv ln now w = Ok (rank, w') →
  playerData w' =
    <[Player.id p :=
        PlayerRecord.with_scores
          (take 5 (Entry.mk (Player.id p) (Player.name p) sc lv ln now
                     :: default [] (PlayerRecord.scores rec))) rec]> (playerData w).
Proof.
  intros Hrec. unfold updateHighScore. rewrite Hrec. cbv zeta.
  match goal with |- match ?X with _ => _ end = _ → _ => destruct X as [hs1|err] end;
    [|discriminate].
  intros Hup. injection Hup as _ <-. simpl. f_equal. f_equal.
  unfold slice0, MAX_PLAYER_HISTORY.
  destruct (Z.gtb_spec (Z.of_nat (S (length (default [] (PlayerRecord.scores rec))))) 5);
    [reflexivity|].
  symmetry. f_equal. apply take_ge. lia.
Qed.

End Store.

(** X1.  Every call of [updateHighScore] that returns puts the finished
    game at the head of the player's own history and keeps the five most
    recent games, in order, dropping the oldest; nobody else's record is
    touched. *)
Theorem updateHighScore_history (p : Player.t) (sc lv ln : Z) (now : string) (w : World) :
  is_Some (playerData w !! Player.id p) →
  ∃ rank w' rec rec',
    updateHighScore p sc lv ln now w = Ok (rank, w') ∧
    playerData w !! Player.id p = Some rec ∧
    playerData w' !! Player.id p = Some rec' ∧
    PlayerRecord.scores rec' =
      Some (take 5 (Entry.mk (Player.id p) (Player.name p) sc lv ln now
                      :: default [] (PlayerRecord.scores rec))) ∧
    PlayerRecord.name rec' = PlayerRecord.name rec ∧
    PlayerRecord.firstSeen rec' = PlayerRecord.firstSeen rec ∧
    (∀ pid, pid ≠ Player.id p → playerData w' !! pid = playerData w !! pid).
Proof.
  intros [rec Hrec].
  destruct (updateHighScore_returns p sc lv ln now w (ex_intro _ rec Hrec)) as (rank & w' & Hup).
  pose proof (updateHighScore_playerData p sc lv ln now w rank w' rec Hrec Hup) as Hpd.
  exists rank, w', rec. eexists.
  split; [exact Hup|]. split; [exact Hrec|].
  split; [rewrite Hpd; apply lookup_insert_eq|]. simpl.
  split; [reflexivity|]. split; [reflexivity|]. split; [reflexivity|].
  intros pid Hne. rewrite Hpd. now apply lookup_insert_ne.
Qed.

Lemma updateHighScore_history_witness :
  ∃ rank w' rec rec',
    updateHighScore (nthPlayer 0) 300 1 0 someDate oneWorld = Ok (rank, w') ∧
    playerData oneWorld !! Player.id (nthPlayer 0) = Some rec ∧
    playerData w' !! Player.id (nthPlayer 0) = Some rec' ∧
    PlayerRecord.scores rec' =
      Some (take 5 (Entry.mk (Player.id (nthPlayer 0)) (Player.name (nthPlayer 0)) 300 1 0 someDate
                      :: default [] (PlayerRecord.scores rec))) ∧
    PlayerRecord.name rec' = PlayerRecord.name rec ∧
    PlayerRecord.firstSeen rec' = PlayerRecord.firstSeen rec ∧
    (∀ pid, pid ≠ Player.id (nthPlayer 0) → playerData w' !! pid = playerData oneWorld !! pid).
Proof.
  apply updateHighScore_history.
  apply (bool_decide_unpack _). vm_compute. exact I.
Defined.

(** X2.  A player who is on the board stays on it: after a finished game
    the board has as many entries as before, the player's best is the larger
    of the old best and the new score, and the rank returned is at least
    1. *)
Theorem updateHighScore_personal_best (p : Player.t) (sc lv ln : Z) (now : string) (w : World) :
  lb_reachable w →
  Player.id p ∈ ids (highScores w) →
  is_Some (playerData w !! Player.id p) →
  ∃ rank w',
    updateHighScore p sc lv ln now w = Ok (rank, w') ∧
    getPlayerBestScore (Player.id p) w' = Z.max (getPlayerBestScore (Player.id p) w) sc ∧
    1 <= rank ∧
    length (highScores w') = length (highScores w).
Proof.
  intros Hr Hin Hrec.
  destruct (lb_reachable_keeps w Hr) as (Hnd & _ & Hlen).
  destruct (updateHighScore_returns p sc lv ln now w Hrec) as (rank & w' & Hup).
  exists rank, w'. split; [exact Hup|].
  destruct (updateHighScore_unfold _ _ _ _ _ _ _ _ Hup) as [Hhs Hrank].
  destruct (find_some_of_id _ _ Hin) as [old Hold].
  set (e := Entry.mk (Player.id p) (Player.name p) sc lv ln now) in *.
  pose proof (upserted_present p e (highScores w) old Hold) as HU.
  pose proof (find_findIndex (isPlayer (Player.id p)) (highScores w)) as Hfi.
  rewrite Hold in Hfi. destruct Hfi as [Hi Hlk].
  assert (Hold_id : Entry.playerId old = Player.id p).
  { apply List.find_some in Hold as [_ Hp]. now apply isPlayer_true in Hp. }
  assert (HUlen : length (upserted p e (highScores w)) = length (highScores w)).
  { rewrite HU. destruct (Entry.score e >? Entry.score old); [apply length_insert | reflexivity]. }
  assert (Hhs' : highScores w' = sortByScore (upserted p e (highScores w))).
  { rewrite Hhs. unfold slice0. apply take_ge. rewrite length_sortByScore, HUlen.
    change (Z.to_nat (Z.min 50 MAX_HIGHSCORE_ENTRIES)) with 50%nat. lia. }
  set (best := if Entry.score e >? Entry.score old then e else old).
  assert (Hbest_in : best ∈ upserted p e (highScores w)).
  { rewrite HU. unfold best. destruct (Entry.score e >? Entry.score old).
    - eapply list_elem_of_lookup_2. apply list_lookup_insert_eq.
      eapply lookup_lt_Some, Hlk.
    - eapply list_elem_of_lookup_2, Hlk. }
  assert (Hbest_id : Entry.playerId best = Player.id p).
  { unfold best. destruct (Entry.score e >? Entry.score old); [reflexivity | exact Hold_id]. }
  assert (Hfind : List.find (isPlayer (Player.id p)) (highScores w') = Some best).
  { rewrite Hhs'. apply find_unique; [| |exact Hbest_id].
    - unfold ids. rewrite sortByScore_perm. now apply upserted_NoDup.
    - now rewrite sortByScore_perm. }
  split; [|split].
  - unfold getPlayerBestScore. rewrite Hfind, Hold. unfold best.
    destruct (Z.gtb_spec (Entry.score e) (Entry.score old)); simpl in *; lia.
  - pose proof (find_findIndex (isPlayer (Player.id p)) (highScores w')) as Hfi'.
    rewrite Hfind in Hfi'. lia.
  - now rewrite Hhs', length_sortByScore.
Qed.

Lemma updateHighScore_personal_best_witness :
  ∃ rank w',
    updateHighScore (nthPlayer 0) 700 1 0 someDate oneWorld = Ok (rank, w') ∧
    getPlayerBestScore (Player.id (nthPlayer 0)) w' =
      Z.max (getPlayerBestScore (Player.id (nthPlayer 0)) oneWorld) 700 ∧
    1 <= rank ∧
    length (highScores w') = length (highScores oneWorld).
Proof.
  apply updateHighScore_personal_best.
  - apply playAll_reachable; [apply lb_empty | vm_compute; reflexivity].
  - apply (bool_decide_unpack _). vm_compute. exact I.
  - apply (bool_decide_unpack _). vm_compute. exact I.
Defined.

(** X3.  The number [updateHighScore] returns is the player's 1-based
    position on the new board: it is 0 exactly when the player is not on the
    board (cut off at the end), and otherwise the entry at that position is
    the player's; it never exceeds the length of the board. *)
Theorem updateHighScore_rank (p : Player.t) (sc lv ln : Z) (now : string) (w : World) :
  is_Some (playerData w !! Player.id p) →
  ∃ rank w',
    updateHighScore p sc lv ln now w = Ok (rank, w') ∧
    0 <= rank <= Z.of_nat (length (highScores w')) ∧
    (rank = 0 ↔ Player.id p ∉ ids (highScores w')) ∧
    (1 <= rank →
     ∃ e, highScores w' !! Z.to_nat (rank - 1) = Some e ∧
          Entry.playerId e = Player.id p ∧
          Forall (λ x, Entry.playerId x ≠ Player.id p)
                 (take (Z.to_nat (rank - 1)) (highScores w'))).
Proof.
  intros Hrec.
  destruct (updateHighScore_returns p sc lv ln now w Hrec) as (rank & w' & Hup).
  exists rank, w'. split; [exact Hup|].
  destruct (updateHighScore_unfold _ _ _ _ _ _ _ _ Hup) as [_ Hrank].
  pose proof (findIndex_range (isPlayer (Player.id p)) (highScores w')) as Hrange.
  split; [|split].
  - destruct Hrange as [? | [E ?]]; [lia|]. rewrite E in *. simpl. lia.
  - split.
    + intros H0 Hin. destruct (find_some_of_id _ _ Hin) as [e He].
      pose proof (find_findIndex (isPlayer (Player.id p)) (highScores w')) as Hfi.
      rewrite He in Hfi. lia.
    + intros Hn. rewrite Hrank, (findIndex_absent _ _ Hn). reflexivity.
  - intros H1.
    destruct (findIndex_some (isPlayer (Player.id p)) (highScores w')) as (e & He & Hp & Hall);
      [lia|].
    replace (rank - 1) with (findIndex (isPlayer (Player.id p)) (highScores w')) by lia.
    exists e. split; [exact He|]. split; [now apply isPlayer_true|].
    eapply Forall_impl; [exact Hall|]. intros x Hx. now apply isPlayer_false.
Qed.

Lemma updateHighScore_rank_witness :
  ∃ rank w',
    updateHighScore (nthPlayer 50) 5 1 0 someDate fiftyWorld = Ok (rank, w') ∧
    0 <= rank <= Z.of_nat (length (highScores w')) ∧
    (rank = 0 ↔ Player.id (nthPlayer 50) ∉ ids (highScores w')) ∧
    (1 <= rank →
     ∃ e, highScores w' !! Z.to_nat (rank - 1) = Some e ∧
          Entry.playerId e = Player.id (nthPlayer 50) ∧
          Forall (λ x, Entry.playerId x ≠ Player.id (nthPlayer 50))
                 (take (Z.to_nat (rank - 1)) (highScores w'))).
Proof.
  apply updateHighScore_rank.
  apply (bool_decide_unpack _). vm_compute. exact I.
Defined.

(** X4.  A player who is not yet on a board with room left is entered
    behind every entry that scores at least as much and in front of every
    entry that scores less; the other entries keep their order, and the rank
    returned is the newcomer's position. *)
Theorem updateHighScore_newcomer (p : Player.t) (sc lv ln : Z) (now : string) (w : World) :
  lb_reachable w →
  Player.id p ∉ ids (highScores w) →
  (length (highScores w) < 50)%nat →
  is_Some (playerData w !! Player.id p) →
  ∃ rank w',
    updateHighScore p sc lv ln now w = Ok (rank, w') ∧
    highScores w' =
      List.filter (λ x, sc <=? Entry.score x) (highScores w)
        ++ Entry.mk (Player.id p) (Player.name p) sc lv ln now
        :: List.filter (λ x, Entry.score x <? sc) (highScores w) ∧
    rank = Z.of_nat (length (List.filter (λ x, sc <=? Entry.score x) (highScores w))) + 1.
Proof.
  intros Hr Hout Hlen Hrec.
  destruct (lb_reachable_keeps w Hr) as (_ & Hs & _).
  destruct (updateHighScore_returns p sc lv ln now w Hrec) as (rank & w' & Hup).
  exists rank, w'. split; [exact Hup|].
  destruct (updateHighScore_unfold _ _ _ _ _ _ _ _ Hup) as [Hhs Hrank].
  set (e := Entry.mk (Player.id p) (Player.name p) sc lv ln now) in *.
  assert (HU : upserted p e (highScores w) = highScores w ++ [e]).
  { unfold upserted. now rewrite (findIndex_absent _ _ Hout). }
  assert (Hsorted : sortByScore (highScores w ++ [e]) =
            List.filter (λ x, sc <=? Entry.score x) (highScores w)
              ++ e :: List.filter (λ x, Entry.score x <? sc) (highScores w)).
  { unfold sortByScore. rewrite foldr_app. simpl. apply (foldr_insert_sorted e _ Hs). }
  assert (Hhs' : highScores w' =
            List.filter (λ x, sc <=? Entry.score x) (highScores w)
              ++ e :: List.filter (λ x, Entry.score x <? sc) (highScores w)).
  { rewrite Hhs, HU. unfold slice0. rewrite take_ge; [exact Hsorted|].
    rewrite length_sortByScore, length_app. simpl.
    change (Z.to_nat (Z.min 50 MAX_HIGHSCORE_ENTRIES)) with 50%nat. lia. }
  split; [exact Hhs'|].
  rewrite Hrank, Hhs'. rewrite findIndex_app_first; [reflexivity| |].
  - rewrite Forall_forall. intros x Hx. apply isPlayer_false. intros E.
    apply Hout. rewrite <- E. apply list_elem_of_fmap_2.
    apply list_elem_of_In in Hx. apply List.filter_In in Hx as [Hx _].
    now apply list_elem_of_In.
  - now apply isPlayer_true.
Qed.

Lemma updateHighScore_newcomer_witness :
  ∃ rank w',
    updateHighScore (nthPlayer 1) 400 1 0 someDate
      (mkWorld (highScores oneWorld) (registered 2)) = Ok (rank, w') ∧
    highScores w' =
      List.filter (λ x, 400 <=? Entry.score x) (highScores oneWorld)
        ++ Entry.mk (Player.id (nthPlayer 1)) (Player.name (nthPlayer 1)) 400 1 0 someDate
        :: List.filter (λ x, Entry.score x <? 400) (highScores oneWorld) ∧
    rank = Z.of_nat (length (List.filter (λ x, 400 <=? Entry.score x) (highScores oneWorld))) + 1.
Proof.
  apply (updateHighScore_newcomer (nthPlayer 1) 400 1 0 someDate
           (mkWorld (highScores oneWorld) (registered 2))).
  - apply lb_players. apply playAll_reachable; [apply lb_empty | vm_compute; reflexivity].
  - apply (bool_decide_unpack _). vm_compute. exact I.
  - vm_compute. lia.
  - apply (bool_decide_unpack _). vm_compute. exact I.
Defined.

Lemma filter_isPlayer_delete (pid pid' : string) (hs : list Entry.t) :
  pid' ≠ pid →
  List.filter (isPlayer pid') (List.filter (λ e, negb (isPlayer pid e)) hs) =
  List.filter (isPlayer pid') hs.
Proof.
  intros Hne. induction hs as [|x hs IH]; simpl; [reflexivity|].
  destruct (isPlayer pid x) eqn:Hp; simpl.
  - destruct (isPlayer pid' x) eqn:Hp'; [|exact IH].
    apply isPlayer_true in Hp, Hp'. congruence.
  - destruct (isPlayer pid' x); now rewrite IH.
Qed.

Lemma bool_filter_sublist {A : Type} (f : A → bool) (l : list A) :
  List.filter f l `sublist_of` l.
Proof.
  induction l as [|x l IH]; simpl; [constructor|].
  destruct (f x); [apply sublist_skip | apply sublist_cons]; exact IH.
Qed.

Lemma filter_isPlayer_self (pid : string) (hs : list Entry.t) :
  List.filter (isPlayer pid) (List.filter (λ e, negb (isPlayer pid e)) hs) = [].
Proof.
  induction hs as [|x hs IH]; simpl; [reflexivity|].
  destruct (isPlayer pid x) eqn:Hp; simpl; [exact IH|]. now rewrite Hp.
Qed.

(** X5.  [deletePlayerAccount] erases the player and nobody else: the
    player has no entry on the board and no record, the best score reads 0
    and an export shows nothing; every other player's entries and record are
    as before, the board keeps its order; and a game the deleted player
    finishes afterwards makes [updateHighScore] raise instead of recording
    it. *)
Theorem deletePlayerAccount_erases (pid : string) (now : string) (w : World) :
  (pid ∉ ids (highScores (deletePlayerAccount pid w))) ∧
  playerData (deletePlayerAccount pid w) !! pid = None ∧
  getPlayerBestScore pid (deletePlayerAccount pid w) = 0 ∧
  ExportData.playerInfo (getPlayerDataExport pid now (deletePlayerAccount pid w)) = None ∧
  ExportData.highScores (getPlayerDataExport pid now (deletePlayerAccount pid w)) = [] ∧
  (highScores (deletePlayerAccount pid w) `sublist_of` highScores w) ∧
  (∀ pid', pid' ≠ pid →
     playerData (deletePlayerAccount pid w) !! pid' = playerData w !! pid' ∧
     getPlayerBestScore pid' (deletePlayerAccount pid w) = getPlayerBestScore pid' w ∧
     ExportData.highScores (getPlayerDataExport pid' now (deletePlayerAccount pid w)) =
       ExportData.highScores (getPlayerDataExport pid' now w)) ∧
  (∀ p sc lv ln d,
     Player.id p = pid →
     updateHighScore p sc lv ln d (deletePlayerAccount pid w) = Err TypeError).
Proof.
  assert (Hout : pid ∉ ids (highScores (deletePlayerAccount pid w))).
  { unfold deletePlayerAccount, ids. simpl. intros Hin.
    apply list_elem_of_fmap in Hin as (e & He & Hin).
    apply list_elem_of_In in Hin. apply List.filter_In in Hin as [_ Hp].
    apply negb_true_iff, isPlayer_false in Hp. congruence. }
  assert (Hfind : ∀ pid', pid' ≠ pid →
            List.find (isPlayer pid') (highScores (deletePlayerAccount pid w)) =
            List.find (isPlayer pid') (highScores w)).
  { clear Hout. intros pid' Hne. unfold deletePlayerAccount. simpl.
    induction (highScores w) as [|x hs IH]; simpl; [reflexivity|].
    destruct (isPlayer pid x) eqn:Hp; simpl.
    - destruct (isPlayer pid' x) eqn:Hp'; [|exact IH].
      apply isPlayer_true in Hp, Hp'. congruence.
    - destruct (isPlayer pid' x); [reflexivity | exact IH]. }
  split; [exact Hout|]. split; [apply lookup_delete_eq|].
  split.
  { unfold getPlayerBestScore.
    destruct (List.find _ _) as [e|] eqn:He; [|reflexivity].
    exfalso. apply Hout. apply List.find_some in He as [Hin Hp].
    apply isPlayer_true in Hp. unfold ids. apply list_elem_of_fmap.
    exists e. split; [now symmetry|]. now apply list_elem_of_In. }
  split; [apply lookup_delete_eq|].
  split; [apply filter_isPlayer_self|].
  split.
  { unfold deletePlayerAccount. simpl. apply bool_filter_sublist. }
  split.
  - intros pid' Hne. split; [now apply lookup_delete_ne|]. split.
    + unfold getPlayerBestScore. now rewrite Hfind.
    + now apply filter_isPlayer_delete.
  - intros p sc lv ln d <-. unfold updateHighScore. cbv zeta.
    replace (playerData (deletePlayerAccount (Player.id p) w) !! Player.id p)
      with (@None PlayerRecord.t) by (symmetry; apply lookup_delete_eq).
    reflexivity.
Qed.

Section IdentityFacts.

Variable sha256hex : string → string.
Variable userIdMatch emailMatch : string → option string.

(** X6.  [getPlayerIdentity] leaves the leaderboard and every other
    player's record alone, creates the record of a fingerprint it sees for
    the first time with an empty history, keeps the history and the first
    date of one it has seen before, and stamps the name and the date; after
    it, a game the returned player finishes is always recorded:
    [updateHighScore] returns. *)
Theorem getPlayerIdentity_registers (keyData now : string) (w : World) :
  ∃ p w1 rec,
    getPlayerIdentity sha256hex userIdMatch emailMatch keyData now w = (p, w1) ∧
    Player.id p = String.substring 0 16 (sha256hex keyData) ∧
    highScores w1 = highScores w ∧
    playerData w1 !! Player.id p = Some rec ∧
    PlayerRecord.name rec = Player.name p ∧
    PlayerRecord.lastSeen rec = now ∧
    PlayerRecord.scores rec =
      match playerData w !! Player.id p with
      | Some old => PlayerRecord.scores old
      | None => Some []
      end ∧
    PlayerRecord.firstSeen rec =
      match playerData w !! Player.id p with
      | Some old => PlayerRecord.firstSeen old
      | None => now
      end ∧
    (∀ pid, pid ≠ Player.id p → playerData w1 !! pid = playerData w !! pid) ∧
    (∀ sc lv ln d, ∃ rank w2, updateHighScore p sc lv ln d w1 = Ok (rank, w2)).
Proof.
  unfold getPlayerIdentity. cbv zeta.
  set (fp := String.substring 0 16 (sha256hex keyData)).
  set (nm := match userIdMatch keyData with
             | Some userId => userId
             | None => match emailMatch keyData with Some email => email | None => fp end
             end).
  destruct (playerData w !! fp) as [old|] eqn:Hold.
  - rewrite Hold. eexists _, _, _. split; [reflexivity|]. simpl.
    split; [reflexivity|]. split; [reflexivity|].
    split; [apply lookup_insert_eq|]. simpl.
    do 2 (split; [reflexivity|]). do 2 (split; [rewrite Hold; reflexivity|]). split.
    + intros pid Hne. now apply lookup_insert_ne.
    + intros sc lv ln d. apply updateHighScore_returns. simpl.
      rewrite lookup_insert_eq. eauto.
  - rewrite lookup_insert_eq. eexists _, _, _. split; [reflexivity|]. simpl.
    split; [reflexivity|]. split; [reflexivity|].
    split; [apply lookup_insert_eq|]. simpl.
    do 2 (split; [reflexivity|]). do 2 (split; [rewrite Hold; reflexivity|]). split.
    + intros pid Hne. rewrite !lookup_insert_ne by congruence. reflexivity.
    + intros sc lv ln d. apply updateHighScore_returns. simpl.
      rewrite lookup_insert_eq. eauto.
Qed.

End IdentityFacts.

(* ================================================================== *)
(** * Protection tracking *)

Section Protection.

Implicit Types (m : gmap string Z) (a : gmap string (list Z)) (ip : string).

Lemma guardRun_snoc (events : list GuardEvent) (ev : GuardEvent) :
  guardRun (events ++ [ev]) = guardStep ev (guardRun events).
Proof. unfold guardRun. now rewrite foldl_app. Qed.

Lemma countsOk_get m ip : countsOk m → 0 <= getActiveConnections ip m <= MAX_CONNECTIONS_PER_IP.
Proof.
  intros H. unfold getActiveConnections, MAX_CONNECTIONS_PER_IP in *.
  destruct (m !! ip) as [n|] eqn:E; simpl; [|lia].
  specialize (H ip n E). unfold MAX_CONNECTIONS_PER_IP in H. destruct (n =? 0); lia.
Qed.

Lemma countsOk_add m ip :
  countsOk m → getActiveConnections ip m < MAX_CONNECTIONS_PER_IP →
  countsOk (addConnection ip m).
Proof.
  intros H Hlt ip' n. unfold addConnection. rewrite lookup_insert.
  pose proof (countsOk_get m ip H).
  case_decide; [intros [= <-]; lia | apply H].
Qed.

Lemma countsOk_remove m ip : countsOk m → countsOk (removeConnection ip m).
Proof.
  intros H ip' n. unfold removeConnection.
  pose proof (countsOk_get m ip H).
  destruct (Z.leb_spec (getActiveConnections ip m) 1).
  - rewrite lookup_delete. case_decide; [discriminate | apply H].
  - rewrite lookup_insert. case_decide; [intros [= <-]; lia | apply H].
Qed.

Lemma guardRun_countsOk (events : list GuardEvent) :
  countsOk (connectionLimits (guardRun events)).
Proof.
  induction events as [|ev events IH] using rev_ind.
  - intros ip n. unfold guardRun. simpl. rewrite lookup_empty. discriminate.
  - rewrite guardRun_snoc. destruct ev as [ip now | ip now | ip | now]; simpl; try exact IH.
    + unfold onClient.
      destruct (Z.geb_spec (getActiveConnections ip (connectionLimits (guardRun events)))
                  MAX_CONNECTIONS_PER_IP); [exact IH|].
      destruct (isIPBlocked _ _ _); [exact IH|]. simpl. now apply countsOk_add.
    + now apply countsOk_remove.
Qed.

Lemma add_remove_id m ip :
  countsOk m → removeConnection ip (addConnection ip m) = m.
Proof.
  intros H. unfold removeConnection, addConnection.
  assert (Hget : getActiveConnections ip
                   (<[ip := getActiveConnections ip m + 1]> m) = getActiveConnections ip m + 1).
  { pose proof (countsOk_get m ip H). unfold getActiveConnections at 1.
    rewrite lookup_insert_eq.
    destruct (Z.eqb_spec (getActiveConnections ip m + 1) 0); [lia | reflexivity]. }
  rewrite Hget. unfold getActiveConnections, MAX_CONNECTIONS_PER_IP in *.
  destruct (m !! ip) as [n|] eqn:E.
  - specialize (H ip n E). destruct (Z.eqb_spec n 0); [lia|].
    destruct (Z.leb_spec (n + 1) 1); [lia|].
    rewrite insert_insert_eq. replace (n + 1 - 1) with n by lia. now apply insert_id.
  - simpl. now apply delete_insert_id.
Qed.

Lemma isIPBlocked_default a ip (now : Z) :
  isIPBlocked ip now a =
  (Z.of_nat (length (recentAttempts now (default [] (a !! ip)))) >=? MAX_AUTH_ATTEMPTS_PER_IP).
Proof. unfold isIPBlocked. destruct (a !! ip); reflexivity. Qed.

Lemma recentAttempts_app (now : Z) (l1 l2 : list Z) :
  recentAttempts now (l1 ++ l2) = recentAttempts now l1 ++ recentAttempts now l2.
Proof. apply List.filter_app. Qed.

Lemma recentAttempts_later (c now : Z) (l : list Z) :
  c <= now → recentAttempts now (recentAttempts c l) = recentAttempts now l.
Proof.
  intros Hle. unfold recentAttempts. induction l as [|t l IH]; simpl; [reflexivity|].
  destruct (Z.ltb_spec (c - t) AUTH_ATTEMPT_WINDOW); simpl.
  - destruct (now - t <? AUTH_ATTEMPT_WINDOW); now rewrite IH.
  - destruct (Z.ltb_spec (now - t) AUTH_ATTEMPT_WINDOW); [lia | exact IH].
Qed.

Lemma cleanup_default a ip (c : Z) :
  default [] (cleanupAuthAttempts c a !! ip) = recentAttempts c (default [] (a !! ip)).
Proof.
  unfold cleanupAuthAttempts. rewrite lookup_omap.
  destruct (a !! ip) as [l|]; simpl; [|reflexivity].
  destruct (recentAttempts c l) eqn:E; reflexivity.
Qed.

Lemma record_default a ip ip' (now : Z) :
  default [] (recordAuthAttempt ip' now a !! ip) =
  default [] (a !! ip) ++ (if bool_decide (ip' = ip) then [now] else []).
Proof.
  unfold recordAuthAttempt. destruct (a !! ip') as [l|] eqn:E.
  - rewrite E. rewrite lookup_insert. case_decide as Hd; case_bool_decide; try congruence.
    + subst. rewrite E. reflexivity.
    + now rewrite app_nil_r.
  - rewrite lookup_insert_eq, insert_insert_eq.
    rewrite lookup_insert. case_decide as Hd; case_bool_decide; try congruence.
    + subst. rewrite E. reflexivity.
    + now rewrite app_nil_r.
Qed.

End Protection.

(** X7.  Whatever clients connect, authenticate and disconnect and
    whenever the cleanup runs, no address is ever counted above
    [MAX_CONNECTIONS_PER_IP]: a stored count is between 1 and 3, and the
    count read for any address between 0 and 3. *)
Theorem connection_cap (events : list GuardEvent) (ip : string) :
  0 <= getActiveConnections ip (connectionLimits (guardRun events)) <= MAX_CONNECTIONS_PER_IP ∧
  (∀ n, connectionLimits (guardRun events) !! ip = Some n → 1 <= n <= MAX_CONNECTIONS_PER_IP).
Proof.
  pose proof (guardRun_countsOk events) as H.
  split; [now apply countsOk_get | apply H].
Qed.

(** X8.  Counting a connection and then uncounting it restores the map of
    counts exactly, in every state the server's bookkeeping can be in;
    uncounting an address lowers its count by one but never below zero (an
    address without connections is left alone) and changes no other
    address. *)
Theorem connection_count_round_trip (events : list GuardEvent) (ip : string) :
  let m := connectionLimits (guardRun events) in
  removeConnection ip (addConnection ip m) = m ∧
  getActiveConnections ip (addConnection ip m) = getActiveConnections ip m + 1 ∧
  getActiveConnections ip (removeConnection ip m) = Z.max 0 (getActiveConnections ip m - 1) ∧
  (∀ ip', ip' ≠ ip →
     getActiveConnections ip' (addConnection ip m) = getActiveConnections ip' m ∧
     getActiveConnections ip' (removeConnection ip m) = getActiveConnections ip' m).
Proof.
  intros m. pose proof (guardRun_countsOk events) as H. fold m in H.
  pose proof (countsOk_get m ip H) as Hget.
  split; [now apply add_remove_id|]. split; [|split].
  - unfold addConnection. unfold getActiveConnections at 1. rewrite lookup_insert_eq.
    destruct (Z.eqb_spec (getActiveConnections ip m + 1) 0); [lia | reflexivity].
  - unfold removeConnection.
    destruct (Z.leb_spec (getActiveConnections ip m) 1).
    + unfold getActiveConnections at 1. rewrite lookup_delete_eq. lia.
    + unfold getActiveConnections at 1. rewrite lookup_insert_eq.
      destruct (Z.eqb_spec (getActiveConnections ip m - 1) 0); lia.
  - intros ip' Hne. split.
    + unfold addConnection. unfold getActiveConnections at 1.
      rewrite lookup_insert_ne by congruence. reflexivity.
    + unfold removeConnection. destruct (getActiveConnections ip m <=? 1);
        unfold getActiveConnections at 1;
        [rewrite lookup_delete_ne by congruence | rewrite lookup_insert_ne by congruence];
        reflexivity.
Qed.

(** X9.  An address is blocked exactly when five or more of its
    authentication attempts lie within the last [AUTH_ATTEMPT_WINDOW]
    milliseconds: the verdict at a time that no cleanup has run after
    depends only on the attempts made, not on what the cleanup timer has
    removed. *)
Theorem isIPBlocked_counts_recent (events : list GuardEvent) (ip : string) (now : Z) :
  Forall (λ c, c <= now) (cleanupTimes events) →
  isIPBlocked ip now (authAttempts (guardRun events)) =
  (MAX_AUTH_ATTEMPTS_PER_IP <=?
     Z.of_nat (length (recentAttempts now (authTimes ip events)))).
Proof.
  intros Hc.
  assert (H : recentAttempts now (default [] (authAttempts (guardRun events) !! ip)) =
              recentAttempts now (authTimes ip events)).
  { induction events as [|ev events IH] using rev_ind; [reflexivity|].
    unfold cleanupTimes in Hc. rewrite flat_map_app in Hc.
    apply Forall_app in Hc as [Hc Hev]. specialize (IH Hc).
    rewrite guardRun_snoc. unfold authTimes. rewrite flat_map_app.
    fold (authTimes ip events). rewrite recentAttempts_app, <- IH.
    destruct ev as [ip' t | ip' t | ip' | c]; simpl.
    - rewrite app_nil_r. unfold onClient.
      destruct (_ >=? _); [reflexivity|]. destruct (isIPBlocked _ _ _); reflexivity.
    - rewrite record_default, recentAttempts_app, app_nil_r. reflexivity.
    - now rewrite app_nil_r.
    - rewrite app_nil_r, cleanup_default. apply recentAttempts_later.
      simpl in Hev. now apply Forall_cons in Hev as [Hev _]. }
  rewrite isIPBlocked_default, H.
  destruct (Z.geb_spec (Z.of_nat (length (recentAttempts now (authTimes ip events))))
              MAX_AUTH_ATTEMPTS_PER_IP);
    destruct (Z.leb_spec MAX_AUTH_ATTEMPTS_PER_IP
                (Z.of_nat (length (recentAttempts now (authTimes ip events))))); lia || reflexivity.
Qed.

Lemma isIPBlocked_counts_recent_witness :
  isIPBlocked "10.0.0.1" 1000
    (authAttempts (guardRun [ClientConnects "10.0.0.1" 0;
                             ClientAuthenticates "10.0.0.1" 10;
                             CleanupFires 500;
                             ClientAuthenticates "10.0.0.1" 600])) =
  (MAX_AUTH_ATTEMPTS_PER_IP <=?
     Z.of_nat (length (recentAttempts 1000
        (authTimes "10.0.0.1" [ClientConnects "10.0.0.1" 0;
                               ClientAuthenticates "10.0.0.1" 10;
                               CleanupFires 500;
                               ClientAuthenticates "10.0.0.1" 600])))).
Proof.
  apply isIPBlocked_counts_recent.
  vm_compute. repeat constructor; discriminate.
Defined.

(** X10.  The cleanup of [authAttempts] keeps only attempts inside the
    window and no empty list, and it changes no verdict: at the time of the
    cleanup and at every later time, [isIPBlocked] answers the same for
    every address before and after. *)
Theorem cleanupAuthAttempts_keeps_verdict
    (a : gmap string (list Z)) (ip : string) (c now : Z) :
  c <= now →
  isIPBlocked ip now (cleanupAuthAttempts c a) = isIPBlocked ip now a ∧
  (∀ l, cleanupAuthAttempts c a !! ip = Some l →
        l ≠ [] ∧ Forall (λ t, c - t < AUTH_ATTEMPT_WINDOW) l ∧
        ∃ l0, a !! ip = Some l0 ∧ l = recentAttempts c l0).
Proof.
  intros Hle. split.
  - rewrite !isIPBlocked_default, cleanup_default, recentAttempts_later by assumption.
    reflexivity.
  - intros l. unfold cleanupAuthAttempts. rewrite lookup_omap.
    destruct (a !! ip) as [l0|]; simpl; [|discriminate].
    destruct (recentAttempts c l0) as [|t r] eqn:E; simpl; [discriminate|].
    intros [= <-]. split; [discriminate|]. split; [|eauto].
    rewrite <- E. unfold recentAttempts. rewrite Forall_forall. intros x Hx.
    apply list_elem_of_In in Hx. apply List.filter_In in Hx as [_ Hx]. lia.
Qed.

Lemma cleanupAuthAttempts_keeps_verdict_witness :
  isIPBlocked "10.0.0.1" 400000
    (cleanupAuthAttempts 350000 {["10.0.0.1" := [0; 100000; 200000]]}) =
  isIPBlocked "10.0.0.1" 400000 {["10.0.0.1" := [0; 100000; 200000]]} ∧
  (∀ l, cleanupAuthAttempts 350000 {["10.0.0.1" := [0; 100000; 200000]]} !! "10.0.0.1" = Some l →
        l ≠ [] ∧ Forall (λ t, 350000 - t < AUTH_ATTEMPT_WINDOW) l ∧
        ∃ l0, ({["10.0.0.1" := [0; 100000; 200000]]} : gmap string (list Z)) !! "10.0.0.1" = Some l0 ∧
              l = recentAttempts 350000 l0).
Proof.
  apply cleanupAuthAttempts_keeps_verdict. lia.
Defined.

(* ================================================================== *)
(** * Further properties of the engine *)

Section Lock.

Implicit Types (st : St) (g : Game).

Lemma catalogue_first_row (t : PieceType) :
  ∃ row0 rest, shapes t !! 0%nat = Some (row0 :: rest).
Proof. destruct (spawn_free_on_empty t) as (row0 & rest & H & _). eauto. Qed.

(** The two ways [spawnPiece] returns. *)
Lemma spawnPiece_cases drawn iso st st' :
  spawnPiece drawn iso st = Ok (tt, st') →
  ∃ t row0 rest,
    nextType (game st) = Some t ∧ shapes t !! 0%nat = Some (row0 :: rest) ∧
    ((checkCollision (board (game st)) ((10 - Z.of_nat (length row0)) / 2) 0
        (Some (row0 :: rest)) = Ok false ∧
      st' = mkSt (world st) (spawned t drawn row0 (row0 :: rest) (game st)))
     ∨
     (checkCollision (board (game st)) ((10 - Z.of_nat (length row0)) / 2) 0
        (Some (row0 :: rest)) = Ok true ∧
      ∃ rank w',
        updateHighScore (player (game st)) (score (game st)) (level (game st))
          (lines (game st)) iso (world st) = Ok (rank, w') ∧
        st' = mkSt w' (set_state GAME_OVER (spawned t drawn row0 (row0 :: rest) (game st))))).
Proof.
  intros H. destruct (nextType (game st)) as [t|] eqn:Hn.
  - destruct (catalogue_first_row t) as (row0 & rest & Hsh).
    exists t, row0, rest. split; [reflexivity|]. split; [exact Hsh|].
    rewrite (spawnPiece_unfold drawn iso st t row0 rest Hn Hsh) in H. cbv zeta in H.
    destruct (checkCollision _ _ _ _) as [[|]|e]; [| |discriminate H].
    + right. split; [reflexivity|].
      destruct (updateHighScore _ _ _ _ _ _) as [[rank w']|e]; [|discriminate H].
      injection H as <-. eauto.
    + left. split; [reflexivity|]. injection H as <-. reflexivity.
  - exfalso. revert H. unfold spawnPiece. unmonad_goal. rewrite Hn. discriminate.
Qed.

(** What [clearLines] does to the statistics. *)
Lemma clearLines_effect fuel st st' :
  clearLines fuel st = Ok (tt, st') →
  length (board (game st)) = 20%nat →
  ∃ v,
    scoreValues !! countFull (board (game st)) = Some v ∧
    board (game st') = cleared (board (game st)) ∧
    score (game st') = score (game st) + v * level (game st) ∧
    lines (game st') = lines (game st) + Z.of_nat (countFull (board (game st))) ∧
    sameFalling (game st) (game st') ∧ world st' = world st.
Proof.
  intros H Hlen. open_in H clearLines. unmonad H.
  rewrite (clearLinesLoop_board fuel _ Hlen) in H.
  case_bool_decide; simpl in H; [|discriminate H].
  destruct (Z.of_nat (countFull (board (game st))) >? 0) eqn:Hpos; simpl in H.
  - rewrite Nat2Z.id in H.
    destruct (scoreValues !! countFull (board (game st))) as [v|]; simpl in H; [|discriminate H].
    injection H as <-. exists v. unfold sameFalling. simpl.
    split; [reflexivity|]. split; [reflexivity|]. split; [reflexivity|].
    split; [reflexivity|]. split; [repeat split | reflexivity].
  - injection H as <-. exists 0.
    assert (Hk : countFull (board (game st)) = 0%nat) by lia.
    rewrite Hk. unfold sameFalling. simpl.
    split; [reflexivity|]. split; [reflexivity|]. split; [lia|].
    split; [lia|]. split; [repeat split | reflexivity].
Qed.

(** One lock, from placement to the next spawn. *)
Lemma placePiece_effect fuel drawn iso st st' :
  placePiece fuel drawn iso st = Ok (tt, st') →
  board_wf (board (game st)) →
  ∃ sh b1 v t row0 rest,
    currentPiece (game st) = Some sh ∧
    placeCells (board (game st)) (currentX (game st)) (currentY (game st))
      (currentType (game st)) (occupied sh) = Ok b1 ∧
    scoreValues !! countFull b1 = Some v ∧
    nextType (game st) = Some t ∧ shapes t !! 0%nat = Some (row0 :: rest) ∧
    board (game st') = cleared b1 ∧
    score (game st') = score (game st) + v * level (game st) ∧
    lines (game st') = lines (game st) + Z.of_nat (countFull b1) ∧
    currentType (game st') = Some t ∧ nextType (game st') = Some drawn ∧
    currentPiece (game st') = Some (row0 :: rest) ∧
    currentRotation (game st') = 0 ∧
    currentX (game st') = (10 - Z.of_nat (length row0)) / 2 ∧
    currentY (game st') = 0 ∧
    ((checkCollision (cleared b1) ((10 - Z.of_nat (length row0)) / 2) 0
        (Some (row0 :: rest)) = Ok false ∧
      state (game st') = state (game st) ∧ world st' = world st)
     ∨
     (checkCollision (cleared b1) ((10 - Z.of_nat (length row0)) / 2) 0
        (Some (row0 :: rest)) = Ok true ∧
      state (game st') = GAME_OVER ∧
      ∃ rank,
        updateHighScore (player (game st)) (score (game st')) (level (game st'))
          (lines (game st')) iso (world st) = Ok (rank, world st'))).
Proof.
  intros H Hwf. open_in H placePiece.
  apply bind_Ok in H as (g & st0 & Hg & H). unmonad Hg. injection Hg as <- <-.
  destruct (currentPiece (game st)) as [sh|] eqn:Hp; [|discriminate H].
  apply bind_Ok in H as (b1 & st1 & Hb1 & H). unmonad Hb1.
  destruct (placeCells _ _ _ _ _) as [bp|e] eqn:Hplace; [|discriminate Hb1].
  injection Hb1 as <- <-.
  apply bind_Ok in H as ([] & st2 & H2 & H). unmonad H2. injection H2 as <-.
  apply bind_Ok in H as ([] & st3 & H3 & H).
  apply clearLines_effect in H3 as (v & Hv & Hb3 & Hsc3 & Hl3 & Hf3 & Hw3);
    [|simpl; eapply placeCells_wf; eassumption].
  simpl in *.
  destruct Hf3 as (Hs3 & _ & _ & _ & _ & Hn3 & Hpl3). simpl in *.
  apply spawnPiece_cases in H as (t & row0 & rest & Hn & Hsh & Hcase).
  exists sh, bp, v, t, row0, rest.
  rewrite Hn3 in Hn. rewrite Hb3 in Hcase.
  split; [assumption || reflexivity|]. split; [assumption || reflexivity|]. split; [exact Hv|].
  split; [exact Hn|]. split; [exact Hsh|].
  destruct Hcase as [[Hc ->] | (Hc & rank & w' & Hup & ->)]; simpl.
  - do 9 (split; [assumption || reflexivity|]). left. auto.
  - do 9 (split; [assumption || reflexivity|]). right.
    split; [exact Hc|]. split; [reflexivity|]. exists rank.
    rewrite Hpl3, Hw3 in Hup. exact Hup.
Qed.

(** The loop of [hardDrop] only moves the piece down, once per count. *)
Lemma hardDropLoop_path fuel (dropped : Z) st (n : Z) st' :
  hardDropLoop fuel dropped st = Ok (n, st') →
  dropped <= n ∧
  currentY (game st') = currentY (game st) + (n - dropped) ∧
  currentX (game st') = currentX (game st) ∧
  currentPiece (game st') = currentPiece (game st) ∧
  currentType (game st') = currentType (game st) ∧
  nextType (game st') = nextType (game st).
Proof.
  revert dropped st. induction fuel as [|fuel IH]; intros dropped st H; [discriminate H|].
  rewrite hardDropLoop_S, movePiece_unfold in H.
  destruct (checkCollision _ _ _ _) as [[|]|e]; [| |discriminate H].
  - injection H as <- <-. repeat split; lia.
  - apply IH in H as (H1 & H2 & H3 & H4 & H5 & H6). simpl in *.
    repeat split; try assumption; lia.
Qed.

End Lock.

Section Cells.

Implicit Types (b : Board) (piece : Shape) (cells : list (nat * nat)).

Lemma collide_false_free b (x y : Z) piece :
  board_wf b → checkCollision b x y (Some piece) = Ok false →
  ∀ py px, occupiedAt piece py px →
    0 <= x + Z.of_nat px < 10 ∧ y + Z.of_nat py < 20 ∧
    boardCell b (y + Z.of_nat py) (x + Z.of_nat px) = None.
Proof.
  intros Hwf Hc py px Hocc. unfold checkCollision in Hc.
  destruct (collideCells_spec b x y (occupied piece) Hwf) as (r & Hr & Hiff).
  rewrite Hc in Hr. injection Hr as <-.
  assert (Hfree : ¬ cellHits b x y (py, px)).
  { intros Hh. assert (E : false = true); [|discriminate E].
    apply Hiff. exists (py, px). split; [now apply occupied_spec | exact Hh]. }
  unfold cellHits in Hfree. simpl in Hfree.
  split; [lia|]. split; [lia|].
  destruct (boardCell b (y + Z.of_nat py) (x + Z.of_nat px)) as [t|] eqn:E; [|reflexivity].
  exfalso. apply Hfree. right. right. split; [|discriminate].
  unfold boardCell in E. destruct (Z.leb_spec 0 (y + Z.of_nat py)); [lia|].
  simpl in E. discriminate.
Qed.

Lemma writeCell_boardCell b (Y X : Z) (c : Cell) b' (r col : Z) :
  writeCell b Y X c = Ok b' → 0 <= Y →
  boardCell b' r col = if bool_decide (r = Y ∧ col = X) then c else boardCell b r col.
Proof.
  unfold writeCell. destruct (b !! Z.to_nat Y) as [row|] eqn:Hrow; [|discriminate].
  destruct (Z.leb_spec 0 X); [|discriminate].
  destruct (Z.ltb_spec X (Z.of_nat (length row))); [|discriminate].
  simpl. intros [= <-] HY. unfold boardCell.
  destruct (Z.leb_spec 0 r); simpl; [|rewrite bool_decide_eq_false_2 by lia; reflexivity].
  destruct (Z.leb_spec 0 col); simpl; [|rewrite bool_decide_eq_false_2 by lia; reflexivity].
  destruct (decide (r = Y)) as [->|Hr].
  - rewrite list_lookup_insert_eq by (eapply lookup_lt_Some, Hrow). rewrite Hrow.
    destruct (decide (col = X)) as [->|Hc].
    + rewrite bool_decide_eq_true_2 by auto.
      rewrite list_lookup_insert_eq by lia. reflexivity.
    + rewrite bool_decide_eq_false_2 by (intros [_ ?]; contradiction).
      rewrite list_lookup_insert_ne by lia. reflexivity.
  - rewrite bool_decide_eq_false_2 by (intros [? _]; contradiction).
    rewrite list_lookup_insert_ne by lia. reflexivity.
Qed.

Lemma placeCells_cons b (x y : Z) (c : Cell) (py px : nat) cells :
  placeCells b x y c ((py, px) :: cells) =
    if y + Z.of_nat py >=? 0 then
      match writeCell b (y + Z.of_nat py) (x + Z.of_nat px) c with
      | Ok b1 => placeCells b1 x y c cells
      | Err e => Err e
      end
    else placeCells b x y c cells.
Proof. reflexivity. Qed.

(** The cells a placement writes, as a test on the cell. *)
Lemma placeCells_boardCell cells b (x y : Z) (c : Cell) b' (r col : Z) :
  placeCells b x y c cells = Ok b' →
  boardCell b' r col =
    if existsb (λ cell, (r =? y + Z.of_nat cell.1) && (col =? x + Z.of_nat cell.2) && (0 <=? r))
         cells
    then c else boardCell b r col.
Proof.
  revert b. induction cells as [|[py px] rest IH]; intros b.
  - change (placeCells b x y c []) with (Ok b : result Board). now intros [= <-].
  - rewrite placeCells_cons. cbn [existsb fst snd].
    destruct (Z.geb_spec (y + Z.of_nat py) 0) as [HY|HY].
    + destruct (writeCell b (y + Z.of_nat py) (x + Z.of_nat px) c) as [b1|] eqn:Hw; [|discriminate].
      intros H. rewrite (IH b1 H).
      rewrite (writeCell_boardCell b _ _ c b1 r col Hw) by lia.
      destruct (existsb _ rest); [now rewrite orb_true_r|]. rewrite orb_false_r.
      case_bool_decide as Hd.
      * destruct Hd as [-> ->]. rewrite !Z.eqb_refl.
        destruct (Z.leb_spec 0 (y + Z.of_nat py)); [reflexivity | lia].
      * destruct (Z.eqb_spec r (y + Z.of_nat py)); simpl; [|reflexivity].
        destruct (Z.eqb_spec col (x + Z.of_nat px)); simpl; [|reflexivity].
        exfalso. auto.
    + intros H. rewrite (IH b H).
      destruct (Z.eqb_spec r (y + Z.of_nat py)); simpl; [|reflexivity].
      rewrite andb_comm. simpl.
      destruct (Z.leb_spec 0 r); [lia|]. simpl.
      destruct (col =? x + Z.of_nat px); reflexivity.
Qed.

Lemma covers_existsb (x y : Z) piece (r col : Z) :
  existsb (λ cell, (r =? y + Z.of_nat cell.1) && (col =? x + Z.of_nat cell.2) && (0 <=? r))
    (occupied piece) = true ↔ covers x y piece r col ∧ 0 <= r.
Proof.
  rewrite existsb_exists. unfold covers. split.
  - intros ([py px] & Hin & H). simpl in H.
    apply andb_true_iff in H as [H H3]. apply andb_true_iff in H as [H1 H2].
    apply list_elem_of_In, occupied_spec in Hin.
    split; [exists py, px; repeat split; [assumption|lia..] | lia].
  - intros [(py & px & Hocc & -> & ->) Hr]. exists (py, px). split.
    + now apply list_elem_of_In, occupied_spec.
    + simpl. rewrite !Z.eqb_refl. simpl. now apply Z.leb_le.
Qed.

End Cells.



(** X12.  No row of the board is ever full between two handlers: every
    row of a reachable board has an empty cell, so scanning it again with
    [clearLines]'s loop removes nothing and counts 0. *)
Theorem no_full_row_remains (st : St) (fuel : nat) :
  reachable st →
  (20 < fuel)%nat →
  (∀ i row, board (game st) !! i = Some row → ∃ j, row !! j = Some None) ∧
  clearLinesLoop fuel 19 (board (game st)) 0 = Ok (board (game st), 0).
Proof.
  intros Hr Hfuel. apply reachable_inv in Hr as ((Hlen & _) & Hnf & _).
  assert (Hk : countFull (board (game st)) = 0%nat).
  { clear -Hnf. unfold noFullRow, countFull in *.
    induction Hnf as [|r l Hr _ IH]; simpl; [reflexivity|]. now rewrite Hr. }
  split.
  - intros i row Hi. unfold noFullRow in Hnf. rewrite Forall_forall in Hnf.
    specialize (Hnf row (list_elem_of_lookup_2 _ _ _ Hi)).
    clear -Hnf. unfold rowFull in Hnf. induction row as [|c row IH]; simpl in Hnf; [discriminate|].
    destruct c as [t|].
    + rewrite bool_decide_eq_true_2 in Hnf by discriminate. simpl in Hnf.
      destruct (IH Hnf) as [j Hj]. now exists (S j).
    + now exists 0%nat.
  - rewrite (clearLinesLoop_board fuel _ Hlen), Hk.
    rewrite bool_decide_eq_true_2 by lia. unfold cleared. rewrite Hk. simpl.
    f_equal. f_equal.
    clear -Hnf. unfold noFullRow in Hnf.
    induction Hnf as [|r l Hr _ IH]; simpl; [reflexivity|]. rewrite Hr. simpl. now rewrite IH.
Qed.

Lemma no_full_row_remains_witness :
  (∀ i row, board (game playingSt) !! i = Some row → ∃ j, row !! j = Some None) ∧
  clearLinesLoop 21 19 (board (game playingSt)) 0 = Ok (board (game playingSt), 0).
Proof.
  apply no_full_row_remains; [apply playingSt_reachable | lia].
Defined.

(** X13.  Placing a free piece returns a board of the same shape on which
    exactly the cells the piece covers in rows from 0 on hold the tag
    written and every other cell is as before; the covered cells were
    empty, so a placement never overwrites a settled cell. *)
Theorem placeCells_writes (b : Board) (x y : Z) (c : Cell) (piece : Shape) :
  board_wf b →
  checkCollision b x y (Some piece) = Ok false →
  ∃ b',
    placeCells b x y c (occupied piece) = Ok b' ∧
    board_wf b' ∧
    (∀ r col, covers x y piece r col → 0 <= r →
              boardCell b' r col = c ∧ boardCell b r col = None) ∧
    (∀ r col, ¬ (covers x y piece r col ∧ 0 <= r) →
              boardCell b' r col = boardCell b r col).
Proof.
  intros Hwf Hc.
  pose proof (collide_false_free b x y piece Hwf Hc) as Hfree.
  destruct (placeCells_returns (occupied piece) b x y c Hwf) as [b' Hb'].
  { intros [py px] Hin Hh. apply occupied_spec in Hin.
    destruct (Hfree py px Hin) as (H1 & H2 & H3).
    unfold cellHits in Hh. simpl in Hh. rewrite H3 in Hh.
    destruct Hh as [? | [? | [_ ?]]]; [lia | lia | contradiction]. }
  exists b'. split; [exact Hb'|]. split; [eapply placeCells_wf; eassumption|].
  split.
  - intros r col Hcov Hr.
    rewrite (placeCells_boardCell _ _ _ _ _ _ r col Hb').
    rewrite (proj2 (covers_existsb x y piece r col) (conj Hcov Hr)).
    split; [reflexivity|].
    destruct Hcov as (py & px & Hocc & -> & ->). apply (Hfree py px Hocc).
  - intros r col Hn.
    rewrite (placeCells_boardCell _ _ _ _ _ _ r col Hb').
    destruct (existsb _ _) eqn:E; [|reflexivity].
    exfalso. apply Hn. now apply covers_existsb.
Qed.

Lemma placeCells_writes_witness :
  ∃ b',
    placeCells emptyBoard 3 18 (Some PT) (occupied [[0;1;0];[1;1;1]]) = Ok b' ∧
    board_wf b' ∧
    (∀ r col, covers 3 18 [[0;1;0];[1;1;1]] r col → 0 <= r →
              boardCell b' r col = Some PT ∧ boardCell emptyBoard r col = None) ∧
    (∀ r col, ¬ (covers 3 18 [[0;1;0];[1;1;1]] r col ∧ 0 <= r) →
              boardCell b' r col = boardCell emptyBoard r col).
Proof.
  apply placeCells_writes.
  - apply emptyBoard_wf.
  - vm_compute. reflexivity.
Defined.

Section Spawn.

Lemma first_row_width (t : PieceType) (row0 : list Z) (rest : Shape) :
  shapes t !! 0%nat = Some (row0 :: rest) → (2 <= length row0 <= 4)%nat.
Proof. destruct t; intros [= <- <-]; simpl; lia. Qed.

Lemma scoreValues_lookup (k : nat) (v : Z) :
  scoreValues !! k = Some v → (k <= 4)%nat ∧ 0 <= v.
Proof.
  intros H. pose proof (lookup_lt_Some _ _ _ H) as Hk. simpl in Hk.
  split; [lia|].
  do 5 (destruct k as [|k]; [injection H as <-; lia|]). simpl in Hk. lia.
Qed.

(** [startGame] as one assignment. *)
Lemma startGame_unfold (env : Env) (st : St) :
  ∃ row0 rest,
    shapes (random1 env) !! 0%nat = Some (row0 :: rest) ∧
    startGame env st =
      Ok (tt, mkSt (world st)
            (set_state PLAYING
               (spawned (random1 env) (random2 env) row0 (row0 :: rest)
                  (set_nextType (Some (random1 env))
                     (set_lastDrop (dateNow env)
                        (set_dropTime 1000
                           (set_lines 0
                              (set_level 1
                                 (set_score 0 (set_board emptyBoard (game st))))))))))).
Proof.
  destruct (spawn_free_on_empty (random1 env)) as (row0 & rest & Hsh & Hfree).
  exists row0, rest. split; [exact Hsh|].
  unfold startGame. unmonad_goal.
  erewrite spawnPiece_unfold; [|reflexivity | exact Hsh].
  simpl. rewrite Hfree. reflexivity.
Qed.

End Spawn.

(** X14.  A lock counts the rows that are full once the piece is written:
    it adds that number, at most 4, to [lines], adds the table value for it
    (0, 100, 300, 500, 800) times the level before the lock to [score], and
    leaves the board with those rows removed. *)
Theorem lock_scoring (st st' : St) (fuel : nat) (drawn : PieceType) (iso : string) :
  reachable st →
  placePiece fuel drawn iso st = Ok (tt, st') →
  ∃ sh b1 (k : nat) v,
    currentPiece (game st) = Some sh ∧
    placeCells (board (game st)) (currentX (game st)) (currentY (game st))
      (currentType (game st)) (occupied sh) = Ok b1 ∧
    k = countFull b1 ∧ (k <= 4)%nat ∧
    scoreValues !! k = Some v ∧
    lines (game st') = lines (game st) + Z.of_nat k ∧
    score (game st') = score (game st) + v * level (game st) ∧
    board (game st') = cleared b1.
Proof.
  intros Hr H. apply reachable_inv in Hr as (Hwf & _).
  apply placePiece_effect in H
    as (sh & b1 & v & t & row0 & rest & Hp & Hpl & Hv & _ & _ & Hb & Hsc & Hl & _);
    [|exact Hwf].
  exists sh, b1, (countFull b1), v.
  destruct (scoreValues_lookup _ _ Hv) as [Hk _].
  repeat (split; [assumption || reflexivity|]). exact Hb.
Qed.

Lemma lock_scoring_witness :
  ∃ sh b1 (k : nat) v,
    currentPiece (game playingSt) = Some sh ∧
    placeCells (board (game playingSt)) (currentX (game playingSt)) (currentY (game playingSt))
      (currentType (game playingSt)) (occupied sh) = Ok b1 ∧
    k = countFull b1 ∧ (k <= 4)%nat ∧
    scoreValues !! k = Some v ∧
    lines (game (stOf (placePiece 41 PO someDate playingSt) playingSt)) =
      lines (game playingSt) + Z.of_nat k ∧
    score (game (stOf (placePiece 41 PO someDate playingSt) playingSt)) =
      score (game playingSt) + v * level (game playingSt) ∧
    board (game (stOf (placePiece 41 PO someDate playingSt) playingSt)) = cleared b1.
Proof.
  apply (lock_scoring playingSt _ 41 PO someDate).
  - apply playingSt_reachable.
  - apply ok_stOf. vm_compute. reflexivity.
Defined.



(** X16.  A lock ends in exactly one of two ways.  Either the next piece
    is free where it spawns: the screen state and the storage are as
    before.  Or it collides there: the session is in [GAME_OVER] and the
    storage is the one [updateHighScore] returns for the player and the
    final score, level and lines. *)
Theorem lock_ends_game_or_not (st st' : St) (fuel : nat) (drawn : PieceType) (iso : string) :
  reachable st →
  placePiece fuel drawn iso st = Ok (tt, st') →
  (checkCollision (board (game st')) (currentX (game st')) (currentY (game st'))
     (currentPiece (game st')) = Ok false ∧
   state (game st') = state (game st) ∧ world st' = world st)
  ∨
  (checkCollision (board (game st')) (currentX (game st')) (currentY (game st'))
     (currentPiece (game st')) = Ok true ∧
   state (game st') = GAME_OVER ∧
   ∃ rank,
     updateHighScore (player (game st)) (score (game st')) (level (game st'))
       (lines (game st')) iso (world st) = Ok (rank, world st')).
Proof.
  intros Hr H. apply reachable_inv in Hr as (Hwf & _).
  apply placePiece_effect in H
    as (sh & b1 & v & t & row0 & rest & _ & _ & _ & _ & _ & Hb & _ & _ & _ & _ & Hp & _ & Hx & Hy & Hcase);
    [|exact Hwf].
  rewrite Hb, Hx, Hy, Hp. exact Hcase.
Qed.

Lemma lock_ends_game_or_not_witness :
  (checkCollision (board (game (stOf (placePiece 41 PO someDate playingSt) playingSt)))
     (currentX (game (stOf (placePiece 41 PO someDate playingSt) playingSt)))
     (currentY (game (stOf (placePiece 41 PO someDate playingSt) playingSt)))
     (currentPiece (game (stOf (placePiece 41 PO someDate playingSt) playingSt))) = Ok false ∧
   state (game (stOf (placePiece 41 PO someDate playingSt) playingSt)) = state (game playingSt) ∧
   world (stOf (placePiece 41 PO someDate playingSt) playingSt) = world playingSt)
  ∨
  (checkCollision (board (game (stOf (placePiece 41 PO someDate playingSt) playingSt)))
     (currentX (game (stOf (placePiece 41 PO someDate playingSt) playingSt)))
     (currentY (game (stOf (placePiece 41 PO someDate playingSt) playingSt)))
     (currentPiece (game (stOf (placePiece 41 PO someDate playingSt) playingSt))) = Ok true ∧
   state (game (stOf (placePiece 41 PO someDate playingSt) playingSt)) = GAME_OVER ∧
   ∃ rank,
     updateHighScore (player (game playingSt))
       (score (game (stOf (placePiece 41 PO someDate playingSt) playingSt)))
       (level (game (stOf (placePiece 41 PO someDate playingSt) playingSt)))
       (lines (game (stOf (placePiece 41 PO someDate playingSt) playingSt))) someDate
       (world playingSt) =
     Ok (rank, world (stOf (placePiece 41 PO someDate playingSt) playingSt))).
Proof.
  apply (lock_ends_game_or_not playingSt _ 41 PO someDate).
  - apply playingSt_reachable.
  - apply ok_stOf. vm_compute. reflexivity.
Defined.

(** X17.  The piece shown as next is the piece that falls next: after a
    lock the current type is the type that was queued, in its first
    rotation, with its top row in row 0 and centred (the left margin is the
    right margin or one less), and the type just drawn is queued. *)
Theorem next_piece_is_honoured (st st' : St) (fuel : nat) (drawn : PieceType) (iso : string) :
  reachable st →
  placePiece fuel drawn iso st = Ok (tt, st') →
  ∃ t row0 rest,
    nextType (game st) = Some t ∧
    currentType (game st') = Some t ∧
    nextType (game st') = Some drawn ∧
    shapes t !! 0%nat = Some (row0 :: rest) ∧
    currentPiece (game st') = Some (row0 :: rest) ∧
    currentRotation (game st') = 0 ∧
    currentY (game st') = 0 ∧
    0 <= currentX (game st') ∧
    0 <= (10 - (currentX (game st') + Z.of_nat (length row0))) - currentX (game st') <= 1.
Proof.
  intros Hr H. apply reachable_inv in Hr as (Hwf & _).
  apply placePiece_effect in H
    as (sh & b1 & v & t & row0 & rest & _ & _ & _ & Hn & Hsh & _ & _ & _ & Ht & Hn' & Hp & Hrot & Hx & Hy & _);
    [|exact Hwf].
  exists t, row0, rest. do 7 (split; [assumption|]).
  pose proof (first_row_width t row0 rest Hsh) as Hw. rewrite Hx.
  pose proof (Z.div_mod (10 - Z.of_nat (length row0)) 2 ltac:(lia)) as Hd.
  pose proof (Z.mod_pos_bound (10 - Z.of_nat (length row0)) 2 ltac:(lia)) as Hm.
  lia.
Qed.

Lemma next_piece_is_honoured_witness :
  ∃ t row0 rest,
    nextType (game playingSt) = Some t ∧
    currentType (game (stOf (placePiece 41 PO someDate playingSt) playingSt)) = Some t ∧
    nextType (game (stOf (placePiece 41 PO someDate playingSt) playingSt)) = Some PO ∧
    shapes t !! 0%nat = Some (row0 :: rest) ∧
    currentPiece (game (stOf (placePiece 41 PO someDate playingSt) playingSt)) = Some (row0 :: rest) ∧
    currentRotation (game (stOf (placePiece 41 PO someDate playingSt) playingSt)) = 0 ∧
    currentY (game (stOf (placePiece 41 PO someDate playingSt) playingSt)) = 0 ∧
    0 <= currentX (game (stOf (placePiece 41 PO someDate playingSt) playingSt)) ∧
    0 <= (10 - (currentX (game (stOf (placePiece 41 PO someDate playingSt) playingSt))
                + Z.of_nat (length row0)))
         - currentX (game (stOf (placePiece 41 PO someDate playingSt) playingSt)) <= 1.
Proof.
  apply (next_piece_is_honoured playingSt _ 41 PO someDate).
  - apply playingSt_reachable.
  - apply ok_stOf. vm_compute. reflexivity.
Defined.

(** X18.  [startGame] always returns, whatever game the session held: the
    board is empty, score 0, level 1, lines 0, drop interval 1000 ms, the
    first draw is falling from row 0 in its first rotation, the second draw
    is queued, the screen is [PLAYING]; the storage, the player and the
    stream are as before. *)
Theorem startGame_resets (env : Env) (st : St) :
  ∃ st',
    startGame env st = Ok (tt, st') ∧
    world st' = world st ∧
    player (game st') = player (game st) ∧
    streamEnded (game st') = streamEnded (game st) ∧
    state (game st') = PLAYING ∧
    board (game st') = emptyBoard ∧
    score (game st') = 0 ∧ level (game st') = 1 ∧ lines (game st') = 0 ∧
    dropTime (game st') = 1000 ∧ lastDrop (game st') = dateNow env ∧
    currentType (game st') = Some (random1 env) ∧
    nextType (game st') = Some (random2 env) ∧
    currentPiece (game st') = shapes (random1 env) !! 0%nat ∧
    currentRotation (game st') = 0 ∧ currentY (game st') = 0 ∧
    3 <= currentX (game st') <= 4.
Proof.
  destruct (startGame_unfold env st) as (row0 & rest & Hsh & Hstart).
  eexists. split; [exact Hstart|]. simpl.
  do 12 (split; [reflexivity|]). split; [now rewrite Hsh|].
  do 2 (split; [reflexivity|]).
  pose proof (first_row_width _ _ _ Hsh) as Hw.
  pose proof (Z.div_mod (10 - Z.of_nat (length row0)) 2 ltac:(lia)) as Hd.
  pose proof (Z.mod_pos_bound (10 - Z.of_nat (length row0)) 2 ltac:(lia)) as Hm.
  lia.
Qed.

(** ** Steps of a session *)

Section Session.

Implicit Types (st : St) (g : Game).

(** A step that leaves the storage, the player, the queue and the statistics
    alone. *)
Lemma harmless_move iso st st' :
  player (game st') = player (game st) →
  world st' = world st →
  score (game st) <= score (game st') →
  nextType (game st') = nextType (game st) →
  currentY (game st) <= currentY (game st') →
  (inPlay (game st') → inPlay (game st)) →
  harmless iso st st'.
Proof.
  intros Hp Hw Hsc Hn Hy Hin. unfold harmless, ownWrite, scoreKept, queueInv.
  split; [exact Hp|]. split; [now left|]. split; [now left|].
  intros Hq Hin'. destruct (Hq (Hin Hin')) as [Hsome Hy0].
  rewrite Hn. split; [exact Hsome | lia].
Qed.

Lemma harmless_after_move iso st st1 st' :
  player (game st1) = player (game st) →
  world st1 = world st →
  state (game st1) = state (game st) →
  score (game st) <= score (game st1) →
  (queueInv (game st) → queueInv (game st1)) →
  harmless iso st1 st' → harmless iso st st'.
Proof.
  intros Hp Hw Hs Hsc Hq (Hp' & Hown & Hkept & Hq').
  unfold harmless, ownWrite, scoreKept in *.
  rewrite Hp, Hw, Hs in Hown. rewrite Hp in Hp'.
  split; [exact Hp'|]. split; [exact Hown|].
  split; [destruct Hkept as [?|?]; [left; lia | now right] | auto].
Qed.

Lemma harmless_lastDrop iso st st1 (now : Z) :
  harmless iso st st1 →
  harmless iso st (mkSt (world st1) (set_lastDrop now (game st1))).
Proof. intros H. exact H. Qed.

Lemma rotatePiece_falling st (turned : bool) st' :
  rotatePiece st = Ok (turned, st') →
  nextType (game st') = nextType (game st) ∧
  currentY (game st') = currentY (game st) ∧
  currentX (game st') = currentX (game st) ∧
  currentType (game st') = currentType (game st) ∧
  lastDrop (game st') = lastDrop (game st).
Proof.
  intros H. open_in H rotatePiece. unmonad H.
  destruct (currentType (game st)) as [t|] eqn:Ht; [|discriminate H].
  destruct (checkCollision _ _ _ _) as [[|]|e]; simpl in H; try discriminate H;
    injection H as <- <-; simpl; auto.
Qed.

Lemma movePiece_harmless iso (dx dy : Z) st (moved : bool) st' :
  movePiece dx dy st = Ok (moved, st') → 0 <= dy → harmless iso st st'.
Proof.
  intros H Hdy. rewrite movePiece_unfold in H.
  destruct (checkCollision _ _ _ _) as [[|]|e]; try discriminate H;
    injection H as <- <-; apply harmless_move; simpl; auto; lia.
Qed.

Lemma rotatePiece_harmless iso st (turned : bool) st' :
  rotatePiece st = Ok (turned, st') → harmless iso st st'.
Proof.
  intros H. pose proof (rotatePiece_falling _ _ _ H) as (Hn & Hy & _).
  apply rotatePiece_keeps in H as ((_ & _ & _ & _ & Hp) & Hs & Hw & Hsc & _).
  apply harmless_move; try assumption; [lia | lia |].
  unfold inPlay. now rewrite Hs.
Qed.

Lemma placePiece_harmless fuel drawn iso st st' :
  placePiece fuel drawn iso st = Ok (tt, st') →
  gameInv (game st) → harmless iso st st'.
Proof.
  intros H (Hwf & _ & Hst & _).
  pose proof (placePiece_keeps _ _ _ _ _ H Hwf Hst) as (_ & Hp & _).
  apply placePiece_effect in H
    as (sh & b1 & v & t & row0 & rest & _ & _ & Hv & _ & _ & _ & Hsc & _ & _ & Hn & _ & _ & _ & Hy & Hcase);
    [|exact Hwf].
  destruct (scoreValues_lookup _ _ Hv) as [_ Hv0].
  pose proof (statsInv_level _ Hst) as Hlv.
  unfold harmless, ownWrite, scoreKept, queueInv.
  split; [exact Hp|]. split.
  { destruct Hcase as [(_ & _ & Hw) | (_ & Hs & Hup)]; [now left | right; left; auto]. }
  split; [left; nia|].
  intros _ _. rewrite Hn, Hy. split; [eauto | lia].
Qed.

Lemma gameInv_set_score (v : Z) g : gameInv g → gameInv (set_score v g).
Proof. intros H. exact H. Qed.

Lemma hardDrop_harmless fuel drawn iso st st' :
  hardDrop fuel drawn iso st = Ok (tt, st') →
  gameInv (game st) → harmless iso st st'.
Proof.
  intros H Hinv. open_in H hardDrop.
  apply bind_Ok in H as (n & st1 & Hloop & H).
  pose proof (hardDropLoop_path _ _ _ _ _ Hloop) as (Hn & Hy & _ & _ & _ & Hnx).
  apply hardDropLoop_keeps in Hloop as ((_ & _ & _ & _ & Hp) & Hs & Hw & Hsc & Hinv1).
  apply bind_Ok in H as ([] & st2 & H2 & H). unmonad H2. injection H2 as <-.
  apply placePiece_harmless in H; [|apply gameInv_set_score, Hinv1, Hinv].
  eapply harmless_after_move; [..|exact H]; simpl; try assumption; [lia|].
  unfold queueInv, inPlay. simpl. rewrite Hs, Hnx, Hy. intros Hq Hin.
  destruct (Hq Hin). split; [assumption | lia].
Qed.

Lemma startGame_harmless env iso st st' :
  startGame env st = Ok (tt, st') → harmless iso st st'.
Proof.
  intros H. destruct (startGame_unfold env st) as (row0 & rest & _ & Hstart).
  rewrite Hstart in H. injection H as <-.
  unfold harmless, ownWrite, scoreKept, queueInv. simpl.
  split; [reflexivity|]. split; [now left|]. split; [right; auto|].
  intros _ _. split; [eauto | lia].
Qed.

Ltac by_move Hs :=
  apply harmless_move; simpl;
  [reflexivity | reflexivity | lia | reflexivity | lia
  | unfold inPlay; simpl; rewrite ?Hs; intros [E|E]; first [discriminate E | auto]].

Lemma handleGameInput_harmless fuel env key st st' :
  handleGameInput fuel env key st = Ok (tt, st') →
  state (game st) = PLAYING →
  gameInv (game st) → harmless (isoDate env) st st'.
Proof.
  intros H Hs Hinv. open_in H handleGameInput. open_in H restart.
  repeat match type of H with (if ?c then _ else _) _ = _ => destruct c end.
  - apply bind_Ok in H as (m & st1 & Hm & H). unmonad H. injection H as <-.
    eapply movePiece_harmless; [exact Hm | lia].
  - apply bind_Ok in H as (m & st1 & Hm & H). unmonad H. injection H as <-.
    eapply movePiece_harmless; [exact Hm | lia].
  - apply bind_Ok in H as (m & st1 & Hm & H).
    pose proof (movePiece_harmless (isoDate env) _ _ _ _ _ Hm ltac:(lia)) as Hh.
    apply movePiece_keeps in Hm as ((_ & _ & _ & _ & Hp) & Hs1 & Hw & Hsc & Hk).
    destruct m.
    + unmonad H. injection H as <-.
      destruct Hh as (Hp' & Hown & _ & Hq). unfold harmless.
      split; [exact Hp'|]. split; [now left|].
      split; [left; simpl; lia | exact Hq].
    + apply placePiece_harmless in H; [|exact (Hk Hinv)].
      destruct Hh as (_ & _ & _ & Hq).
      eapply harmless_after_move; [..|exact H]; try assumption. lia.
  - apply bind_Ok in H as (m & st1 & Hm & H). unmonad H. injection H as <-.
    eapply rotatePiece_harmless; exact Hm.
  - now apply hardDrop_harmless in H.
  - unmonad H. injection H as <-. by_move Hs.
  - now apply startGame_harmless with (iso := isoDate env) in H.
  - unmonad H. injection H as <-. by_move Hs.
  - unmonad H. injection H as <-. by_move Hs.
Qed.

Lemma onData_harmless fuel env key st st' :
  onData fuel env key st = Ok (tt, st') →
  gameInv (game st) → harmless (isoDate env) st st'.
Proof.
  intros H Hinv. open_in H onData.
  destruct (isKey key ["q"; ETX]).
  { unmonad H. injection H as <-. by_move Hinv. }
  apply bind_Ok in H as (g & st0 & Hg & H). unmonad Hg. injection Hg as <- <-.
  destruct (state (game st)) eqn:Hs.
  - open_in H handleWelcomeInput.
    repeat match type of H with (if ?c then _ else _) _ = _ => destruct c end.
    + unmonad H. injection H as <-. by_move Hs.
    + unmonad H. injection H as <-. by_move Hs.
    + now apply startGame_harmless with (iso := isoDate env) in H.
  - eapply handleGameInput_harmless; eassumption.
  - open_in H handlePausedInput. destruct (isKey key ["p"]);
      unmonad H; injection H as <-; by_move Hs.
  - open_in H handleGameOverInput. open_in H restart.
    repeat match type of H with (if ?c then _ else _) _ = _ => destruct c end.
    + now apply startGame_harmless with (iso := isoDate env) in H.
    + unmonad H. injection H as <-. by_move Hs.
    + unmonad H. injection H as <-. by_move Hs.
  - open_in H handleHighScoresInput. unmonad H. rewrite Hs in H. simpl in H.
    injection H as <-. by_move Hs.
  - open_in H handleAccountMenuInput.
    repeat match type of H with (if ?c then _ else _) _ = _ => destruct c end;
      unmonad H; injection H as <-; by_move Hs.
  - open_in H handleAccountExportInput. unmonad H. injection H as <-. by_move Hs.
  - open_in H handleAccountDeleteInput. destruct (isKey key ["y"]).
    + unmonad H. injection H as <-.
      unfold harmless, ownWrite, scoreKept, queueInv, inPlay. simpl.
      split; [reflexivity|]. split; [right; right; auto|].
      split; [left; lia | auto].
    + unmonad H. injection H as <-. by_move Hs.
Qed.

Lemma loop_harmless fuel env st st' :
  loop fuel env st = Ok (tt, st') →
  gameInv (game st) → harmless (isoDate env) st st'.
Proof.
  intros H Hinv. open_in H loop.
  apply bind_Ok in H as (g & st0 & Hg & H). unmonad Hg. injection Hg as <- <-.
  destruct (bool_decide (state (game st) ≠ PLAYING)).
  { unmonad H. injection H as <-. by_move Hinv. }
  destruct (dateNow env - lastDrop (game st) >? dropTime (game st)).
  - apply bind_Ok in H as (m & st1 & Hm & H).
    pose proof (movePiece_harmless (isoDate env) _ _ _ _ _ Hm ltac:(lia)) as Hh.
    apply movePiece_keeps in Hm as ((_ & _ & _ & _ & Hp) & Hs1 & Hw & Hsc & Hk).
    apply bind_Ok in H as ([] & st2 & H2 & H). unmonad H. injection H as <-.
    apply harmless_lastDrop.
    destruct m; simpl in H2.
    + unmonad H2. injection H2 as <-. exact Hh.
    + apply placePiece_harmless in H2; [|exact (Hk Hinv)].
      destruct Hh as (_ & _ & _ & Hq).
      eapply harmless_after_move; [..|exact H2]; try assumption. lia.
  - unmonad H. injection H as <-. by_move Hinv.
Qed.

Lemma step_harmless fuel env ev st st' :
  step fuel env ev st = Ok (tt, st') →
  gameInv (game st) → harmless (isoDate env) st st'.
Proof.
  destruct ev as [key|]; simpl; intros H Hinv.
  - apply bind_Ok in H as (g & st0 & Hg & H). unmonad Hg. injection Hg as <- <-.
    destruct (streamEnded (game st)).
    + unmonad H. injection H as <-. by_move Hinv.
    + eapply onData_harmless; eassumption.
  - eapply loop_harmless; eassumption.
Qed.

Lemma reachable_queue st : reachable st → queueInv (game st).
Proof.
  induction 1 as [w p now | st st' fuel env ev Hr IH Hstep | st w _ IH].
  - intros [Hs|Hs]; discriminate Hs.
  - apply reachable_inv in Hr.
    apply step_harmless in Hstep as (_ & _ & _ & Hq); auto.
  - exact IH.
Qed.

Lemma reachable_score st : reachable st → 0 <= score (game st).
Proof.
  induction 1 as [w p now | st st' fuel env ev Hr IH Hstep | st w _ IH].
  - simpl. lia.
  - apply reachable_inv in Hr.
    apply step_harmless in Hstep as (_ & _ & [Hk | (Hk & _)] & _); [lia | lia | exact Hr].
  - exact IH.
Qed.

End Session.

(** ** Handlers return *)

Section Returns.

Implicit Types (st : St) (g : Game).

Lemma bind_ret {A B : Type} (m : M A) (k : A → M B) st (a : A) st1 (r : result (B * St)) :
  m st = Ok (a, st1) → k a st1 = r → bind m k st = r.
Proof. intros Hm Hk. unfold bind. now rewrite Hm. Qed.













End Returns.

(** X19.  Every event a session handles leaves its player as it is and
    writes to the storage in at most one of two ways: when the game ends,
    the storage is the one [updateHighScore] returns for the session's own
    player and its final score, level and lines; when [y] confirms the
    deletion, it is the storage without the session's own player.  In every
    other case the storage is untouched. *)
Theorem session_writes_own_data (st st' : St) (fuel : nat) (env : Env) (ev : Event) :
  reachable st →
  step fuel env ev st = Ok (tt, st') →
  player (game st') = player (game st) ∧
  (world st' = world st ∨
   (state (game st') = GAME_OVER ∧
    ∃ rank,
      updateHighScore (player (game st)) (score (game st')) (level (game st'))
        (lines (game st')) (isoDate env) (world st) = Ok (rank, world st')) ∨
   (state (game st) = ACCOUNT_DELETE ∧
    world st' = deletePlayerAccount (Player.id (player (game st))) (world st))).
Proof.
  intros Hr H. apply reachable_inv in Hr.
  apply step_harmless in H as (Hp & Hown & _); [|exact Hr].
  split; [exact Hp | exact Hown].
Qed.

Lemma session_writes_own_data_witness :
  player (game (stOf (step 41 (envAt 20) (Data " ") playingSt) playingSt)) =
    player (game playingSt) ∧
  (world (stOf (step 41 (envAt 20) (Data " ") playingSt) playingSt) = world playingSt ∨
   (state (game (stOf (step 41 (envAt 20) (Data " ") playingSt) playingSt)) = GAME_OVER ∧
    ∃ rank,
      updateHighScore (player (game playingSt))
        (score (game (stOf (step 41 (envAt 20) (Data " ") playingSt) playingSt)))
        (level (game (stOf (step 41 (envAt 20) (Data " ") playingSt) playingSt)))
        (lines (game (stOf (step 41 (envAt 20) (Data " ") playingSt) playingSt)))
        (isoDate (envAt 20)) (world playingSt) =
      Ok (rank, world (stOf (step 41 (envAt 20) (Data " ") playingSt) playingSt))) ∨
   (state (game playingSt) = ACCOUNT_DELETE ∧
    world (stOf (step 41 (envAt 20) (Data " ") playingSt) playingSt) =
      deletePlayerAccount (Player.id (player (game playingSt))) (world playingSt))).
Proof.
  apply (session_writes_own_data playingSt _ 41 (envAt 20) (Data " ")).
  - apply playingSt_reachable.
  - apply ok_stOf. vm_compute. reflexivity.
Defined.

(** X20.  No event makes the score smaller, except by starting a game:
    then the score is 0, the board is empty and the screen is [PLAYING]. *)
Theorem score_drops_only_at_start (st st' : St) (fuel : nat) (env : Env) (ev : Event) :
  reachable st →
  step fuel env ev st = Ok (tt, st') →
  score (game st) <= score (game st') ∨
  (score (game st') = 0 ∧ state (game st') = PLAYING ∧ board (game st') = emptyBoard).
Proof.
  intros Hr H. apply reachable_inv in Hr.
  apply step_harmless in H as (_ & _ & Hk & _); [exact Hk | exact Hr].
Qed.

Lemma score_drops_only_at_start_witness :
  score (game playingSt) <=
    score (game (stOf (step 41 (envAt 20) (Data " ") playingSt) playingSt)) ∨
  (score (game (stOf (step 41 (envAt 20) (Data " ") playingSt) playingSt)) = 0 ∧
   state (game (stOf (step 41 (envAt 20) (Data " ") playingSt) playingSt)) = PLAYING ∧
   board (game (stOf (step 41 (envAt 20) (Data " ") playingSt) playingSt)) = emptyBoard).
Proof.
  apply (score_drops_only_at_start playingSt _ 41 (envAt 20) (Data " ")).
  - apply playingSt_reachable.
  - apply ok_stOf. vm_compute. reflexivity.
Defined.

(** X21.  In every state a session can reach the score and the line count
    are not negative and the level is at least 1; while a game is in play a
    piece is queued and the falling piece is at row 0 or below. *)
Theorem statistics_in_range (st : St) :
  reachable st →
  0 <= score (game st) ∧ 0 <= lines (game st) ∧ 1 <= level (game st) ∧
  (inPlay (game st) → is_Some (nextType (game st)) ∧ 0 <= currentY (game st)).
Proof.
  intros Hr. pose proof (reachable_inv _ Hr) as (_ & _ & Hst & _).
  split; [now apply reachable_score|].
  split; [apply Hst|]. split; [now apply statsInv_level|].
  now apply reachable_queue.
Qed.

Lemma statistics_in_range_witness :
  0 <= score (game (stOf (step 41 (envAt 20) (Data " ") playingSt) playingSt)) ∧
  0 <= lines (game (stOf (step 41 (envAt 20) (Data " ") playingSt) playingSt)) ∧
  1 <= level (game (stOf (step 41 (envAt 20) (Data " ") playingSt) playingSt)) ∧
  (inPlay (game (stOf (step 41 (envAt 20) (Data " ") playingSt) playingSt)) →
   is_Some (nextType (game (stOf (step 41 (envAt 20) (Data " ") playingSt) playingSt))) ∧
   0 <= currentY (game (stOf (step 41 (envAt 20) (Data " ") playingSt) playingSt))).
Proof.
  apply (statistics_in_range (stOf (step 41 (envAt 20) (Data " ") playingSt) playingSt)).
  eapply reach_step; [apply playingSt_reachable|].
  apply ok_stOf. vm_compute. reflexivity.
Defined.



(** X23.  A session keeps the leaderboard legal: if the leaderboard is one
    the server can hold, then after any event it is again sorted by score
    from the highest down, holds no player twice and has at most 50
    entries. *)
Theorem session_keeps_leaderboard (st st' : St) (fuel : nat) (env : Env) (ev : Event) :
  reachable st →
  lb_reachable (world st) →
  step fuel env ev st = Ok (tt, st') →
  lb_reachable (world st') ∧
  NoDup (ids (highScores (world st'))) ∧
  sortedDesc (highScores (world st')) ∧
  (length (highScores (world st')) <= 50)%nat.
Proof.
  intros Hr Hlb H. apply reachable_inv in Hr.
  apply step_harmless in H as (_ & Hown & _); [|exact Hr].
  assert (Hlb' : lb_reachable (world st')).
  { destruct Hown as [-> | [(_ & rank & Hup) | (_ & ->)]].
    - exact Hlb.
    - eapply lb_update; eassumption.
    - now apply lb_delete. }
  split; [exact Hlb' | now apply lb_reachable_keeps].
Qed.

Lemma session_keeps_leaderboard_witness :
  lb_reachable (world (stOf (step 41 (envAt 20) (Data " ") playingSt) playingSt)) ∧
  NoDup (ids (highScores (world (stOf (step 41 (envAt 20) (Data " ") playingSt) playingSt)))) ∧
  sortedDesc (highScores (world (stOf (step 41 (envAt 20) (Data " ") playingSt) playingSt))) ∧
  (length (highScores (world (stOf (step 41 (envAt 20) (Data " ") playingSt) playingSt))) <= 50)%nat.
Proof.
  apply (session_keeps_leaderboard playingSt _ 41 (envAt 20) (Data " ")).
  - apply playingSt_reachable.
  - apply (lb_players (mkWorld [] ∅)). apply lb_empty.
  - apply ok_stOf. vm_compute. reflexivity.
Defined.

(** ** Keys and ticks while a game is running *)

Section Keys.

Implicit Types (st : St) (g : Game).



End Keys.



(** X25.  Pausing is undone by resuming: from a running game, [p] leads
    to [PAUSED], and a second [p] leads back to exactly the state before
    the first, the time of the last drop included. *)
Theorem pause_round_trip (st : St) (fuel : nat) (env env' : Env) :
  state (game st) = PLAYING →
  ∃ st1,
    onData fuel env "p" st = Ok (tt, st1) ∧
    state (game st1) = PAUSED ∧
    onData fuel env' "p" st1 = Ok (tt, st).
Proof.
  intros Hs. exists (mkSt (world st) (set_state PAUSED (game st))).
  split; [|split; [reflexivity|]].
  - unfold onData, handleGameInput. eval_keys. cbv iota.
    eapply bind_ret; [reflexivity|]. cbv beta. rewrite Hs. reflexivity.
  - unfold onData, handlePausedInput. eval_keys. cbv iota.
    eapply bind_ret; [reflexivity|]. cbv beta. simpl state. cbv iota.
    unmonad_goal. destruct st as [w [? ? s ? ? ? ? ? ? ? ? ? ? ? ? ?]].
    simpl in Hs. subst s. reflexivity.
Qed.

Lemma pause_round_trip_witness :
  ∃ st1,
    onData 41 (envAt 10) "p" playingSt = Ok (tt, st1) ∧
    state (game st1) = PAUSED ∧
    onData 41 (envAt 5000) "p" st1 = Ok (tt, playingSt).
Proof.
  apply (pause_round_trip playingSt 41 (envAt 10) (envAt 5000)).
  vm_compute. reflexivity.
Defined.

(** X26.  A paused game is frozen: every event is handled, and the state
    after it is the state before, unless the event is the key [p] (only
    the screen changes, to [PLAYING]) or a quit key (only the stream is
    ended).  Timer ticks in particular do nothing. *)
Theorem paused_is_frozen (st : St) (fuel : nat) (env : Env) (ev : Event) :
  state (game st) = PAUSED →
  ∃ st',
    step fuel env ev st = Ok (tt, st') ∧
    (st' = st ∨
     (ev = Data "p" ∧ st' = mkSt (world st) (set_state PLAYING (game st))) ∨
     (∃ key, ev = Data key ∧ key ∈ ["q"; ETX] ∧
             st' = mkSt (world st) (set_streamEnded true (game st)))).
Proof.
  intros Hs. destruct ev as [key|]; simpl.
  - destruct (streamEnded (game st)) eqn:He.
    { exists st. split; [|now left].
      eapply bind_ret; [reflexivity|]. cbv beta. rewrite He. reflexivity. }
    destruct (isKey key ["q"; ETX]) eqn:Hq.
    { eexists. split.
      - eapply bind_ret; [reflexivity|]. cbv beta. rewrite He.
        unfold onData. rewrite Hq. reflexivity.
      - right. right. exists key. split; [reflexivity|].
        split; [|reflexivity]. unfold isKey in Hq. now apply bool_decide_eq_true in Hq. }
    destruct (isKey key ["p"]) eqn:Hp.
    { eexists. split.
      - eapply bind_ret; [reflexivity|]. cbv beta. rewrite He.
        unfold onData. rewrite Hq.
        eapply bind_ret; [reflexivity|]. cbv beta. rewrite Hs.
        unfold handlePausedInput. rewrite Hp. reflexivity.
      - right. left. split; [|reflexivity].
        unfold isKey in Hp. apply bool_decide_eq_true in Hp.
        apply list_elem_of_singleton in Hp. now rewrite Hp. }
    exists st. split; [|now left].
    eapply bind_ret; [reflexivity|]. cbv beta. rewrite He.
    unfold onData. rewrite Hq.
    eapply bind_ret; [reflexivity|]. cbv beta. rewrite Hs.
    unfold handlePausedInput. rewrite Hp. reflexivity.
  - exists st. split; [|now left].
    unfold loop. eapply bind_ret; [reflexivity|]. cbv beta.
    rewrite bool_decide_eq_true_2; [reflexivity|]. rewrite Hs. discriminate.
Qed.

Lemma paused_is_frozen_witness :
  ∃ st',
    step 41 (envAt 5000) Timer pausedSt = Ok (tt, st') ∧
    (st' = pausedSt ∨
     (Timer = Data "p" ∧ st' = mkSt (world pausedSt) (set_state PLAYING (game pausedSt))) ∨
     (∃ key, Timer = Data key ∧ key ∈ ["q"; ETX] ∧
             st' = mkSt (world pausedSt) (set_streamEnded true (game pausedSt)))).
Proof.
  apply (paused_is_frozen pausedSt 41 (envAt 5000) Timer).
  vm_compute. reflexivity.
Defined.

(** X27.  Gravity is rate-limited.  A tick that is not due (the game is
    not running, or no more than [dropTime] milliseconds have passed since
    the last drop) changes nothing.  A due tick records the current time as
    the time of the last drop, and then every tick within the next 100
    milliseconds changes nothing. *)
Theorem gravity_rate (st st' : St) (fuel : nat) (env : Env) :
  reachable st →
  loop fuel env st = Ok (tt, st') →
  (state (game st) ≠ PLAYING ∨ dateNow env - lastDrop (game st) <= dropTime (game st) →
   st' = st) ∧
  (state (game st) = PLAYING → dateNow env - lastDrop (game st) > dropTime (game st) →
   lastDrop (game st') = dateNow env ∧
   ∀ fuel' env', dateNow env' - dateNow env <= 100 →
                 loop fuel' env' st' = Ok (tt, st')).
Proof.
  intros Hr H. apply reachable_inv in Hr.
  pose proof (loop_keeps _ _ _ _ H Hr) as (_ & _ & (_ & _ & Hd) & _).
  open_in H loop.
  apply bind_Ok in H as (g & st0 & Hg & H). unmonad Hg. injection Hg as <- <-.
  split.
  - intros Hcase. case_bool_decide as Hs.
    { unmonad H. now injection H as <-. }
    destruct Hcase as [Hne | Hle]; [now destruct Hs|].
    destruct (dateNow env - lastDrop (game st) >? dropTime (game st)) eqn:Hdue; [lia|].
    unmonad H. now injection H as <-.
  - intros Hs Hdue. rewrite bool_decide_eq_false_2 in H by (intros Hne; exact (Hne Hs)).
    destruct (dateNow env - lastDrop (game st) >? dropTime (game st)) eqn:Hgt; [|lia].
    apply bind_Ok in H as (m & st1 & _ & H).
    apply bind_Ok in H as ([] & st2 & _ & H). unmonad H. injection H as <-.
    simpl in *. split; [reflexivity|].
    intros fuel' env' Hsoon. unfold loop.
    eapply bind_ret; [reflexivity|]. cbv beta zeta.
    destruct (bool_decide _); [reflexivity|]. simpl.
    destruct (dateNow env' - dateNow env >? dropTime (game st2)) eqn:Hgt'; [lia | reflexivity].
Qed.

Lemma gravity_rate_witness :
  (state (game playingSt) ≠ PLAYING ∨
   dateNow (envAt 1500) - lastDrop (game playingSt) <= dropTime (game playingSt) →
   stOf (loop 41 (envAt 1500) playingSt) playingSt = playingSt) ∧
  (state (game playingSt) = PLAYING →
   dateNow (envAt 1500) - lastDrop (game playingSt) > dropTime (game playingSt) →
   lastDrop (game (stOf (loop 41 (envAt 1500) playingSt) playingSt)) = dateNow (envAt 1500) ∧
   ∀ fuel' env', dateNow env' - dateNow (envAt 1500) <= 100 →
                 loop fuel' env' (stOf (loop 41 (envAt 1500) playingSt) playingSt) =
                   Ok (tt, stOf (loop 41 (envAt 1500) playingSt) playingSt)).
Proof.
  apply (gravity_rate playingSt _ 41 (envAt 1500)).
  - apply playingSt_reachable.
  - apply ok_stOf. vm_compute. reflexivity.
Defined.

(** ** The daily cleanup of the storage *)

Section CleanupFacts.

Variable getTime : string → option Z.

Lemma bool_filter_all {A : Type} (l : list A) : List.filter (λ _, true) l = l.
Proof. induction l as [|x l IH]; simpl; [reflexivity | now rewrite IH]. Qed.

Lemma bool_filter_twice {A : Type} (f g : A → bool) (l : list A) :
  List.filter g (List.filter f l) = List.filter (λ x, f x && g x) l.
Proof.
  induction l as [|x l IH]; simpl; [reflexivity|].
  destruct (f x); simpl; [destruct (g x)|]; now rewrite IH.
Qed.

Lemma expires_cons (now : Z) (p : string) (data : PlayerRecord.t)
    (entries : list (string * PlayerRecord.t)) (pid : string) :
  expires getTime now ((p, data) :: entries) pid =
    bool_decide (pid = p) && inactive getTime now data || expires getTime now entries pid.
Proof. reflexivity. Qed.

(** The loop, whatever the order of the entries. *)
Lemma cleanupPlayers_fold (now : Z) (entries : list (string * PlayerRecord.t)) (w : World) :
  highScores (cleanupPlayers getTime now entries w) =
    List.filter (λ e, negb (expires getTime now entries (Entry.playerId e))) (highScores w) ∧
  ∀ pid, playerData (cleanupPlayers getTime now entries w) !! pid =
           if expires getTime now entries pid then None else playerData w !! pid.
Proof.
  unfold cleanupPlayers. revert w.
  induction entries as [|[p data] entries IH]; intros w.
  - simpl. split; [now rewrite bool_filter_all | reflexivity].
  - cbn [foldl].
    destruct (IH (cleanupPlayer getTime now w (p, data))) as [IHhs IHpd].
    rewrite IHhs. split.
    + unfold cleanupPlayer. destruct (inactive getTime now data) eqn:Hin; cbn [highScores playerData].
      * rewrite bool_filter_twice. apply List.filter_ext. intros e.
        rewrite expires_cons, Hin, andb_true_r. unfold isPlayer.
        destruct (bool_decide (Entry.playerId e = p)); reflexivity.
      * apply List.filter_ext. intros e. now rewrite expires_cons, Hin, andb_false_r.
    + intros pid. rewrite IHpd, expires_cons. unfold cleanupPlayer.
      destruct (inactive getTime now data) eqn:Hin; cbn [highScores playerData].
      * rewrite andb_true_r. case_bool_decide as Hp; cbn [orb].
        -- subst pid. rewrite lookup_delete_eq. now destruct (expires _ _ _ _).
        -- rewrite lookup_delete_ne by congruence. reflexivity.
      * now rewrite andb_false_r.
Qed.

Lemma expires_spec (now : Z) (entries : list (string * PlayerRecord.t)) (w : World)
    (pid : string) :
  entries ≡ₚ map_to_list (playerData w) →
  expires getTime now entries pid =
    match playerData w !! pid with
    | Some data => inactive getTime now data
    | None => false
    end.
Proof.
  intros Hperm.
  assert (Hin : ∀ q data, (q, data) ∈ entries ↔ playerData w !! q = Some data).
  { intros q data. rewrite Hperm. apply elem_of_map_to_list. }
  destruct (expires getTime now entries pid) eqn:He.
  - unfold expires in He. apply existsb_exists in He as ([q data] & Hq & Hb). simpl in Hb.
    apply andb_true_iff in Hb as [Hp Hb]. apply bool_decide_eq_true in Hp. subst q.
    apply list_elem_of_In, Hin in Hq. now rewrite Hq.
  - destruct (playerData w !! pid) as [data|] eqn:Hrec; [|reflexivity].
    destruct (inactive getTime now data) eqn:Hb; [|reflexivity].
    rewrite <- He. unfold expires. apply existsb_exists. exists (pid, data). split.
    + apply list_elem_of_In, Hin, Hrec.
    + simpl. rewrite Hb. now rewrite bool_decide_eq_true_2.
Qed.

Lemma limitHighScores_take (w : World) :
  highScores (limitHighScores w) = slice0 MAX_HIGHSCORE_ENTRIES (highScores w) ∧
  playerData (limitHighScores w) = playerData w.
Proof.
  unfold limitHighScores, slice0, MAX_HIGHSCORE_ENTRIES.
  destruct (Z.of_nat (length (highScores w)) >? 100) eqn:E; simpl; [auto|].
  split; [|reflexivity]. symmetry. apply take_ge. lia.
Qed.

Lemma cleanupPlayers_reachable (now : Z) (entries : list (string * PlayerRecord.t))
    (w : World) :
  lb_reachable w → lb_reachable (cleanupPlayers getTime now entries w).
Proof.
  unfold cleanupPlayers. revert w.
  induction entries as [|[p data] entries IH]; intros w Hlb; simpl; [exact Hlb|].
  apply IH. unfold cleanupPlayer. destruct (inactive getTime now data); [|exact Hlb].
  exact (lb_delete w p Hlb).
Qed.

(** X28.  The daily cleanup removes exactly the inactive players, in
    whatever order it visits them: a record is kept when it is not
    inactive and dropped when it is, and the leaderboard keeps, in order,
    the entries of players who have no record or an active one, cut to
    [MAX_HIGHSCORE_ENTRIES]. *)
Theorem cleanupData_removes_inactive (now : Z) (entries : list (string * PlayerRecord.t))
    (w : World) :
  entries ≡ₚ map_to_list (playerData w) →
  (∀ pid,
     playerData (cleanupData getTime now entries w) !! pid =
       match playerData w !! pid with
       | Some data => if inactive getTime now data then None else Some data
       | None => None
       end) ∧
  highScores (cleanupData getTime now entries w) =
    slice0 MAX_HIGHSCORE_ENTRIES (List.filter (survives getTime now w) (highScores w)).
Proof.
  intros Hperm. unfold cleanupData.
  destruct (limitHighScores_take (cleanupPlayers getTime now entries w)) as [Hhs Hpd].
  destruct (cleanupPlayers_fold now entries w) as [Fhs Fpd].
  rewrite Hhs, Hpd, Fhs. split.
  - intros pid. rewrite Fpd, (expires_spec now entries w pid Hperm).
    destruct (playerData w !! pid) as [data|]; [|reflexivity].
    now destruct (inactive getTime now data).
  - f_equal. apply List.filter_ext. intros e.
    rewrite (expires_spec now entries w _ Hperm). unfold survives.
    now destruct (playerData w !! Entry.playerId e).
Qed.

(** X29.  The cleanup keeps the leaderboard legal, and its cut at
    [MAX_HIGHSCORE_ENTRIES] never removes anything: on a leaderboard the
    server can hold, which has at most 50 entries, the storage after the
    cleanup is the storage after the loop over the players. *)
Theorem cleanupData_cut_is_idle (now : Z) (entries : list (string * PlayerRecord.t))
    (w : World) :
  lb_reachable w →
  cleanupData getTime now entries w = cleanupPlayers getTime now entries w ∧
  lb_reachable (cleanupData getTime now entries w) ∧
  (length (highScores (cleanupData getTime now entries w)) <= 50)%nat.
Proof.
  intros Hlb. pose proof (cleanupPlayers_reachable now entries w Hlb) as Hlb'.
  pose proof (lb_reachable_keeps _ Hlb') as (_ & _ & Hlen).
  assert (E : cleanupData getTime now entries w = cleanupPlayers getTime now entries w).
  { unfold cleanupData, limitHighScores, MAX_HIGHSCORE_ENTRIES.
    destruct (Z.of_nat _ >? 100) eqn:Hgt; [lia | reflexivity]. }
  rewrite E. auto.
Qed.

End CleanupFacts.

Lemma cleanupData_removes_inactive_witness :
  (∀ pid,
     playerData (cleanupData sampleTime (NINETY_DAYS + 2000)
                   (map_to_list (playerData oneWorld)) oneWorld) !! pid =
       match playerData oneWorld !! pid with
       | Some data => if inactive sampleTime (NINETY_DAYS + 2000) data then None else Some data
       | None => None
       end) ∧
  highScores (cleanupData sampleTime (NINETY_DAYS + 2000)
                (map_to_list (playerData oneWorld)) oneWorld) =
    slice0 MAX_HIGHSCORE_ENTRIES
      (List.filter (survives sampleTime (NINETY_DAYS + 2000) oneWorld) (highScores oneWorld)).
Proof.
  apply (cleanupData_removes_inactive sampleTime (NINETY_DAYS + 2000)
           (map_to_list (playerData oneWorld)) oneWorld).
  reflexivity.
Defined.

Lemma cleanupData_cut_is_idle_witness :
  cleanupData sampleTime (NINETY_DAYS + 2000) (map_to_list (playerData oneWorld)) oneWorld =
    cleanupPlayers sampleTime (NINETY_DAYS + 2000) (map_to_list (playerData oneWorld)) oneWorld ∧
  lb_reachable (cleanupData sampleTime (NINETY_DAYS + 2000)
                  (map_to_list (playerData oneWorld)) oneWorld) ∧
  (length (highScores (cleanupData sampleTime (NINETY_DAYS + 2000)
                         (map_to_list (playerData oneWorld)) oneWorld)) <= 50)%nat.
Proof.
  apply (cleanupData_cut_is_idle sampleTime (NINETY_DAYS + 2000)
           (map_to_list (playerData oneWorld)) oneWorld).
  apply (playAll_reachable [(nthPlayer 0, 500)] someDate (mkWorld [] (registered 1))).
  - apply lb_empty.
  - vm_compute. reflexivity.
Defined.

(** ** The rotation index *)

Section Rotation.

Implicit Types (st : St) (g : Game).

Lemma rotation_same g g' :
  currentType g' = currentType g →
  currentRotation g' = currentRotation g →
  currentPiece g' = currentPiece g →
  (inPlay g' → inPlay g) →
  rotationInv g → rotationInv g'.
Proof.
  intros Ht Hr Hp Hin Hinv Hin'. destruct (Hinv (Hin Hin')) as (t & H1 & H2 & H3).
  exists t. rewrite Ht, Hr, Hp. auto.
Qed.

Lemma catalogue_nonempty (t : PieceType) : 0 < Z.of_nat (length (shapes t)).
Proof. destruct t; reflexivity. Qed.

Lemma movePiece_rotation (dx dy : Z) st (moved : bool) st' :
  movePiece dx dy st = Ok (moved, st') → rotationInv (game st) → rotationInv (game st').
Proof.
  intros H. rewrite movePiece_unfold in H.
  destruct (checkCollision _ _ _ _) as [[|]|e]; try discriminate H;
    injection H as <- <-; [auto|].
  apply rotation_same; simpl; auto.
Qed.

Lemma rotatePiece_rotation st (turned : bool) st' :
  rotatePiece st = Ok (turned, st') → rotationInv (game st) → rotationInv (game st').
Proof.
  intros H Hinv. open_in H rotatePiece. unmonad H.
  destruct (currentType (game st)) as [t|] eqn:Ht; [|discriminate H].
  destruct (rotation_in_range t (currentRotation (game st) + 1)) as [p Hp].
  rewrite Hp in H.
  destruct (checkCollision _ _ _ _) as [[|]|e]; simpl in H; try discriminate H;
    injection H as <- <-; [exact Hinv|].
  intros Hin. destruct (Hinv Hin) as (t' & Ht' & Hrange & _).
  exists t. simpl. split; [exact Ht|]. split; [|now rewrite Hp].
  pose proof (catalogue_nonempty t) as Hlen.
  rewrite Ht in Ht'. injection Ht' as <-.
  pose proof (Z.rem_bound_pos (currentRotation (game st) + 1)
                (Z.of_nat (length (shapes t))) ltac:(lia) Hlen).
  lia.
Qed.

Lemma placePiece_rotation fuel drawn iso st st' :
  placePiece fuel drawn iso st = Ok (tt, st') →
  board_wf (board (game st)) → rotationInv (game st').
Proof.
  intros H Hwf.
  apply placePiece_effect in H
    as (sh & b1 & v & t & row0 & rest & _ & _ & _ & _ & Hsh & _ & _ & _ & Ht & _ & Hp & Hrot & _);
    [|exact Hwf].
  intros _. exists t. rewrite Hrot, Hp. split; [exact Ht|].
  pose proof (catalogue_nonempty t). split; [lia | now rewrite <- Hsh].
Qed.

Lemma hardDrop_rotation fuel drawn iso st st' :
  hardDrop fuel drawn iso st = Ok (tt, st') →
  gameInv (game st) → rotationInv (game st').
Proof.
  intros H Hinv. open_in H hardDrop.
  apply bind_Ok in H as (n & st1 & Hloop & H).
  apply hardDropLoop_keeps in Hloop as (_ & _ & _ & _ & Hinv1).
  apply bind_Ok in H as ([] & st2 & H2 & H). unmonad H2. injection H2 as <-.
  apply placePiece_rotation in H; [exact H|]. apply (Hinv1 Hinv).
Qed.

Lemma startGame_rotation env st st' :
  startGame env st = Ok (tt, st') → rotationInv (game st').
Proof.
  intros H. destruct (startGame_unfold env st) as (row0 & rest & Hsh & Hstart).
  rewrite Hstart in H. injection H as <-.
  intros _. exists (random1 env). simpl. split; [reflexivity|].
  pose proof (catalogue_nonempty (random1 env)). split; [lia | now rewrite <- Hsh].
Qed.

Ltac by_same Hs :=
  apply rotation_same; simpl;
  [reflexivity | reflexivity | reflexivity
  | unfold inPlay; simpl; rewrite ?Hs; intros [E|E]; first [discriminate E | auto]].

Lemma handleGameInput_rotation fuel env key st st' :
  handleGameInput fuel env key st = Ok (tt, st') →
  state (game st) = PLAYING →
  gameInv (game st) → rotationInv (game st) → rotationInv (game st').
Proof.
  intros H Hs Hinv. open_in H handleGameInput. open_in H restart.
  repeat match type of H with (if ?c then _ else _) _ = _ => destruct c end.
  - apply bind_Ok in H as (m & st1 & Hm & H). unmonad H. injection H as <-.
    eapply movePiece_rotation; exact Hm.
  - apply bind_Ok in H as (m & st1 & Hm & H). unmonad H. injection H as <-.
    eapply movePiece_rotation; exact Hm.
  - apply bind_Ok in H as (m & st1 & Hm & H).
    pose proof (movePiece_rotation _ _ _ _ _ Hm) as Hrot.
    apply movePiece_keeps in Hm as (_ & _ & _ & _ & Hk).
    destruct m.
    + unmonad H. injection H as <-. exact Hrot.
    + intros _. eapply placePiece_rotation; [exact H | apply (Hk Hinv)].
  - apply bind_Ok in H as (m & st1 & Hm & H). unmonad H. injection H as <-.
    eapply rotatePiece_rotation; exact Hm.
  - intros _. eapply hardDrop_rotation; eassumption.
  - unmonad H. injection H as <-. by_same Hs.
  - intros _. eapply startGame_rotation; exact H.
  - unmonad H. injection H as <-. by_same Hs.
  - unmonad H. injection H as <-. auto.
Qed.

Lemma onData_rotation fuel env key st st' :
  onData fuel env key st = Ok (tt, st') →
  gameInv (game st) → rotationInv (game st) → rotationInv (game st').
Proof.
  intros H Hinv. open_in H onData.
  destruct (isKey key ["q"; ETX]).
  { unmonad H. injection H as <-. by_same Hinv. }
  apply bind_Ok in H as (g & st0 & Hg & H). unmonad Hg. injection Hg as <- <-.
  destruct (state (game st)) eqn:Hs.
  - open_in H handleWelcomeInput.
    repeat match type of H with (if ?c then _ else _) _ = _ => destruct c end.
    + unmonad H. injection H as <-. by_same Hs.
    + unmonad H. injection H as <-. by_same Hs.
    + intros _. eapply startGame_rotation; exact H.
  - eapply handleGameInput_rotation; eassumption.
  - open_in H handlePausedInput. destruct (isKey key ["p"]);
      unmonad H; injection H as <-; by_same Hs.
  - open_in H handleGameOverInput. open_in H restart.
    repeat match type of H with (if ?c then _ else _) _ = _ => destruct c end.
    + intros _. eapply startGame_rotation; exact H.
    + unmonad H. injection H as <-. by_same Hs.
    + unmonad H. injection H as <-. by_same Hs.
  - open_in H handleHighScoresInput. unmonad H. rewrite Hs in H. simpl in H.
    injection H as <-. by_same Hs.
  - open_in H handleAccountMenuInput.
    repeat match type of H with (if ?c then _ else _) _ = _ => destruct c end;
      unmonad H; injection H as <-; by_same Hs.
  - open_in H handleAccountExportInput. unmonad H. injection H as <-. by_same Hs.
  - open_in H handleAccountDeleteInput. destruct (isKey key ["y"]);
      unmonad H; injection H as <-; by_same Hs.
Qed.

Lemma loop_rotation fuel env st st' :
  loop fuel env st = Ok (tt, st') →
  gameInv (game st) → rotationInv (game st) → rotationInv (game st').
Proof.
  intros H Hinv. open_in H loop.
  apply bind_Ok in H as (g & st0 & Hg & H). unmonad Hg. injection Hg as <- <-.
  destruct (bool_decide (state (game st) ≠ PLAYING)).
  { unmonad H. injection H as <-. auto. }
  destruct (dateNow env - lastDrop (game st) >? dropTime (game st)).
  - apply bind_Ok in H as (m & st1 & Hm & H).
    pose proof (movePiece_rotation _ _ _ _ _ Hm) as Hrot.
    apply movePiece_keeps in Hm as (_ & _ & _ & _ & Hk).
    apply bind_Ok in H as ([] & st2 & H2 & H). unmonad H. injection H as <-.
    intros Hr. change (rotationInv (game st2)).
    destruct m; simpl in H2.
    + unmonad H2. injection H2 as <-. exact (Hrot Hr).
    + eapply placePiece_rotation; [exact H2 | apply (Hk Hinv)].
  - unmonad H. injection H as <-. auto.
Qed.

Lemma reachable_rotation st : reachable st → rotationInv (game st).
Proof.
  induction 1 as [w p now | st st' fuel env ev Hr IH Hstep | st w _ IH].
  - intros [Hs|Hs]; discriminate Hs.
  - apply reachable_inv in Hr. destruct ev as [key|]; simpl in Hstep.
    + apply bind_Ok in Hstep as (g & st0 & Hg & H). unmonad Hg. injection Hg as <- <-.
      destruct (streamEnded (game st)).
      * unmonad H. injection H as <-. exact IH.
      * eapply onData_rotation; eassumption.
    + eapply loop_rotation; eassumption.
  - exact IH.
Qed.

End Rotation.

(** X30.  While a game is being played or is paused, the falling piece is
    the rotation state its rotation index names,
    [PIECES[currentType].shapes[currentRotation]], and the index is a valid
    one for the type; a rotation that succeeds moves the index to the next
    one, cyclically, and shows the state that index names. *)
Theorem rotation_index_names_piece (st : St) :
  reachable st →
  inPlay (game st) →
  ∃ t, currentType (game st) = Some t ∧
       0 <= currentRotation (game st) < Z.of_nat (length (shapes t)) ∧
       currentPiece (game st) = shapes t !! Z.to_nat (currentRotation (game st)) ∧
       ∀ st', rotatePiece st = Ok (true, st') →
         currentRotation (game st') =
           (currentRotation (game st) + 1) mod Z.of_nat (length (shapes t)) ∧
         currentPiece (game st') = shapes t !! Z.to_nat (currentRotation (game st')).
Proof.
  intros Hr Hin. destruct (reachable_rotation st Hr Hin) as (t & Ht & Hrange & Hp).
  exists t. do 3 (split; [assumption|]).
  intros st' H. open_in H rotatePiece. unmonad H. rewrite Ht in H.
  destruct (rotation_in_range t (currentRotation (game st) + 1)) as [p Hq].
  rewrite Hq in H.
  destruct (checkCollision _ _ _ _) as [[|]|e]; simpl in H; try discriminate H.
  injection H as <-. simpl. rewrite Hq. split; [|reflexivity].
  apply Z.rem_mod_nonneg; lia.
Qed.

Lemma rotation_index_names_piece_witness :
  ∃ t, currentType (game playingSt) = Some t ∧
       0 <= currentRotation (game playingSt) < Z.of_nat (length (shapes t)) ∧
       currentPiece (game playingSt) = shapes t !! Z.to_nat (currentRotation (game playingSt)) ∧
       ∀ st', rotatePiece playingSt = Ok (true, st') →
         currentRotation (game st') =
           (currentRotation (game playingSt) + 1) mod Z.of_nat (length (shapes t)) ∧
         currentPiece (game st') = shapes t !! Z.to_nat (currentRotation (game st')).
Proof.
  apply (rotation_index_names_piece playingSt).
  - apply playingSt_reachable.
  - left. vm_compute. reflexivity.
Defined.
